(** * esm2pdf: crawl, order, render and merge

    A shallow embedding of [esm2pdf.py] and the proofs of its specified
    properties.

    Conventions of the embedding.
    - A Python [str] is a list of Unicode code points ([str := list char]).
      [str.strip] and the matching of [re.IGNORECASE] are Python's on every
      code point; [str.lower] is Python's on ASCII, which is all that the
      suffix tests of the script depend on.
    - A Python function that may raise returns [option]: [None] stands for the
      exception leaving the function.
    - [urllib.parse] is transcribed from the CPython 3.13 library (the version
      the script names in its header).  Two validators that depend on large
      tables ([ipaddress] for bracketed hosts, NFKC normalisation for
      non-ASCII hosts) are section variables.
    - The collaborators the script drives (HTTP fetch, HTML parser, browser,
      PDF reader) are variables or explicit oracles. *)

From Stdlib Require Import Ascii String.
From Stdlib Require Import List Bool Arith Lia NArith.
From Stdlib Require Import Permutation Sorting.Sorted Relations.
From Stdlib Require Decimal DecimalString DecimalNat.
Import ListNotations.

Set Implicit Arguments.
Set Warnings "-hiding-delimiting-key".
Set Default Proof Using "Type".

(* ------------------------------------------------------------------ *)
(** * Python strings *)

Module Py.

(** A character of a Python [str] is a Unicode code point: [Low a] stands
    for the code point [a], below 256, and [High n] for the code point
    [256 + n]. *)
Inductive char :=
| Low (a : ascii)
| High (n : N).

Definition char_of_byte (b : Byte.byte) : char := Low (ascii_of_byte b).

Definition byte_of_char (c : char) : option Byte.byte :=
  match c with
  | Low a => Some (byte_of_ascii a)
  | High _ => None
  end.

Declare Scope pychar_scope.
Delimit Scope pychar_scope with char.
Bind Scope pychar_scope with char.
String Notation char char_of_byte byte_of_char : pychar_scope.

Definition str := list char.

(** A string literal. *)
Definition lit (s : string) : str := map Low (list_ascii_of_string s).

Definition code (c : char) : N :=
  match c with
  | Low a => N_of_ascii a
  | High n => 256 + n
  end.

(** [chr(n)] *)
Definition chr (n : N) : char :=
  if N.ltb n 256 then Low (ascii_of_N n) else High (n - 256).

Definition char_dec : forall a b : char, {a = b} + {a <> b}.
Proof. decide equality; [apply ascii_dec | apply N.eq_dec]. Defined.

Definition ceqb (x y : char) : bool :=
  match x, y with
  | Low a, Low b => Ascii.eqb a b
  | High m, High n => N.eqb m n
  | _, _ => false
  end.

Definition str_eq_dec : forall a b : str, {a = b} + {a <> b} :=
  list_eq_dec char_dec.

Definition str_eqb (a b : str) : bool :=
  if str_eq_dec a b then true else false.

(** [x in l] for a list of strings. *)
Definition mem (x : str) (l : list str) : bool :=
  if in_dec str_eq_dec x l then true else false.

(** [c in s] for one character. *)
Definition has_char (c : char) (s : str) : bool := existsb (ceqb c) s.

(** [lo <= code c <= hi], for a range that ends below 256. *)
Definition in_range (lo hi : N) (c : char) : bool :=
  match c with
  | Low a => (N.leb lo (N_of_ascii a) && N.leb (N_of_ascii a) hi)%bool
  | High _ => false
  end.

Definition is_upper := in_range 65 90.
Definition is_lower := in_range 97 122.
Definition is_digit := in_range 48 57.
Definition is_alpha (c : char) : bool := is_upper c || is_lower c.
Definition is_ascii (c : char) : bool := in_range 0 127 c.

Definition TAB : char := "009"%char.
Definition LF : char := "010"%char.
Definition CR : char := "013"%char.

(** The characters [str.strip()] removes, which are those [str.isspace]
    holds of: TAB, LF, VT, FF, CR, FS, GS, RS, US and the space, and
    outside ASCII U+0085, U+00A0, U+1680, U+2000 to U+200A, U+2028, U+2029,
    U+202F, U+205F and U+3000. *)
Definition is_space (c : char) : bool :=
  in_range 9 13 c || in_range 28 32 c
  || existsb (N.eqb (code c)) [133; 160; 5760; 8232; 8233; 8239; 8287; 12288]%N
  || (N.leb 8192 (code c) && N.leb (code c) 8202).

(** Lower case of the ASCII letters.  [str.lower] does more outside ASCII,
    but it yields an ASCII character from no other character than an
    upper-case ASCII letter, save U+0130 (an [i] followed by U+0307) and
    U+212A (a [k]); no extension that the script tests holds a [k], and in
    none is an [i] followed by U+0307: whether the lower case of a string
    ends with one of these extensions is the same for both. *)
Definition to_lower (c : char) : char :=
  match c with
  | Low a => if is_upper c then Low (ascii_of_N (N_of_ascii a + 32)) else c
  | High _ => c
  end.

Definition lower (s : str) : str := map to_lower s.

Fixpoint dropwhile (p : char -> bool) (s : str) : str :=
  match s with
  | [] => []
  | c :: t => if p c then dropwhile p t else s
  end.

Definition lstrip (p : char -> bool) (s : str) : str := dropwhile p s.
Definition rstrip (p : char -> bool) (s : str) : str :=
  rev (dropwhile p (rev s)).
Definition strip (p : char -> bool) (s : str) : str := rstrip p (lstrip p s).

(** [s.replace(c, "")] for a one-character [c]. *)
Definition remove_char (c : char) (s : str) : str :=
  filter (fun x => negb (ceqb x c)) s.

Fixpoint startswith (p s : str) : bool :=
  match p, s with
  | [], _ => true
  | a :: p', b :: s' => ceqb a b && startswith p' s'
  | _ :: _, [] => false
  end.

Definition endswith (suf s : str) : bool := startswith (rev suf) (rev s).

(** [sub in s]. *)
Fixpoint contains (sub s : str) : bool :=
  startswith sub s ||
  match s with
  | [] => false
  | _ :: t => contains sub t
  end.

(** [s.partition(c)] when [c] occurs: the text before and after the first
    occurrence ([s.find(c)] is the length of the first part). *)
Fixpoint partition_at (c : char) (s : str) : option (str * str) :=
  match s with
  | [] => None
  | x :: t =>
      if ceqb x c then Some ([], t)
      else match partition_at c t with
           | Some (a, b) => Some (x :: a, b)
           | None => None
           end
  end.

(** [s.split(c)]. *)
Fixpoint split (c : char) (s : str) : list str :=
  match s with
  | [] => [[]]
  | x :: t =>
      if ceqb x c then [] :: split c t
      else match split c t with
           | h :: r => (x :: h) :: r
           | [] => [[x]]
           end
  end.

(** [sep.join(l)]. *)
Fixpoint join (sep : str) (l : list str) : str :=
  match l with
  | [] => []
  | [a] => a
  | a :: r => a ++ sep ++ join sep r
  end.

(** The longest prefix free of the characters [p] selects, and the rest. *)
Fixpoint span_until (p : char -> bool) (s : str) : str * str :=
  match s with
  | [] => ([], [])
  | c :: t =>
      if p c then ([], s)
      else let (a, b) := span_until p t in (c :: a, b)
  end.

(** [sorted] compares strings character by character, by code. *)
Fixpoint str_leb (a b : str) : bool :=
  match a, b with
  | [], _ => true
  | _ :: _, [] => false
  | x :: a', y :: b' =>
      if N.ltb (code x) (code y) then true
      else if N.ltb (code y) (code x) then false
      else str_leb a' b'
  end.

Definition str_le (a b : str) : Prop := str_leb a b = true.

Fixpoint insert_sorted (x : str) (l : list str) : list str :=
  match l with
  | [] => [x]
  | y :: t => if str_leb x y then x :: l else y :: insert_sorted x t
  end.

Definition sorted (l : list str) : list str := fold_right insert_sorted [] l.

(** A list of strings without repetitions. *)
Fixpoint distinct (l : list str) : bool :=
  match l with
  | [] => true
  | x :: t => negb (mem x t) && distinct t
  end.

End Py.
Import Py.

(** A property of all characters that evaluates on each of the 256 low ones
    and on a high one whatever it is. *)
Ltac each_char c :=
  destruct c as [[[] [] [] [] [] [] [] []] | ?]; vm_compute;
  try reflexivity; try discriminate; auto.

(** A small error monad for the functions that may raise. *)
Definition bind {A B : Type} (m : option A) (f : A -> option B) : option B :=
  match m with
  | Some x => f x
  | None => None
  end.

Notation "x <- m ;; k" := (bind m (fun x => k))
  (at level 61, m at next level, right associativity).
Notation "' pat <- m ;; k" := (bind m (fun x => match x with pat => k end))
  (at level 61, pat pattern, m at next level, right associativity).

Fixpoint mapM {A B : Type} (f : A -> option B) (l : list A) : option (list B) :=
  match l with
  | [] => Some []
  | a :: t => b <- f a ;; r <- mapM f t ;; Some (b :: r)
  end.

(* ------------------------------------------------------------------ *)
(** * [urllib.parse] *)

Section Program.

(** [ipaddress]-based validation of a netloc that holds both brackets
    ([_check_bracketed_netloc]): [false] when it raises [ValueError]. *)
Variable bracketed_netloc_ok : str -> bool.

(** The NFKC check [_checknetloc] makes on a netloc that is not ASCII:
    [false] when it raises [ValueError]. *)
Variable nfkc_netloc_ok : str -> bool.

Definition uses_relative : list str :=
  map lit [""; "ftp"; "http"; "gopher"; "nntp"; "imap"; "wais"; "file";
           "https"; "shttp"; "mms"; "prospero"; "rtsp"; "rtspu"; "sftp";
           "svn"; "svn+ssh"; "ws"; "wss"]%string.

Definition uses_netloc : list str :=
  map lit [""; "ftp"; "http"; "gopher"; "nntp"; "telnet"; "imap"; "wais";
           "file"; "mms"; "https"; "shttp"; "snews"; "prospero"; "rtsp";
           "rtspu"; "rsync"; "svn"; "svn+ssh"; "sftp"; "nfs"; "git";
           "git+ssh"; "ws"; "wss"]%string.

Definition uses_params : list str :=
  map lit [""; "ftp"; "hdl"; "prospero"; "http"; "imap"; "https"; "shttp";
           "rtsp"; "rtspu"; "sip"; "sips"; "mms"; "sftp"; "tel"]%string.

Definition scheme_chars : str :=
  lit "abcdefghijklmnopqrstuvwxyzABCDEFGHIJKLMNOPQRSTUVWXYZ0123456789+-.".

(** [_WHATWG_C0_CONTROL_OR_SPACE]: the codes 0 to 32. *)
Definition c0_or_space (c : char) : bool := in_range 0 32 c.

(** The loop over [_UNSAFE_URL_BYTES_TO_REMOVE]. *)
Definition remove_unsafe (s : str) : str :=
  remove_char LF (remove_char CR (remove_char TAB s)).

Record SplitResult := mkSplit {
  s_scheme : str; s_netloc : str; s_path : str;
  s_query : str; s_fragment : str }.

Record ParseResult := mkParse {
  scheme : str; netloc : str; path : str; params : str;
  query : str; fragment : str }.

Definition nonempty (s : str) : bool :=
  match s with [] => false | _ :: _ => true end.

Definition is_delim (c : char) : bool :=
  ceqb c "/" || ceqb c "?" || ceqb c "#".

(** The scheme test of [urlsplit] on the text before the first colon:
    [i > 0], the first character an ASCII letter and every character in
    [scheme_chars]. *)
Definition scheme_test (pre : str) : bool :=
  match pre with
  | c0 :: _ =>
      is_ascii c0 && is_alpha c0
      && forallb (fun c => has_char c scheme_chars) pre
  | [] => false
  end.

Definition split_scheme (default url : str) : str * str :=
  match partition_at ":" url with
  | Some (pre, post) =>
      if scheme_test pre then (lower pre, post) else (default, url)
  | None => (default, url)
  end.

(** Whether [urlsplit] finds a scheme at the head of [url]. *)
Definition scheme_at_head (url : str) : bool :=
  match partition_at ":" url with
  | Some (pre, _) => scheme_test pre
  | None => false
  end.

Definition checknetloc (nl : str) : bool :=
  negb (nonempty nl) || forallb is_ascii nl || nfkc_netloc_ok nl.

(** [url[:2] == '//'] and [_splitnetloc(url, 2)] with the bracket checks. *)
Definition split_netloc (url : str) : option (str * str) :=
  if startswith (lit "//") url then
    let (nl, url') := span_until is_delim (skipn 2 url) in
    let ob := has_char "[" nl in
    let cb := has_char "]" nl in
    if (ob && negb cb) || (cb && negb ob) then None
    else if ob && cb then
           if bracketed_netloc_ok nl then Some (nl, url') else None
         else Some (nl, url')
  else Some ([], url).

(** [url.split(c, 1)] under the guard [c in url]. *)
Definition cut_at (c : char) (url : str) : str * str :=
  match partition_at c url with
  | Some (a, b) => (a, b)
  | None => (url, [])
  end.

Definition urlsplit (url default : str) : option SplitResult :=
  let url := lstrip c0_or_space url in
  let default := strip c0_or_space default in
  let url := remove_unsafe url in
  let default := remove_unsafe default in
  let '(sch, url) := split_scheme default url in
  '(nl, url) <- split_netloc url ;;
  let '(url, frag) := cut_at "#" url in
  let '(url, qry) := cut_at "?" url in
  if checknetloc nl then Some (mkSplit sch nl url qry frag) else None.

(** The text up to and including the last [c], and the text after it. *)
Definition rcut_at (c : char) (s : str) : option (str * str) :=
  match partition_at c (rev s) with
  | Some (a, b) => Some (rev b ++ [c], rev a)
  | None => None
  end.

Definition splitparams (url : str) : str * str :=
  match rcut_at "/" url with
  | Some (head, tail) =>
      (* i = url.find(';', url.rfind('/')) *)
      match partition_at ";" tail with
      | Some (a, b) => (head ++ a, b)
      | None => (url, [])
      end
  | None =>
      match partition_at ";" url with
      | Some (a, b) => (a, b)
      | None => (removelast url, url)   (* i = -1 *)
      end
  end.

Definition urlparse (url default : str) : option ParseResult :=
  r <- urlsplit url default ;;
  let '(url, prm) :=
    if mem (s_scheme r) uses_params && has_char ";" (s_path r)
    then splitparams (s_path r)
    else (s_path r, []) in
  Some (mkParse (s_scheme r) (s_netloc r) url prm (s_query r) (s_fragment r)).

Definition urlunsplit (r : SplitResult) : str :=
  let url := s_path r in
  let url :=
    if nonempty (s_netloc r) then
      lit "//" ++ s_netloc r ++
      (if nonempty url && negb (startswith (lit "/") url)
       then "/"%char :: url else url)
    else if startswith (lit "//") url then lit "//" ++ url
    else if nonempty (s_scheme r) && mem (s_scheme r) uses_netloc
            && (negb (nonempty url) || startswith (lit "/") url)
         then lit "//" ++ url
         else url in
  let url := if nonempty (s_scheme r) then s_scheme r ++ ":"%char :: url
             else url in
  let url := if nonempty (s_query r) then url ++ "?"%char :: s_query r
             else url in
  if nonempty (s_fragment r) then url ++ "#"%char :: s_fragment r else url.

(** [url = "%s;%s" % (url, params)] when there are parameters. *)
Definition path_with_params (r : ParseResult) : str :=
  if nonempty (params r) then path r ++ ";"%char :: params r else path r.

Definition urlunparse (r : ParseResult) : str :=
  urlunsplit (mkSplit (scheme r) (netloc r) (path_with_params r)
                      (query r) (fragment r)).

(** [segments[1:-1] = filter(None, segments[1:-1])]. *)
Definition drop_inner_empties (segments : list str) : list str :=
  match segments with
  | first :: (_ :: _) as rest =>
      first :: filter nonempty (removelast rest) ++ [last rest []]
  | _ => segments
  end.

(** One turn of the loop over the segments; [pop] on an empty list is the
    caught [IndexError]. *)
Definition resolve_step (resolved : list str) (seg : str) : list str :=
  if str_eqb seg (lit "..") then removelast resolved
  else if str_eqb seg (lit ".") then resolved
  else resolved ++ [seg].

Definition urljoin (base url : str) : option str :=
  if negb (nonempty base) then Some url
  else if negb (nonempty url) then Some base
  else
    b <- urlparse base [] ;;
    u <- urlparse url (scheme b) ;;
    if negb (str_eqb (scheme u) (scheme b))
       || negb (mem (scheme u) uses_relative)
    then Some url
    else if mem (scheme u) uses_netloc && nonempty (netloc u)
    then Some (urlunparse u)
    else
      let nl := if mem (scheme u) uses_netloc then netloc b else netloc u in
      if negb (nonempty (path u)) && negb (nonempty (params u)) then
        let qry := if nonempty (query u) then query u else query b in
        Some (urlunparse
                (mkParse (scheme u) nl (path b) (params b) qry (fragment u)))
      else
        let base_parts := split "/" (path b) in
        let base_parts :=
          if nonempty (last base_parts []) then removelast base_parts
          else base_parts in
        let segments :=
          if startswith (lit "/") (path u) then split "/" (path u)
          else drop_inner_empties (base_parts ++ split "/" (path u)) in
        let resolved := fold_left resolve_step segments [] in
        let resolved :=
          if str_eqb (last segments []) (lit ".")
             || str_eqb (last segments []) (lit "..")
          then resolved ++ [[]] else resolved in
        let joined := join (lit "/") resolved in
        Some (urlunparse
                (mkParse (scheme u) nl
                   (if nonempty joined then joined else lit "/")
                   (params u) (query u) (fragment u))).

(* ------------------------------------------------------------------ *)
(** * The script: constants and the normalizer *)

Definition BASE : str := lit "https://engsoftmoderna.info".
Definition OUT_DIR : str := lit "esm_pdf_pages".

Definition CHAPTERS_IN_ORDER : list str :=
  map lit ["/cap0.html"; "/cap1.html"; "/cap2.html"; "/cap3.html";
           "/cap4.html"; "/cap5.html"; "/cap6.html"; "/cap7.html";
           "/cap8.html"; "/cap9.html"; "/cap10.html"; "/capAp.html"]%string.

Definition EXTRA_ROOTS : list str :=
  map lit ["/"; "/artigos/artigos.html"; "/praticas.html";
           "/faq/testes-faq.html"; "/faq/git-faq.html"]%string.

Definition SKIP_EXTS : list str :=
  map lit [".png"; ".jpg"; ".jpeg"; ".svg"; ".gif";
           ".pdf"; ".zip"; ".mp4"; ".webm"; ".ico"]%string.

(** The characters an ASCII character of a pattern matches under
    [re.IGNORECASE]: the character in both letter cases, and the code
    points the regular expression engine folds with three of the letters:
    U+0130 and U+0131 with [i], U+017F with [s], U+212A with [k]. *)
Definition ci_eqb (p c : char) : bool :=
  ceqb (to_lower p) (to_lower c)
  || (ceqb (to_lower p) "i" && (ceqb c (chr 304) || ceqb c (chr 305)))
  || (ceqb (to_lower p) "s" && ceqb c (chr 383))
  || (ceqb (to_lower p) "k" && ceqb c (chr 8490)).

(** A literal of a case-insensitive pattern matched at the head of [s]:
    the text that follows it. *)
Fixpoint ci_prefix (pat s : str) : option str :=
  match pat, s with
  | [], _ => Some s
  | a :: pat', b :: s' => if ci_eqb a b then ci_prefix pat' s' else None
  | _ :: _, [] => None
  end.

(** A literal of a case-insensitive pattern matched by the whole of [s]. *)
Fixpoint ci_str_eqb (pat s : str) : bool :=
  match pat, s with
  | [], [] => true
  | a :: pat', b :: s' => ci_eqb a b && ci_str_eqb pat' s'
  | _, _ => false
  end.

(** [$] also matches before a line feed that ends the string. *)
Definition chomp (s : str) : str :=
  match rev s with
  | c :: r => if ceqb c LF then rev r else s
  | [] => s
  end.

(** [HTML_OK.match(url)] with [re.IGNORECASE]: the literal origin, then
    optionally a slash followed by any characters but line feeds, then the
    end of the string. *)
Definition HTML_OK_match (url : str) : bool :=
  match ci_prefix BASE url with
  | None => false
  | Some rest =>
      match chomp rest with
      | [] => true
      | c :: t => ceqb c "/" && negb (has_char LF t)
      end
  end.

Definition is_internal (url : str) : bool := HTML_OK_match url.

(** [u._replace(fragment="", query="")] *)
Definition without_query (u : ParseResult) : ParseResult :=
  mkParse (scheme u) (netloc u) (path u) (params u) [] [].

Definition normalize (href : str) : option str :=
  if negb (nonempty href) then Some []
  else
    let href := strip is_space href in
    if startswith (lit "#") href then Some []
    else
      absu <- urljoin BASE href ;;
      u <- urlparse absu [] ;;
      let u := without_query u in
      let absu := urlunparse u in
      if negb (is_internal absu) then Some []
      else if existsb (fun e => endswith e (lower absu)) SKIP_EXTS then Some []
      else Some absu.

(** [extract_links] over the [href] values the HTML parser yields for the
    anchors of a page ([None]: an anchor without the attribute). *)
Fixpoint extract_links (hrefs : list (option str)) : option (list str) :=
  match hrefs with
  | [] => Some []
  | a :: t =>
      href <- normalize (match a with Some h => h | None => [] end) ;;
      links <- extract_links t ;;
      Some (if nonempty href then href :: links else links)
  end.

Definition url_path (url : str) : option str :=
  u <- urlparse url [] ;;
  Some (if nonempty (path u) then path u else lit "/").

(** ** What the normalizer is specified against *)

(** The URL a link resolves to: lines 88 to 92 of the script. *)
Definition resolve (href : str) : option ParseResult :=
  absu <- urljoin BASE (strip is_space href) ;;
  urlparse absu [].

Definition origin (u : ParseResult) : str :=
  scheme u ++ lit "://" ++ netloc u.

(** The origin is the configured one, letter case apart. *)
Definition same_origin (u : ParseResult) : bool :=
  str_eqb (lower (origin u)) (lower BASE).

(** The origin is the text the pattern of [HTML_OK] starts with, under the
    matching of [re.IGNORECASE]. *)
Definition origin_matches (u : ParseResult) : bool :=
  ci_str_eqb BASE (origin u).

(** ** Well-formedness of what [urlparse] returns *)

Definition unsafe_free (s : str) : Prop :=
  ~ In TAB s /\ ~ In CR s /\ ~ In LF s.

(** The part of a path after its last slash holds no semicolon. *)
Definition last_segment_plain (p : str) : Prop :=
  forall a b, p = a ++ b -> ~ In "/"%char b -> ~ In ";"%char b.

Record parsed_ok (r : ParseResult) : Prop := {
  ok_scheme :
    scheme r = [] \/
    (Forall (fun c => has_char c scheme_chars = true) (scheme r)
     /\ lower (scheme r) = scheme r);
  ok_netloc : forall c, In c (netloc r) -> is_delim c = false;
  ok_unsafe : unsafe_free (netloc r ++ path r ++ params r);
  ok_path :
    forall c, In c (path r ++ params r) -> c <> "?"%char /\ c <> "#"%char;
  ok_authority :
    netloc r <> [] ->
    (path r = [] /\ params r = []) \/ startswith (lit "/") (path r) = true;
  ok_segment :
    mem (scheme r) uses_params = true -> last_segment_plain (path r);
  ok_params : forall c, In c (params r) -> c <> "/"%char;
  ok_bare :
    scheme r = [] -> netloc r = [] ->
    path_with_params r = [] \/
    startswith (lit "/") (path_with_params r) = true \/
    scheme_at_head (path_with_params r) = false }.

(* ------------------------------------------------------------------ *)
(** * The sequencer *)

Definition dict := list (str * str).

Fixpoint dict_set (k v : str) (d : dict) : dict :=
  match d with
  | [] => [(k, v)]
  | (k', v') :: t =>
      if str_eq_dec k k' then (k, v) :: t else (k', v') :: dict_set k v t
  end.

Fixpoint dict_get (k : str) (d : dict) : option str :=
  match d with
  | [] => None
  | (k', v) :: t => if str_eq_dec k k' then Some v else dict_get k t
  end.

(** [{url_path(u): u for u in all_urls}], filled from left to right. *)
Fixpoint by_path_of (all_urls : list str) (d : dict) : option dict :=
  match all_urls with
  | [] => Some d
  | u :: t => p <- url_path u ;; by_path_of t (dict_set p u d)
  end.

Fixpoint emit_chapters (by_path : dict) (ps : list str) (ordered : list str)
  : list str :=
  match ps with
  | [] => ordered
  | p :: t =>
      match dict_get p by_path with
      | Some u => emit_chapters by_path t (ordered ++ [u])
      | None => emit_chapters by_path t ordered
      end
  end.

Fixpoint emit_extras (by_path : dict) (ps : list str) (ordered : list str)
  : list str :=
  match ps with
  | [] => ordered
  | p :: t =>
      match dict_get p by_path with
      | Some u =>
          if mem u ordered then emit_extras by_path t ordered
          else emit_extras by_path t (ordered ++ [u])
      | None => emit_extras by_path t ordered
      end
  end.

Definition is_artigo (u : str) : bool := contains (lit "/artigos/") u.
Definition is_faq (u : str) : bool := contains (lit "/faq/") u.

Definition order_urls (all_urls : list str) : option (list str) :=
  by_path <- by_path_of all_urls [] ;;
  let ordered := emit_chapters by_path CHAPTERS_IN_ORDER [] in
  let ordered := emit_extras by_path EXTRA_ROOTS ordered in
  let rest := filter (fun u => negb (mem u ordered)) all_urls in
  let artigos := sorted (filter is_artigo rest) in
  let faq := sorted (filter is_faq rest) in
  let others :=
    sorted (filter (fun u => negb (is_artigo u) && negb (is_faq u)) rest) in
  Some (ordered ++ (artigos ++ faq ++ others)).

(** ** The sequencer through its lookup

    The same computation over a function from paths to URLs instead of a
    dictionary. *)
Definition found (look : str -> option str) (p : str) : list str :=
  match look p with
  | Some u => [u]
  | None => []
  end.

Definition chapters_of (look : str -> option str) (ps : list str) : list str :=
  flat_map (found look) ps.

Fixpoint extras_from (look : str -> option str) (ps : list str)
         (ordered : list str) : list str :=
  match ps with
  | [] => ordered
  | p :: t =>
      match look p with
      | Some u =>
          if mem u ordered then extras_from look t ordered
          else extras_from look t (ordered ++ [u])
      | None => extras_from look t ordered
      end
  end.

Definition neither (u : str) : bool := negb (is_artigo u) && negb (is_faq u).

Definition buckets (rest : list str) : list str :=
  sorted (filter is_artigo rest) ++ sorted (filter is_faq rest)
  ++ sorted (filter neither rest).

Definition order_with (look : str -> option str) (l : list str) : list str :=
  let ordered := extras_from look EXTRA_ROOTS (chapters_of look CHAPTERS_IN_ORDER) in
  ordered ++ buckets (filter (fun u => negb (mem u ordered)) l).

(** The URL the dictionary ends up holding for a path: the last of the
    list with that path. *)
Definition has_path (p u : str) : bool :=
  match url_path u with
  | Some p' => str_eqb p' p
  | None => false
  end.

Fixpoint last_with_path (l : list str) (p : str) : option str :=
  match l with
  | [] => None
  | u :: t =>
      match last_with_path t p with
      | Some v => Some v
      | None => if has_path p u then Some u else None
      end
  end.

Definition parses (u : str) : Prop := url_path u <> None.

Definition paths_distinct (l : list str) : Prop :=
  forall u v p, In u l -> In v l ->
                url_path u = Some p -> url_path v = Some p -> u = v.

Definition single_marker (l : list str) : Prop :=
  forall u, In u l -> is_artigo u && is_faq u = false.

(** Boolean tests of the two conditions, for concrete lists. *)
Definition distinct_paths (l : list str) : bool :=
  match mapM url_path l with
  | Some ps => distinct ps
  | None => false
  end.

Definition single_markerb (l : list str) : bool :=
  forallb (fun u => negb (is_artigo u && is_faq u)) l.

(** ** The sequencer in the words of the specification

    Chapters: the URLs whose path is a canonical chapter path, in canonical
    order.  Extra roots: the URLs whose path is an extra root and that are
    not emitted yet.  Then the remaining URLs in three disjoint buckets,
    each sorted. *)
Definition sequencer_spec (l : list str) : list str :=
  let chapters := flat_map (fun p => filter (has_path p) l) CHAPTERS_IN_ORDER in
  let extras :=
    flat_map (fun p => filter (fun u => has_path p u && negb (mem u chapters)) l)
             EXTRA_ROOTS in
  let rest := filter (fun u => negb (mem u (chapters ++ extras))) l in
  chapters ++ extras
  ++ sorted (filter is_artigo rest)
  ++ sorted (filter (fun u => is_faq u && negb (is_artigo u)) rest)
  ++ sorted (filter neither rest).

(* ------------------------------------------------------------------ *)
(** * The renderer *)

(** [s.replace(c, by)] for a one-character [c]. *)
Definition replace_char (c : char) (by_ : str) (s : str) : str :=
  flat_map (fun x => if ceqb x c then by_ else [x]) s.

(** [posixpath.join] of two components. *)
Definition path_join (a b : str) : str :=
  if startswith (lit "/") b then b
  else if negb (nonempty a) || endswith (lit "/") a then a ++ b
  else a ++ "/"%char :: b.

Definition decimal (n : nat) : str :=
  lit (DecimalString.NilEmpty.string_of_uint (Nat.to_uint n)).

(** The format [{idx:04d}]. *)
Definition fmt_04d (idx : nat) : str :=
  let d := decimal idx in
  repeat "0"%char (4 - length d) ++ d.

Definition safe_name (p : str) : str :=
  let s := replace_char "/" (lit " - ") (strip (ceqb "/") p) in
  if nonempty s then s else lit "home".

Definition page_fname (idx : nat) (p : str) : str :=
  path_join OUT_DIR (fmt_04d idx ++ lit " - " ++ safe_name p ++ lit ".pdf").

(** What the run does to the world outside, in order. *)
Inductive event :=
| EvMakedirs (dir : str)
| EvLaunch (exe : option str)
| EvNewPage
| EvSetTimeout (ms : N)
| EvGoto (url : str)
| EvPdf (fname : str)
| EvPrintOk (fname : str)
| EvPrintErro (url : str)
| EvClose.

Record render_result := mkRender {
  trace : list event;        (* the calls made, oldest first *)
  artifacts : list str;      (* the files [page.pdf] wrote *)
  raised : bool }.           (* an exception left [print_to_pdf] *)

Section Renderer.

(** The browser collaborator: the executable found, whether [launch] and
    [newPage] succeed, and whether [page.goto] and [page.pdf] succeed at
    the iteration numbered [idx]. *)
Variable exe : option str.
Variable launch_ok newpage_ok : bool.
Variable goto_ok pdf_ok : nat -> str -> bool.

Fixpoint render_loop (idx : nat) (urls : list str) (r : render_result)
  : render_result :=
  match urls with
  | [] => r
  | url :: rest =>
      match url_path url with
      | None => mkRender (trace r) (artifacts r) true
      | Some p =>
          let fname := page_fname idx p in
          let t := trace r ++ [EvGoto url] in
          if goto_ok idx url then
            let t := t ++ [EvPdf fname] in
            if pdf_ok idx url then
              render_loop (S idx) rest
                (mkRender (t ++ [EvPrintOk fname]) (artifacts r ++ [fname])
                   false)
            else
              render_loop (S idx) rest
                (mkRender (t ++ [EvPrintErro url]) (artifacts r) false)
          else
            render_loop (S idx) rest
              (mkRender (t ++ [EvPrintErro url]) (artifacts r) false)
      end
  end.

Definition print_to_pdf (urls : list str) : render_result :=
  let t := [EvMakedirs OUT_DIR; EvLaunch exe] in
  if negb launch_ok then mkRender t [] true
  else
    let t := t ++ [EvNewPage] in
    if negb newpage_ok then mkRender t [] true
    else
      let r := render_loop 1 urls
                 (mkRender (t ++ [EvSetTimeout 120000%N]) [] false) in
      if raised r then r
      else mkRender (trace r ++ [EvClose]) (artifacts r) false.

(** The URLs navigated to, and the number of times the browser is closed. *)
Definition gotos (t : list event) : list str :=
  flat_map (fun e => match e with EvGoto u => [u] | _ => [] end) t.

Definition closes (t : list event) : nat :=
  length (filter (fun e => match e with EvClose => true | _ => false end) t).

(** The artifacts of the URLs whose navigation and print both succeed. *)
Fixpoint rendered (idx : nat) (urls : list str) : list str :=
  match urls with
  | [] => []
  | url :: rest =>
      let p := match url_path url with Some p => p | None => [] end in
      if goto_ok idx url && pdf_ok idx url
      then page_fname idx p :: rendered (S idx) rest
      else rendered (S idx) rest
  end.

End Renderer.

End Program.

(** Stand-ins for the two library validators in the concrete runs below.
    No URL of theirs has a bracket, so the first is never consulted; the
    second is consulted for one host that is not ASCII, that of
    [dotless_link], which the library's check accepts (its NFKC form is the
    host itself). *)
Definition lenient (_ : str) : bool := true.

(** A link to another host: the [i] of [info] is U+0131, the dotless i. *)
Definition dotless_host : str := lit "engsoftmoderna." ++ chr 305 :: lit "nfo".
Definition dotless_link : str := lit "https://" ++ dotless_host ++ lit "/x".

(** A browser whose navigation fails at the second URL of the batch. *)
Definition second_goto_fails (idx : nat) (_ : str) : bool := negb (idx =? 2).
Definition always_ok (_ : nat) (_ : str) : bool := true.

Definition home_bare : str := lit "https://engsoftmoderna.info".
Definition home_slash : str := lit "https://engsoftmoderna.info/".
Definition praticas : str := lit "https://engsoftmoderna.info/praticas.html".
Definition cap3 : str := lit "https://engsoftmoderna.info/cap3.html".
Definition capAp : str := lit "https://engsoftmoderna.info/capAp.html".
Definition artigo_a : str := lit "https://engsoftmoderna.info/artigos/a.html".
Definition artigo_b : str := lit "https://engsoftmoderna.info/artigos/b.html".
Definition artigo_faq : str :=
  lit "https://engsoftmoderna.info/artigos/faq/x.html".
Definition cap0 : str := lit "https://engsoftmoderna.info/cap0.html".
Definition cap1 : str := lit "https://engsoftmoderna.info/cap1.html".
Definition cap2 : str := lit "https://engsoftmoderna.info/cap2.html".

(* ------------------------------------------------------------------ *)
(** * The crawler *)

Section Crawler.

(** The two collaborators of the crawl: [fetch_html] ([None] when it
    raises) and the links [extract_links] finds in a fetched page. *)
Variable Html : Type.
Variable fetch_html : str -> option Html.
Variable links_of : Html -> list str.

(** [seen] holds the keys of the ordered dictionary, in insertion order. *)
Record crawl_state := mkCrawl { seen : list str; q : list str }.

(** [for nxt in extract_links(html): if nxt not in seen: q.append(nxt)] *)
Fixpoint enqueue (seen : list str) (q : list str) (links : list str)
  : list str :=
  match links with
  | [] => q
  | nxt :: t =>
      if mem nxt seen then enqueue seen q t else enqueue seen (q ++ [nxt]) t
  end.

(** The body of the [while] loop, [url] being the popped head. *)
Definition crawl_visit (url : str) (st : crawl_state) : crawl_state :=
  if mem url (seen st) then st
  else match fetch_html url with
       | None => st
       | Some html =>
           let seen' := seen st ++ [url] in
           mkCrawl seen' (enqueue seen' (q st) (links_of html))
       end.

Definition crawl_step (st : crawl_state) : crawl_state :=
  match q st with
  | [] => st
  | url :: q' => crawl_visit url (mkCrawl (seen st) q')
  end.

Fixpoint crawl_steps (n : nat) (st : crawl_state) : crawl_state :=
  match n with
  | 0 => st
  | S n' => crawl_steps n' (crawl_step st)
  end.

(** The [while q] loop; [None] when the fuel runs out first. *)
Fixpoint crawl_loop (fuel : nat) (st : crawl_state) : option (list str) :=
  match fuel with
  | 0 => None
  | S fuel' =>
      match q st with
      | [] => Some (seen st)
      | url :: q' => crawl_loop fuel' (crawl_visit url (mkCrawl (seen st) q'))
      end
  end.

Definition crawl_all (fuel : nat) (start_urls : list str) : option (list str) :=
  crawl_loop fuel (mkCrawl [] start_urls).

(** Reachability in the link graph through pages whose fetch succeeds. *)
Inductive reachable (seeds : list str) : str -> Prop :=
| reach_seed : forall s h,
    In s seeds -> fetch_html s = Some h -> reachable seeds s
| reach_link : forall u h v h',
    reachable seeds u -> fetch_html u = Some h -> In v (links_of h) ->
    fetch_html v = Some h' -> reachable seeds v.

(** ** The invariant of the loop *)

Record crawl_inv (seeds : list str) (st : crawl_state) : Prop := {
  inv_nodup : NoDup (seen st);
  inv_seen : forall u, In u (seen st) -> reachable seeds u;
  inv_queue : forall u h,
      In u (q st) -> fetch_html u = Some h -> reachable seeds u;
  inv_seeds : forall s h,
      In s seeds -> fetch_html s = Some h -> In s (seen st) \/ In s (q st);
  inv_links : forall u h v h',
      In u (seen st) -> fetch_html u = Some h -> In v (links_of h) ->
      fetch_html v = Some h' -> In v (seen st) \/ In v (q st) }.

(** ** The termination measure

    [out_links u] bounds what visiting [u] appends; [weight nodes sn] sums it
    over the nodes not yet seen. *)
Definition out_links (u : str) : nat :=
  match fetch_html u with
  | Some h => length (links_of h)
  | None => 0
  end.

Fixpoint weight (nodes sn : list str) : nat :=
  match nodes with
  | [] => 0
  | n :: t => (if mem n sn then 0 else out_links n) + weight t sn
  end.

Definition crawl_measure (nodes : list str) (st : crawl_state) : nat :=
  length (q st) + weight nodes (seen st).

End Crawler.

(** A link graph as a test double: the pages that can be fetched, each with
    the links extracted from it.  A URL without an entry fails to fetch. *)
Definition link_graph := list (str * list str).

Fixpoint graph_fetch (g : link_graph) (u : str) : option (list str) :=
  match g with
  | [] => None
  | (k, ls) :: t => if str_eq_dec u k then Some ls else graph_fetch t u
  end.

Definition graph_links (page : list str) : list str := page.

Definition crawl_graph (g : link_graph) (fuel : nat) (seeds : list str)
  : option (list str) :=
  crawl_all (graph_fetch g) graph_links fuel seeds.

Definition crawl_fuel (g : link_graph) (seeds : list str) : nat :=
  S (length seeds + weight (graph_fetch g) graph_links (map fst g) []).

(** A frontier without repetitions and without visited URLs. *)
Definition frontier_clean (st : crawl_state) : Prop :=
  NoDup (q st) /\ forall u, In u (q st) -> ~ In u (seen st).

(** A two-page site whose first page links twice to the second. *)
Definition page_a : str := lit "https://engsoftmoderna.info/a.html".
Definition page_b : str := lit "https://engsoftmoderna.info/b.html".
Definition page_c : str := lit "https://engsoftmoderna.info/c.html".
Definition twice_linked : link_graph := [(page_a, [page_b; page_b]); (page_b, [])].

(* ------------------------------------------------------------------ *)
(** * The merger *)

Section Merger.

Variable Page : Type.

(** What iterating [r.pages] and [writer.add_page] do with one page. *)
Inductive page_read :=
| PageOk (pg : Page)
| PageErr.

(** What [PdfReader(f)] does with one path. *)
Inductive reader :=
| OpenErr
| Opened (pages : list page_read).

(** The file system: [os.listdir(OUT_DIR)] and the reader of each path. *)
Variable listdir : list str.
Variable PdfReader : str -> reader.

Record merge_state := mkMerge { writer : list Page; added : nat }.

(** The inner [for pg in r.pages] loop; the flag tells that an exception
    left it.  The pages added before stay in the writer. *)
Fixpoint add_pages (pages : list page_read) (st : merge_state)
  : merge_state * bool :=
  match pages with
  | [] => (st, false)
  | PageOk pg :: t => add_pages t (mkMerge (writer st ++ [pg]) (S (added st)))
  | PageErr :: _ => (st, true)
  end.

(** The [try] statement for one part: both handlers continue the loop. *)
Definition merge_part (st : merge_state) (f : str) : merge_state :=
  match PdfReader f with
  | OpenErr => st
  | Opened pages => fst (add_pages pages st)
  end.

Definition is_pdf_name (f : str) : bool := endswith (lit ".pdf") (lower f).

Definition parts : list str :=
  sorted (map (path_join OUT_DIR) (filter is_pdf_name listdir)).

Record merge_result := mkMerged {
  final_pages : list Page;   (* what [writer.write] puts in the final file *)
  pages_merged : nat;
  files_seen : nat }.

Definition merge_pdfs : merge_result :=
  let st := fold_left merge_part parts (mkMerge [] 0) in
  mkMerged (writer st) (added st) (length parts).

(** The pages a reader delivers before its first failure. *)
Fixpoint good_prefix (pages : list page_read) : list Page :=
  match pages with
  | PageOk pg :: t => pg :: good_prefix t
  | _ => []
  end.

Definition pages_read (r : reader) : list Page :=
  match r with
  | OpenErr => []
  | Opened pages => good_prefix pages
  end.

(** A file is read whole when it opens and no page of it fails. *)
Definition reads_whole (r : reader) : bool :=
  match r with
  | OpenErr => false
  | Opened pages =>
      forallb (fun pr => match pr with PageOk _ => true | PageErr => false end)
              pages
  end.

(** What the specification lets a part contribute: everything when the
    file reads whole, nothing otherwise. *)
Definition all_or_nothing (r : reader) : list Page :=
  if reads_whole r then pages_read r else [].

(** All the pages of a file, failing or not. *)
Definition all_pages (r : reader) : list Page :=
  match r with
  | OpenErr => []
  | Opened pages =>
      flat_map (fun pr => match pr with PageOk pg => [pg] | PageErr => [] end)
               pages
  end.

(** The page count of a file, [len(r.pages)]: a page that fails when it is
    read or added counts as well. *)
Definition page_count (r : reader) : nat :=
  match r with
  | OpenErr => 0
  | Opened pages => length pages
  end.

(** A file opens when [PdfReader] returns. *)
Definition opens (r : reader) : bool :=
  match r with
  | OpenErr => false
  | Opened _ => true
  end.

(** The page count the specification states for the final document: the
    sum of the page counts of the parseable files of the directory whose
    name ends in [.pdf], for a reading [parseable] of which files are
    parseable. *)
Definition spec_page_count (parseable : reader -> bool) : nat :=
  list_sum
    (map (fun f => page_count (PdfReader (path_join OUT_DIR f)))
         (filter (fun f => is_pdf_name f
                           && parseable (PdfReader (path_join OUT_DIR f)))
                 listdir)).

End Merger.

Arguments OpenErr {Page}.
Arguments PageErr {Page}.

(** A directory of three rendered pages, listed out of order, with 2, 3 and
    1 pages; pages are numbered. *)
Definition three_files : list str :=
  map lit ["0002 - cap1.pdf"; "0003 - cap2.pdf"; "0001 - cap0.pdf"]%string.

Definition read_three (f : str) : reader nat :=
  if str_eqb f (lit "esm_pdf_pages/0001 - cap0.pdf")
  then Opened [PageOk 11; PageOk 12]
  else if str_eqb f (lit "esm_pdf_pages/0002 - cap1.pdf")
  then Opened [PageOk 21; PageOk 22; PageOk 23]
  else if str_eqb f (lit "esm_pdf_pages/0003 - cap2.pdf")
  then Opened [PageOk 31]
  else OpenErr.

(** The same directory when the middle file cannot be opened. *)
Definition read_three_bad_middle (f : str) : reader nat :=
  if str_eqb f (lit "esm_pdf_pages/0002 - cap1.pdf") then OpenErr
  else read_three f.

(** The same directory when the middle file fails at its third page. *)
Definition read_three_torn_middle (f : str) : reader nat :=
  if str_eqb f (lit "esm_pdf_pages/0002 - cap1.pdf")
  then Opened [PageOk 21; PageOk 22; PageErr]
  else read_three f.

(** A directory holding one file of an earlier run, under an upper-case
    extension, next to the file of this run, and a file that is no PDF. *)
Definition with_leftover : list str :=
  map lit ["0001 - cap0.pdf"; "0007 - OLD.PDF"; "notes.txt"]%string.

Definition read_leftover (f : str) : reader nat :=
  if str_eqb f (lit "esm_pdf_pages/0007 - OLD.PDF")
  then Opened [PageOk 71; PageOk 72]
  else read_three f.

(* ------------------------------------------------------------------ *)
(** * The browser executable *)

Definition candidates : list str :=
  map lit ["C:\Program Files\Google\Chrome\Application\chrome.exe";
           "C:\Program Files (x86)\Google\Chrome\Application\chrome.exe";
           "C:\Program Files\Microsoft\Edge\Application\msedge.exe";
           "C:\Program Files (x86)\Microsoft\Edge\Application\msedge.exe"
          ]%string.

Definition browser_names : list str :=
  map lit ["chrome.exe"; "msedge.exe"; "google-chrome"; "chromium"]%string.

Section Browser.

(** The file system and the search path: [pathlib.Path(p).exists()] and
    [shutil.which(name)]. *)
Variable path_exists : str -> bool.
Variable which : str -> option str.

(** [for p in candidates: if pathlib.Path(p).exists(): return p] *)
Fixpoint first_existing (ps : list str) : option str :=
  match ps with
  | [] => None
  | p :: t => if path_exists p then Some p else first_existing t
  end.

(** [for name in (...): path = shutil.which(name); if path: return path] *)
Fixpoint first_on_path (names : list str) : option str :=
  match names with
  | [] => None
  | name :: t =>
      match which name with
      | Some path => if nonempty path then Some path else first_on_path t
      | None => first_on_path t
      end
  end.

Definition find_browser_executable : option str :=
  match first_existing candidates with
  | Some p => Some p
  | None => first_on_path browser_names
  end.

End Browser.

(* ------------------------------------------------------------------ *)
(** * The crawl over the pages of the site

    [crawl_all] with [extract_links] in the place of the links collaborator:
    the call of [extract_links] sits outside the [try], so an exception of
    the normalizer leaves the crawl. *)

Inductive crawl_outcome :=
| Crawled (urls : list str)
| CrawlRaised
| CrawlOutOfFuel.

Section Pages.

Variable bracketed_netloc_ok nfkc_netloc_ok : str -> bool.

(** [fetch_html] ([None] when it raises) and what the HTML parser yields
    for a page: [a.get("href")] for each anchor of [soup.find_all("a")],
    in document order. *)
Variable Html : Type.
Variable fetch_html : str -> option Html.
Variable anchors : Html -> list (option str).

Definition page_links (html : Html) : option (list str) :=
  extract_links bracketed_netloc_ok nfkc_netloc_ok (anchors html).

Fixpoint pages_loop (fuel : nat) (st : crawl_state) : crawl_outcome :=
  match fuel with
  | 0 => CrawlOutOfFuel
  | S fuel' =>
      match q st with
      | [] => Crawled (seen st)
      | url :: q' =>
          if mem url (seen st) then pages_loop fuel' (mkCrawl (seen st) q')
          else
            match fetch_html url with
            | None => pages_loop fuel' (mkCrawl (seen st) q')
            | Some html =>
                let seen' := seen st ++ [url] in
                match page_links html with
                | None => CrawlRaised
                | Some links =>
                    pages_loop fuel' (mkCrawl seen' (enqueue seen' q' links))
                end
            end
      end
  end.

Definition crawl_pages (fuel : nat) (start_urls : list str) : crawl_outcome :=
  pages_loop fuel (mkCrawl [] start_urls).

(** The links collaborator of [crawl_all] that the pages give when no
    extraction raises. *)
Definition links_of_page (html : Html) : list str :=
  match page_links html with
  | Some links => links
  | None => []
  end.

(** A URL the crawl can come to hold: a start URL or a non-empty result of
    the normalizer. *)
Definition seed_or_link (start_urls : list str) (u : str) : Prop :=
  In u start_urls \/
  exists href,
    normalize bracketed_netloc_ok nfkc_netloc_ok href = Some u /\ u <> [].

(** A URL the crawl has visited: its fetch succeeded and the links of its
    page were extracted. *)
Definition visited (u : str) : Prop :=
  exists html links, fetch_html u = Some html /\ page_links html = Some links.

(** Whether visiting [url] raises: it is new, its fetch succeeds and the
    extraction of its links raises. *)
Definition visit_raises (sn : list str) (url : str) : bool :=
  negb (mem url sn) &&
  match fetch_html url with
  | Some html =>
      match page_links html with
      | Some _ => false
      | None => true
      end
  | None => false
  end.

(** [seeds] of [main]. *)
Definition seeds : option (list str) :=
  mapM (urljoin bracketed_netloc_ok nfkc_netloc_ok BASE)
       (CHAPTERS_IN_ORDER ++ EXTRA_ROOTS).

(** Whether [url_path] returns on a URL. *)
Definition parsesb (u : str) : bool :=
  match url_path bracketed_netloc_ok nfkc_netloc_ok u with
  | Some _ => true
  | None => false
  end.

(** The URLs of a batch before the first one on which [url_path] raises. *)
Fixpoint navigated (urls : list str) : list str :=
  match urls with
  | [] => []
  | u :: t => if parsesb u then u :: navigated t else []
  end.

End Pages.

(** The value of [seeds]: the origin followed by each root path. *)
Definition seed_urls : list str :=
  map (app BASE) (CHAPTERS_IN_ORDER ++ EXTRA_ROOTS).

Section Head.

Variable bracketed_netloc_ok nfkc_netloc_ok : str -> bool.

(** Whether the dictionary of [order_urls] holds [u] for a chapter path or
    an extra root, that is, whether [u] is emitted in the head. *)
Definition in_head (l : list str) (u : str) : bool :=
  existsb (fun p =>
             match last_with_path bracketed_netloc_ok nfkc_netloc_ok l p with
             | Some v => str_eqb v u
             | None => false
             end)
          (CHAPTERS_IN_ORDER ++ EXTRA_ROOTS).

End Head.

(** A character of a host that [urlsplit] neither strips nor takes for the
    end of the host. *)
Definition plain_host_char (c : char) : bool :=
  negb (is_delim c) && negb (c0_or_space c).

(** The argument [extract_links] hands to the normalizer for an anchor. *)
Definition href_of (a : option str) : str :=
  match a with
  | Some h => h
  | None => []
  end.

(* ------------------------------------------------------------------ *)
(** * The names of the rendered files *)

(** The name, inside [OUT_DIR], of the file [page_fname] designates. *)
Definition page_name (idx : nat) (p : str) : str :=
  fmt_04d idx ++ lit " - " ++ safe_name p ++ lit ".pdf".

(** The directory entry under which a file written at a path appears. *)
Definition basename (f : str) : str :=
  match rcut_at "/" f with
  | Some (_, name) => name
  | None => f
  end.

(** The number a string of decimal digits denotes. *)
Definition digit_value (c : char) : nat := N.to_nat (code c) - 48.

Definition value (s : str) : nat :=
  fold_left (fun acc c => 10 * acc + digit_value c) s 0.

Definition digit_char (k : nat) : char := Low (ascii_of_nat (48 + k)).

(** The four digits of a number below ten thousand. *)
Definition four_digits (n : nat) : str :=
  [digit_char (n / 1000); digit_char (n / 100 mod 10);
   digit_char (n / 10 mod 10); digit_char (n mod 10)].

Definition digit_of (k : nat) (d : Decimal.uint) : Decimal.uint :=
  match k with
  | 0 => Decimal.D0 d | 1 => Decimal.D1 d | 2 => Decimal.D2 d
  | 3 => Decimal.D3 d | 4 => Decimal.D4 d | 5 => Decimal.D5 d
  | 6 => Decimal.D6 d | 7 => Decimal.D7 d | 8 => Decimal.D8 d
  | _ => Decimal.D9 d
  end.

(* ------------------------------------------------------------------ *)
(** * The whole run *)

Inductive main_outcome (Page : Type) :=
| MainRaised
| MainOutOfFuel
| MainDone (ordered : list str) (r : render_result) (m : merge_result Page).

Arguments MainRaised {Page}.
Arguments MainOutOfFuel {Page}.

(** [os.listdir(OUT_DIR)] after the render: what the directory held before
    and the files the render wrote, a file written under a name already
    there replacing it. *)
Definition listdir_after (before written : list str) : list str :=
  before ++ filter (fun f => negb (mem f before)) (map basename written).

(** Which of the calls that the renderer and the merger make outside a
    [try] statement return, each being made at most once in a run: a call
    that does not return raises, and the exception leaves the function. *)
Record calls := mkCalls {
  ok_makedirs : bool;   (* os.makedirs(OUT_DIR, exist_ok=True) *)
  ok_find : bool;       (* find_browser_executable() *)
  ok_launch : bool;     (* launch(...) *)
  ok_newpage : bool;    (* browser.newPage() *)
  ok_timeout : bool;    (* page.setDefaultNavigationTimeout(120_000) *)
  ok_close : bool;      (* browser.close() *)
  ok_listdir : bool;    (* os.listdir(OUT_DIR) *)
  ok_open : bool;       (* open(FINAL_PDF, "wb") *)
  ok_write : bool }.    (* writer.write(fp) *)

(** The browser is started and the page is ready for the batch. *)
Definition started (w : calls) : bool :=
  ok_makedirs w && ok_find w && ok_launch w && ok_newpage w && ok_timeout w.

(** Every call of the run returns. *)
Definition all_return (w : calls) : bool :=
  started w && ok_close w && ok_listdir w && ok_open w && ok_write w.

Definition every_call_returns : calls :=
  mkCalls true true true true true true true true true.

Section RendererCalls.

Variable bracketed_netloc_ok nfkc_netloc_ok : str -> bool.
Variable w : calls.
Variable exe : option str.
Variable goto_ok pdf_ok : nat -> str -> bool.

(** [print_to_pdf] with each of its calls able to raise.  The trace holds
    the calls made, the one that raised being the last; the loop is
    [render_loop], whose [try] statement catches what [page.goto] and
    [page.pdf] raise. *)
Definition print_to_pdf_io (urls : list str) : render_result :=
  let t := [EvMakedirs OUT_DIR] in
  if negb (ok_makedirs w && ok_find w) then mkRender t [] true
  else
    let t := t ++ [EvLaunch exe] in
    if negb (ok_launch w) then mkRender t [] true
    else
      let t := t ++ [EvNewPage] in
      if negb (ok_newpage w) then mkRender t [] true
      else
        let t := t ++ [EvSetTimeout 120000%N] in
        if negb (ok_timeout w) then mkRender t [] true
        else
          let r := render_loop bracketed_netloc_ok nfkc_netloc_ok
                     goto_ok pdf_ok 1 urls (mkRender t [] false) in
          if raised r then r
          else mkRender (trace r ++ [EvClose]) (artifacts r)
                        (negb (ok_close w)).

End RendererCalls.

Section MergerCalls.

Variable Page : Type.
Variable w : calls.
Variable listdir : list str.
Variable PdfReader : str -> reader Page.

(** [merge_pdfs] with each of its calls able to raise: [None] stands for
    the exception that leaves it, before the directory is read or when the
    final file cannot be opened or written. *)
Definition merge_pdfs_io : option (merge_result Page) :=
  if negb (ok_listdir w) then None
  else
    let m := merge_pdfs listdir PdfReader in
    if ok_open w && ok_write w then Some m else None.

End MergerCalls.

Section Main.

Variable bracketed_netloc_ok nfkc_netloc_ok : str -> bool.
Variable Html : Type.
Variable fetch_html : str -> option Html.
Variable anchors : Html -> list (option str).
Variable path_exists : str -> bool.
Variable which : str -> option str.
Variable w : calls.
Variable goto_ok pdf_ok : nat -> str -> bool.
Variable Page : Type.
(** The output directory before the run, and the reader of the files as
    they are after the render. *)
Variable dir_before : list str.
Variable PdfReader : str -> reader Page.

Definition main (fuel : nat) : main_outcome Page :=
  match seeds bracketed_netloc_ok nfkc_netloc_ok with
  | None => MainRaised
  | Some start_urls =>
      match crawl_pages bracketed_netloc_ok nfkc_netloc_ok fetch_html anchors
                        fuel start_urls with
      | CrawlRaised => MainRaised
      | CrawlOutOfFuel => MainOutOfFuel
      | Crawled all_urls =>
          match order_urls bracketed_netloc_ok nfkc_netloc_ok all_urls with
          | None => MainRaised
          | Some ordered =>
              let r := print_to_pdf_io bracketed_netloc_ok nfkc_netloc_ok w
                         (find_browser_executable path_exists which)
                         goto_ok pdf_ok ordered in
              if raised r then MainRaised
              else
                match merge_pdfs_io w (listdir_after dir_before (artifacts r))
                                    PdfReader with
                | None => MainRaised
                | Some m => MainDone ordered r m
                end
          end
      end
  end.

End Main.

(** A site of two pages for the runs below: the home page links to the
    first chapter, to an article, to a picture and to another site. *)
Definition home_anchors : list (option str) :=
  [Some (lit "cap1.html"); None; Some (lit "/artigos/a.html#top");
   Some (lit "figs/logo.PNG"); Some (lit "https://example.com/")].

Definition small_site (u : str) : option (list (option str)) :=
  if str_eqb u home_slash then Some home_anchors
  else if str_eqb u cap1 then Some [Some (lit "/")]
  else if str_eqb u artigo_a then Some []
  else None.

(** A site whose home page links to a page of the host spelt with a
    dotless i. *)
Definition dotless_site (u : str) : option (list (option str)) :=
  if str_eqb u home_slash then Some [Some dotless_link]
  else if str_eqb u dotless_link then Some []
  else None.

(** The same site when the home page holds a link whose host opens a
    bracket. *)
Definition broken_site (u : str) : option (list (option str)) :=
  if str_eqb u home_slash then Some (home_anchors ++ [Some (lit "//[v6")])
  else small_site u.

(* ------------------------------------------------------------------ *)
(** * Facts about the Python primitives *)

Lemma ceqb_eq (x y : char) : ceqb x y = true <-> x = y.
Proof.
  destruct x as [a|m], y as [b|n]; simpl;
    try (split; [discriminate|intros [=]]).
  - rewrite Ascii.eqb_eq. split; [now intros ->|now intros [=]].
  - rewrite N.eqb_eq. split; [now intros ->|now intros [=]].
Qed.

Lemma ceqb_refl (x : char) : ceqb x x = true.
Proof. now apply ceqb_eq. Qed.

Lemma ceqb_spec (x y : char) : reflect (x = y) (ceqb x y).
Proof. apply iff_reflect. symmetry. apply ceqb_eq. Qed.

Lemma code_low (a : Ascii.ascii) : (N_of_ascii a < 256)%N.
Proof. destruct a as [[] [] [] [] [] [] [] []]; reflexivity. Qed.

Lemma mem_true_iff (x : str) (l : list str) : mem x l = true <-> In x l.
Proof. unfold mem. destruct (in_dec str_eq_dec x l); intuition congruence. Qed.

Lemma mem_false_iff (x : str) (l : list str) : mem x l = false <-> ~ In x l.
Proof. unfold mem. destruct (in_dec str_eq_dec x l); intuition congruence. Qed.

Lemma str_eqb_true_iff (a b : str) : str_eqb a b = true <-> a = b.
Proof. unfold str_eqb. destruct (str_eq_dec a b); intuition congruence. Qed.

(** ** [sorted] *)

Lemma code_inj (x y : char) : code x = code y -> x = y.
Proof.
  destruct x as [a|m], y as [b|n]; cbn [code]; intros H.
  - rewrite <- (ascii_N_embedding a), <- (ascii_N_embedding b). now rewrite H.
  - pose proof (code_low a). lia.
  - pose proof (code_low b). lia.
  - f_equal. lia.
Qed.

Lemma str_leb_refl (a : str) : str_leb a a = true.
Proof.
  induction a as [|x a IH]; simpl; trivial.
  now rewrite N.ltb_irrefl.
Qed.

Lemma str_leb_total (a b : str) : str_leb a b = false -> str_leb b a = true.
Proof.
  revert b. induction a as [|x a IH]; intros [|y b]; simpl; trivial;
    try discriminate.
  destruct (N.ltb_spec (code x) (code y)); [discriminate|].
  destruct (N.ltb_spec (code y) (code x)); trivial. apply IH.
Qed.

Lemma str_leb_antisym (a b : str) :
  str_leb a b = true -> str_leb b a = true -> a = b.
Proof.
  revert b. induction a as [|x a IH]; intros [|y b]; simpl; trivial;
    try discriminate.
  destruct (N.ltb_spec (code x) (code y)) as [Hxy|Hxy];
    destruct (N.ltb_spec (code y) (code x)) as [Hyx|Hyx];
    try discriminate; try lia.
  intros H1 H2. f_equal.
  - apply code_inj. lia.
  - now apply IH.
Qed.

Lemma str_leb_trans (a b c : str) :
  str_leb a b = true -> str_leb b c = true -> str_leb a c = true.
Proof.
  revert b c. induction a as [|x a IH]; intros [|y b] [|z c]; simpl; trivial;
    try discriminate.
  destruct (N.ltb_spec (code x) (code y)) as [Hxy|Hxy];
    destruct (N.ltb_spec (code y) (code z)) as [Hyz|Hyz];
    destruct (N.ltb_spec (code x) (code z)) as [Hxz|Hxz];
    trivial; try lia;
    destruct (N.ltb_spec (code y) (code x));
    destruct (N.ltb_spec (code z) (code y));
    destruct (N.ltb_spec (code z) (code x));
    try discriminate; try lia.
  apply IH.
Qed.

Lemma insert_sorted_perm (x : str) (l : list str) :
  Permutation (insert_sorted x l) (x :: l).
Proof.
  induction l as [|y l IH]; simpl; [reflexivity|].
  destruct (str_leb x y); [reflexivity|].
  rewrite IH. apply perm_swap.
Qed.

Lemma sorted_perm (l : list str) : Permutation (sorted l) l.
Proof.
  induction l as [|x l IH]; simpl; [reflexivity|].
  rewrite insert_sorted_perm. now constructor.
Qed.

Lemma sorted_in (l : list str) (u : str) : In u (sorted l) <-> In u l.
Proof.
  split; apply Permutation_in;
    [apply sorted_perm | apply Permutation_sym, sorted_perm].
Qed.

Lemma insert_sorted_strongly (x : str) (l : list str) :
  StronglySorted str_le l -> StronglySorted str_le (insert_sorted x l).
Proof.
  induction 1 as [|y l Hs IH Hall]; simpl.
  - repeat constructor.
  - destruct (str_leb x y) eqn:E.
    + constructor; [now constructor|]. constructor; [exact E|].
      eapply Forall_impl; [|exact Hall].
      intros z Hz. now apply str_leb_trans with y.
    + constructor; [exact IH|].
      eapply Permutation_Forall.
      * symmetry. apply insert_sorted_perm.
      * constructor; [now apply str_leb_total | exact Hall].
Qed.

Lemma sorted_strongly (l : list str) : StronglySorted str_le (sorted l).
Proof.
  induction l as [|x l IH]; simpl; [constructor|].
  now apply insert_sorted_strongly.
Qed.

Lemma strongly_sorted_unique (l1 l2 : list str) :
  StronglySorted str_le l1 -> StronglySorted str_le l2 ->
  Permutation l1 l2 -> l1 = l2.
Proof.
  intros H1. revert l2. induction H1 as [|a l1 Hs1 IH Ha]; intros l2 H2 Hp.
  - apply Permutation_nil in Hp. now subst.
  - destruct H2 as [|b l2 Hs2 Hb].
    + symmetry in Hp. apply Permutation_nil in Hp. discriminate.
    + assert (a = b) as ->.
      { assert (Hin1 : In a (b :: l2))
          by (apply (Permutation_in _ Hp); now left).
        assert (Hin2 : In b (a :: l1))
          by (apply (Permutation_in _ (Permutation_sym Hp)); now left).
        destruct Hin1 as [?|Hin1]; [congruence|].
        destruct Hin2 as [?|Hin2]; [congruence|].
        rewrite Forall_forall in Ha, Hb.
        apply str_leb_antisym; [now apply Ha | now apply Hb]. }
      f_equal. apply IH; trivial. now apply Permutation_cons_inv with b.
Qed.

(** The sorted list depends on the elements only, not on their order. *)
Lemma sorted_unique (l1 l2 : list str) :
  Permutation l1 l2 -> sorted l1 = sorted l2.
Proof.
  intros Hp. apply strongly_sorted_unique; try apply sorted_strongly.
  rewrite !sorted_perm. exact Hp.
Qed.

(** A common prefix does not change the order. *)
Lemma str_leb_prefix (pre a b : str) :
  str_leb (pre ++ a) (pre ++ b) = str_leb a b.
Proof.
  induction pre as [|x pre IH]; simpl; trivial. now rewrite N.ltb_irrefl.
Qed.

Lemma insert_sorted_prefix (pre x : str) (l : list str) :
  insert_sorted (pre ++ x) (map (app pre) l)
  = map (app pre) (insert_sorted x l).
Proof.
  induction l as [|y l IH]; simpl; trivial.
  rewrite str_leb_prefix. destruct (str_leb x y); simpl; trivial.
  now rewrite IH.
Qed.

Lemma sorted_prefix (pre : str) (l : list str) :
  sorted (map (app pre) l) = map (app pre) (sorted l).
Proof.
  induction l as [|x l IH]; simpl; trivial.
  now rewrite IH, insert_sorted_prefix.
Qed.

Lemma path_join_relative (f : str) :
  ~ In "/"%char f -> path_join OUT_DIR f = (OUT_DIR ++ ["/"%char]) ++ f.
Proof.
  intros H. unfold path_join.
  assert (E : startswith (lit "/") f = false).
  { destruct f as [|c f]; trivial.
    change (lit "/") with ["/"%char]. cbn [startswith].
    destruct (ceqb_spec "/"%char c) as [<-|]; trivial.
    exfalso. apply H. now left. }
  rewrite E. now rewrite <- app_assoc.
Qed.

(* ------------------------------------------------------------------ *)
(** * The merger *)

Section MergerFacts.

Variable Page : Type.
Variable listdir : list str.
Variable PdfReader : str -> reader Page.

Lemma add_pages_spec (pages : list (page_read Page)) (st : merge_state Page) :
  fst (add_pages pages st) =
    mkMerge (writer st ++ good_prefix pages)
            (added st + length (good_prefix pages)).
Proof.
  revert st. induction pages as [|[pg|] t IH]; intros [w n]; simpl.
  - now rewrite app_nil_r, Nat.add_0_r.
  - rewrite IH. simpl. rewrite <- app_assoc. simpl. f_equal. lia.
  - now rewrite app_nil_r, Nat.add_0_r.
Qed.

Lemma merge_part_spec (st : merge_state Page) (f : str) :
  merge_part PdfReader st f =
    mkMerge (writer st ++ pages_read (PdfReader f))
            (added st + length (pages_read (PdfReader f))).
Proof.
  unfold merge_part, pages_read. destruct (PdfReader f) as [|pages].
  - destruct st. simpl. now rewrite app_nil_r, Nat.add_0_r.
  - apply add_pages_spec.
Qed.

Lemma merge_fold_spec (fs : list str) (st : merge_state Page) :
  fold_left (merge_part PdfReader) fs st =
    mkMerge (writer st ++ flat_map (fun f => pages_read (PdfReader f)) fs)
            (added st
             + length (flat_map (fun f => pages_read (PdfReader f)) fs)).
Proof.
  revert st. induction fs as [|f fs IH]; intros st; simpl.
  - destruct st. simpl. now rewrite app_nil_r, Nat.add_0_r.
  - rewrite IH, merge_part_spec. simpl. rewrite <- app_assoc, length_app.
    f_equal. lia.
Qed.

Lemma good_prefix_whole (r : reader Page) :
  reads_whole r = true -> pages_read r = all_pages r.
Proof.
  destruct r as [|pages]; simpl; [discriminate|].
  induction pages as [|[pg|] t IH]; simpl; trivial; [|discriminate].
  intros H. now rewrite IH.
Qed.

Lemma flat_map_length_sum (A B : Type) (f : A -> list B) (l : list A) :
  length (flat_map f l) = list_sum (map (fun a => length (f a)) l).
Proof.
  induction l as [|a l IH]; simpl; trivial. now rewrite length_app, IH.
Qed.

Lemma list_sum_perm (l1 l2 : list nat) :
  Permutation l1 l2 -> list_sum l1 = list_sum l2.
Proof. induction 1; simpl; lia. Qed.

Lemma parts_perm :
  Permutation (parts listdir)
    (map (path_join OUT_DIR) (filter is_pdf_name listdir)).
Proof. unfold parts. apply sorted_perm. Qed.

(** Sorting the paths is sorting the file names. *)
Lemma parts_by_name :
  (forall f, In f listdir -> ~ In "/"%char f) ->
  parts listdir
  = map (path_join OUT_DIR) (sorted (filter is_pdf_name listdir)).
Proof.
  intros Hn. unfold parts.
  assert (E : forall l, (forall f, In f l -> ~ In "/"%char f) ->
                        map (path_join OUT_DIR) l
                        = map (app (OUT_DIR ++ ["/"%char])) l).
  { intros l Hl. apply map_ext_in. intros f Hf.
    now apply path_join_relative, Hl. }
  rewrite (E (filter is_pdf_name listdir)).
  2: { intros f Hf. apply Hn. apply filter_In in Hf. exact (proj1 Hf). }
  rewrite sorted_prefix.
  rewrite (E (sorted (filter is_pdf_name listdir))); trivial.
  intros f Hf. apply Hn. apply (proj1 (sorted_in _ _)) in Hf.
  apply filter_In in Hf. exact (proj1 Hf).
Qed.

(** C6 (as amended). The parts are the selected paths in sorted order,
    which is the order of the file names, and
    the final document is, in that order, what each part's reader delivers
    before its first failure: nothing for a file that cannot be opened, all
    the pages of a file that reads whole, and the pages that precede the
    failure for a file that fails part-way.  The merge always completes. *)
Theorem merge_pdfs_pages :
  let m := merge_pdfs listdir PdfReader in
  StronglySorted str_le (parts listdir) /\
  Permutation (parts listdir)
    (map (path_join OUT_DIR) (filter is_pdf_name listdir)) /\
  ((forall f, In f listdir -> ~ In "/"%char f) ->
   parts listdir
   = map (path_join OUT_DIR) (sorted (filter is_pdf_name listdir))) /\
  final_pages m =
    flat_map (fun f => pages_read (PdfReader f)) (parts listdir) /\
  pages_merged m = length (final_pages m) /\
  (forall f, PdfReader f = OpenErr -> pages_read (PdfReader f) = []) /\
  (forall f, reads_whole (PdfReader f) = true ->
             pages_read (PdfReader f) = all_pages (PdfReader f)) /\
  (forall f a b, PdfReader f = Opened (map (@PageOk Page) a ++ PageErr :: b) ->
                 pages_read (PdfReader f) = a).
Proof.
  cbv zeta. unfold merge_pdfs. rewrite merge_fold_spec. simpl.
  split; [apply sorted_strongly|]. split; [apply parts_perm|].
  split; [apply parts_by_name|].
  split; [reflexivity|]. split; [reflexivity|].
  split; [|split].
  - intros f ->. reflexivity.
  - intros f. apply good_prefix_whole.
  - intros f a b ->. simpl. induction a as [|x a IH]; simpl; congruence.
Qed.

End MergerFacts.

(* ------------------------------------------------------------------ *)
(** * The crawler: correctness of the traversal *)

Section CrawlerFacts.

Variable Html : Type.
Variable fetch_html : str -> option Html.
Variable links_of : Html -> list str.

Local Abbreviation visit := (crawl_visit fetch_html links_of).
Local Abbreviation step := (crawl_step fetch_html links_of).
Local Abbreviation steps := (crawl_steps fetch_html links_of).
Local Abbreviation loop := (crawl_loop fetch_html links_of).
Local Abbreviation reach := (reachable fetch_html links_of).

Lemma enqueue_filter (sn qu links : list str) :
  enqueue sn qu links = qu ++ filter (fun l => negb (mem l sn)) links.
Proof.
  revert qu. induction links as [|l links IH]; intros qu; simpl.
  - now rewrite app_nil_r.
  - destruct (mem l sn); simpl.
    + apply IH.
    + rewrite IH, <- app_assoc. reflexivity.
Qed.

Lemma visit_seen_hit (url : str) (st : crawl_state) :
  In url (seen st) -> visit url st = st.
Proof.
  intros H. unfold crawl_visit. apply mem_true_iff in H. now rewrite H.
Qed.

Lemma visit_fetch_fail (url : str) (st : crawl_state) :
  fetch_html url = None -> visit url st = st.
Proof.
  intros H. unfold crawl_visit. rewrite H. now destruct (mem url (seen st)).
Qed.

Lemma visit_fetch_ok (url : str) (st : crawl_state) (html : Html) :
  ~ In url (seen st) -> fetch_html url = Some html ->
  visit url st =
    mkCrawl (seen st ++ [url])
      (q st ++ filter (fun l => negb (mem l (seen st ++ [url])))
                      (links_of html)).
Proof.
  intros Hn Hf. unfold crawl_visit. apply mem_false_iff in Hn.
  rewrite Hn, Hf, enqueue_filter. reflexivity.
Qed.

(** The three ways one iteration can go. *)
Lemma visit_cases (url : str) (st : crawl_state) :
  (visit url st = st /\ (In url (seen st) \/ fetch_html url = None)) \/
  (exists html, ~ In url (seen st) /\ fetch_html url = Some html /\
     visit url st =
       mkCrawl (seen st ++ [url])
         (q st ++ filter (fun l => negb (mem l (seen st ++ [url])))
                         (links_of html))).
Proof.
  destruct (in_dec str_eq_dec url (seen st)) as [Hi|Hn].
  - left. split; [now apply visit_seen_hit | now left].
  - destruct (fetch_html url) as [html|] eqn:Hf.
    + right. exists html. repeat split; trivial. now apply visit_fetch_ok.
    + left. split; [now apply visit_fetch_fail | now right].
Qed.

Lemma crawl_inv_init (seeds : list str) : crawl_inv fetch_html links_of seeds (mkCrawl [] seeds).
Proof.
  constructor; simpl; try contradiction.
  - constructor.
  - intros u h Hu Hf. now apply reach_seed with h.
  - intros s h Hs _. now right.
Qed.

Lemma crawl_inv_visit (seeds : list str) (sn qu : list str) (url : str) :
  crawl_inv fetch_html links_of seeds (mkCrawl sn (url :: qu)) ->
  crawl_inv fetch_html links_of seeds (visit url (mkCrawl sn qu)).
Proof.
  intros [Hnd Hsn Hq Hsd Hlk]. simpl in *.
  destruct (visit_cases url (mkCrawl sn qu))
    as [[-> Hc]|(html & Hn & Hf & ->)]; simpl in *.
  - constructor; simpl; trivial.
    + intros u h Hu. apply Hq. now right.
    + intros s h Hs Hfs. destruct (Hsd s h Hs Hfs) as [?|[<-|?]]; auto.
      destruct Hc as [?|Hc]; [auto | congruence].
    + intros u h v h' Hu Hfu Hv Hfv.
      destruct (Hlk u h v h' Hu Hfu Hv Hfv) as [?|[<-|?]]; auto.
      destruct Hc as [?|Hc]; [auto | congruence].
  - assert (Hru : reach seeds url) by (apply Hq with html; auto).
    constructor; simpl.
    + apply NoDup_app; simpl; trivial.
      * constructor; [easy | constructor].
      * intros x Hx [<-|[]]. contradiction.
    + intros u Hu. apply in_app_or in Hu. destruct Hu as [?|[<-|[]]]; auto.
    + intros u h Hu Hfu. apply in_app_or in Hu. destruct Hu as [Hu|Hu].
      * apply Hq with h; auto.
      * apply filter_In in Hu. destruct Hu as [Hu _].
        now apply reach_link with url html h.
    + intros s h Hs Hfs. rewrite !in_app_iff. simpl.
      destruct (Hsd s h Hs Hfs) as [?|[<-|?]]; auto.
    + intros u h v h' Hu Hfu Hv Hfv.
      destruct (in_dec str_eq_dec v (sn ++ [url])) as [Hi|Hni]; [now left|].
      right. apply in_or_app.
      apply in_app_or in Hu. destruct Hu as [Hu|[<-|[]]].
      * destruct (Hlk u h v h' Hu Hfu Hv Hfv) as [Hv'|[<-|Hv']].
        -- exfalso. apply Hni. apply in_or_app. now left.
        -- exfalso. apply Hni. apply in_or_app. right. now left.
        -- now left.
      * right. apply filter_In. split.
        -- assert (h = html) by congruence. now subst.
        -- apply mem_false_iff in Hni. now rewrite Hni.
Qed.

(** ** Termination *)

Lemma mem_app_r_true (n u : str) (sn : list str) :
  mem n sn = true -> mem n (sn ++ [u]) = true.
Proof.
  rewrite !mem_true_iff. intros H. apply in_or_app. now left.
Qed.

Lemma weight_app_le (nodes sn : list str) (u : str) :
  weight fetch_html links_of nodes (sn ++ [u])
  <= weight fetch_html links_of nodes sn.
Proof.
  induction nodes as [|n t IH]; simpl; [lia|].
  destruct (mem n sn) eqn:E.
  - rewrite (mem_app_r_true _ _ _ E). lia.
  - destruct (mem n (sn ++ [u])); lia.
Qed.

Lemma weight_drop (nodes sn : list str) (u : str) :
  In u nodes -> ~ In u sn ->
  weight fetch_html links_of nodes (sn ++ [u]) + out_links fetch_html links_of u
  <= weight fetch_html links_of nodes sn.
Proof.
  intros Hi Hn. induction nodes as [|n t IH]; simpl; [contradiction|].
  destruct (str_eq_dec n u) as [->|Hne].
  - assert (E1 : mem u (sn ++ [u]) = true).
    { apply mem_true_iff, in_or_app. right. now left. }
    apply mem_false_iff in Hn. rewrite E1, Hn.
    pose proof (weight_app_le t sn u). lia.
  - destruct Hi as [->|Hi]; [contradiction|]. specialize (IH Hi).
    destruct (mem n sn) eqn:E.
    + rewrite (mem_app_r_true _ _ _ E). lia.
    + destruct (mem n (sn ++ [u])); lia.
Qed.

Lemma visit_measure (nodes sn qu : list str) (url : str) :
  (forall u h, fetch_html u = Some h -> In u nodes) ->
  crawl_measure fetch_html links_of nodes (visit url (mkCrawl sn qu))
  <= length qu + weight fetch_html links_of nodes sn.
Proof.
  intros Hfin. unfold crawl_measure.
  destruct (visit_cases url (mkCrawl sn qu))
    as [[-> _]|(html & Hn & Hf & ->)]; simpl in *; [lia|].
  rewrite length_app.
  pose proof (filter_length_le (fun l => negb (mem l (sn ++ [url])))
                (links_of html)) as Hle.
  pose proof (weight_drop nodes sn url (Hfin _ _ Hf) Hn) as Hw.
  unfold out_links in Hw. rewrite Hf in Hw. lia.
Qed.

Lemma reach_origin (seeds : list str) (u : str) :
  reach seeds u -> exists s h, In s seeds /\ fetch_html s = Some h.
Proof. induction 1; eauto. Qed.

Lemma reach_fetched (seeds : list str) (u : str) :
  reach seeds u -> exists h, fetch_html u = Some h.
Proof. destruct 1; eauto. Qed.

Lemma crawl_inv_closed (seeds : list str) (st : crawl_state) :
  crawl_inv fetch_html links_of seeds st -> q st = [] ->
  forall u, reach seeds u -> In u (seen st).
Proof.
  intros [_ _ _ Hsd Hlk] Hq u Hr. rewrite Hq in *.
  induction Hr as [s h Hs Hf|u h v h' _ IH Hf Hv Hf'].
  - destruct (Hsd s h Hs Hf) as [?|[]]; trivial.
  - destruct (Hlk u h v h' IH Hf Hv Hf') as [?|[]]; trivial.
Qed.

(** With fuel above the measure the loop returns, and what it returns is
    the reachable set. *)
Lemma crawl_loop_correct (nodes seeds : list str) :
  (forall u h, fetch_html u = Some h -> In u nodes) ->
  forall fuel st,
    crawl_inv fetch_html links_of seeds st ->
    crawl_measure fetch_html links_of nodes st < fuel ->
    exists out, loop fuel st = Some out /\ NoDup out /\
                (forall u, In u out <-> reach seeds u).
Proof.
  intros Hfin. induction fuel as [|fuel IH]; intros st Hinv Hm; [lia|].
  simpl. destruct st as [sn qu]. simpl. destruct qu as [|url qu].
  - exists sn. split; [reflexivity|]. split; [apply (inv_nodup Hinv)|].
    intros u. split.
    + apply (inv_seen Hinv).
    + now apply (crawl_inv_closed Hinv).
  - apply IH.
    + now apply crawl_inv_visit.
    + pose proof (visit_measure nodes sn qu url Hfin).
      unfold crawl_measure in Hm. simpl in Hm. lia.
Qed.

Lemma crawl_loop_fuel_mono (fuel fuel' : nat) (st : crawl_state)
      (out : list str) :
  loop fuel st = Some out -> fuel <= fuel' -> loop fuel' st = Some out.
Proof.
  revert fuel' st. induction fuel as [|fuel IH]; intros fuel' st H Hle;
    [discriminate|].
  destruct fuel' as [|fuel']; [lia|]. simpl in *.
  destruct (q st); trivial. apply IH; [trivial | lia].
Qed.

Lemma crawl_steps_inv (seeds : list str) (n : nat) (st : crawl_state) :
  crawl_inv fetch_html links_of seeds st ->
  crawl_inv fetch_html links_of seeds (steps n st).
Proof.
  revert st. induction n as [|n IH]; intros st Hinv; simpl; trivial.
  apply IH. unfold crawl_step. destruct st as [sn [|url qu]]; simpl; trivial.
  now apply crawl_inv_visit.
Qed.

End CrawlerFacts.

Lemma graph_fetch_In (g : link_graph) (u : str) (ls : list str) :
  graph_fetch g u = Some ls -> In u (map fst g).
Proof.
  induction g as [|[k l] t IH]; simpl; [discriminate|].
  destruct (str_eq_dec u k) as [->|]; auto.
Qed.

(** C1. For every seed list and every link graph, the crawl returns (given
    fuel for its loop, and the same list for any larger fuel) the list,
    without repetitions, of exactly the URLs reachable from the seeds
    through pages whose fetch succeeds; a URL whose fetch fails is never in
    it; and when every seed fails to fetch the result is the empty list.
    No case ends in an exception: the result is always [Some]. *)
Theorem crawl_all_reachable_set (g : link_graph) (seeds : list str) :
  exists out,
    (forall fuel, crawl_fuel g seeds <= fuel ->
                  crawl_graph g fuel seeds = Some out) /\
    NoDup out /\
    (forall u, In u out <-> reachable (graph_fetch g) graph_links seeds u) /\
    (forall u, graph_fetch g u = None -> ~ In u out) /\
    ((forall s, In s seeds -> graph_fetch g s = None) -> out = []).
Proof.
  destruct (@crawl_loop_correct _ (graph_fetch g) graph_links (map fst g)
              seeds (graph_fetch_In g) (crawl_fuel g seeds) _
              (crawl_inv_init _ _ seeds))
    as (out & Hrun & Hnd & Hiff).
  { unfold crawl_fuel, crawl_measure. simpl. lia. }
  exists out. split; [|split; [trivial|split; [trivial|split]]].
  - intros fuel Hle. unfold crawl_graph, crawl_all.
    now apply crawl_loop_fuel_mono with (crawl_fuel g seeds).
  - intros u Hf Hin. apply Hiff in Hin.
    destruct (reach_fetched Hin) as [h Hh]. congruence.
  - intros Hall. destruct out as [|u out]; trivial. exfalso.
    assert (Hr : reachable (graph_fetch g) graph_links seeds u)
      by (apply Hiff; now left).
    destruct (reach_origin Hr) as (s & h & Hs & Hh).
    rewrite (Hall s Hs) in Hh. discriminate.
Qed.

(** C9 (as amended). At any point of the crawl, when the loop pops [url]:
    the visited list never holds a URL twice; a [url] already visited is
    dropped without a fetch; and after a successful fetch of a new [url]
    the frontier tail receives, in document order, every extracted link
    that is not visited (the page itself counting as visited), whether or
    not that link is already queued. *)
Theorem frontier_appends_unvisited
    (Html : Type) (fetch_html : str -> option Html)
    (links_of : Html -> list str) (seeds : list str) (n : nat)
    (url : str) (qu : list str) :
  let st := crawl_steps fetch_html links_of n (mkCrawl [] seeds) in
  q st = url :: qu ->
  NoDup (seen (crawl_step fetch_html links_of st)) /\
  (In url (seen st) ->
   crawl_step fetch_html links_of st = mkCrawl (seen st) qu) /\
  (forall html, ~ In url (seen st) -> fetch_html url = Some html ->
   crawl_step fetch_html links_of st =
     mkCrawl (seen st ++ [url])
       (qu ++ filter (fun l => negb (mem l (seen st ++ [url])))
                     (links_of html))).
Proof.
  intros st Hq.
  assert (Hinv : crawl_inv fetch_html links_of seeds
                   (crawl_steps fetch_html links_of (S n) (mkCrawl [] seeds))).
  { apply crawl_steps_inv, crawl_inv_init. }
  split; [|split].
  - replace (crawl_step fetch_html links_of st)
      with (crawl_steps fetch_html links_of (S n) (mkCrawl [] seeds)).
    + apply (inv_nodup Hinv).
    + clear. subst st. generalize (mkCrawl [] seeds).
      induction n as [|n IH]; intros s0; simpl; [reflexivity|].
      apply (IH (crawl_step fetch_html links_of s0)).
  - intros Hin. unfold crawl_step. rewrite Hq.
    now rewrite visit_seen_hit.
  - intros html Hn Hf. unfold crawl_step. rewrite Hq.
    now rewrite (@visit_fetch_ok _ fetch_html links_of url
                   (mkCrawl (seen st) qu) html Hn Hf).
Qed.


(* ------------------------------------------------------------------ *)
(** * The sequencer *)

Lemma distinct_NoDup (l : list str) : distinct l = true -> NoDup l.
Proof.
  induction l as [|x l IH]; simpl; [constructor|].
  intros H. apply andb_prop in H. destruct H as [H1 H2].
  constructor; [|auto].
  apply negb_true_iff, mem_false_iff in H1. exact H1.
Qed.

Lemma Permutation_filter (A : Type) (f : A -> bool) (l1 l2 : list A) :
  Permutation l1 l2 -> Permutation (filter f l1) (filter f l2).
Proof.
  induction 1 as [|x l1 l2 _ IH|x y l|l1 l2 l3 _ IH1 _ IH2]; simpl.
  - constructor.
  - destruct (f x); [now constructor | exact IH].
  - destruct (f x), (f y); try reflexivity. apply perm_swap.
  - now transitivity (filter f l2).
Qed.

(** A duplicate-free list splits into a duplicate-free part of it and what
    remains. *)
Lemma perm_split_mem (l o : list str) :
  NoDup l -> NoDup o -> incl o l ->
  Permutation l (o ++ filter (fun u => negb (mem u o)) l).
Proof.
  intros Hl Ho Hincl. apply NoDup_Permutation; trivial.
  - apply NoDup_app; [trivial | now apply NoDup_filter |].
    intros a Ha Hf. apply filter_In in Hf. destruct Hf as [_ Hf].
    apply negb_true_iff, mem_false_iff in Hf. contradiction.
  - intros x. rewrite in_app_iff, filter_In. split.
    + intros Hx. destruct (in_dec str_eq_dec x o) as [Hi|Hn]; [now left|].
      right. split; trivial. apply negb_true_iff, mem_false_iff. exact Hn.
    + intros [Hx|[Hx _]]; auto.
Qed.

Lemma buckets_in (rest : list str) (u : str) :
  In u (buckets rest) <-> In u rest.
Proof.
  unfold buckets. rewrite !in_app_iff, !sorted_in, !filter_In.
  unfold neither.
  destruct (is_artigo u), (is_faq u); simpl; intuition congruence.
Qed.

Lemma three_way_perm (rest : list str) :
  single_marker rest ->
  Permutation rest
    (filter is_artigo rest ++ filter is_faq rest ++ filter neither rest).
Proof.
  unfold single_marker, neither.
  induction rest as [|u rest IH]; intros Hs; simpl; [constructor|].
  assert (IH' := IH (fun v Hv => Hs v (or_intror Hv))).
  specialize (Hs u (or_introl eq_refl)).
  destruct (is_artigo u), (is_faq u); simpl in *; try discriminate.
  - now constructor.
  - rewrite <- Permutation_middle. now constructor.
  - rewrite app_assoc. rewrite <- Permutation_middle.
    rewrite <- app_assoc. now constructor.
Qed.

Lemma buckets_perm (rest : list str) :
  single_marker rest -> Permutation rest (buckets rest).
Proof.
  intros Hs. unfold buckets. rewrite !sorted_perm. now apply three_way_perm.
Qed.

Lemma buckets_unique (r1 r2 : list str) :
  Permutation r1 r2 -> buckets r1 = buckets r2.
Proof.
  intros Hp. unfold buckets.
  now rewrite (sorted_unique (Permutation_filter is_artigo Hp)),
              (sorted_unique (Permutation_filter is_faq Hp)),
              (sorted_unique (Permutation_filter neither Hp)).
Qed.

Lemma dict_get_set (p p0 u : str) (d : dict) :
  dict_get p (dict_set p0 u d) =
    if str_eq_dec p p0 then Some u else dict_get p d.
Proof.
  induction d as [|[k v] d IH]; simpl.
  - destruct (str_eq_dec p p0); reflexivity.
  - destruct (str_eq_dec p0 k) as [->|Hk]; simpl.
    + destruct (str_eq_dec p k); reflexivity.
    + destruct (str_eq_dec p k) as [->|Hpk].
      * destruct (str_eq_dec k p0); [congruence | reflexivity].
      * exact IH.
Qed.

Lemma extras_from_ext (look1 look2 : str -> option str) (ps o : list str) :
  (forall p, look1 p = look2 p) ->
  extras_from look1 ps o = extras_from look2 ps o.
Proof.
  intros He. revert o. induction ps as [|p ps IH]; intros o; simpl; trivial.
  rewrite He. destruct (look2 p); [destruct (mem s o)|]; apply IH.
Qed.

Lemma chapters_of_ext (look1 look2 : str -> option str) (ps : list str) :
  (forall p, look1 p = look2 p) -> chapters_of look1 ps = chapters_of look2 ps.
Proof.
  intros He. unfold chapters_of, found. apply flat_map_ext.
  intros p. now rewrite He.
Qed.

Lemma order_with_ext (look1 look2 : str -> option str) (l : list str) :
  (forall p, look1 p = look2 p) -> order_with look1 l = order_with look2 l.
Proof.
  intros He. unfold order_with.
  rewrite chapters_of_ext with (look2 := look2) by exact He.
  rewrite extras_from_ext with (look2 := look2) by exact He.
  reflexivity.
Qed.

Lemma emit_chapters_look (d : dict) (ps o : list str) :
  emit_chapters d ps o = o ++ chapters_of (fun p => dict_get p d) ps.
Proof.
  revert o. induction ps as [|p ps IH]; intros o; simpl.
  - now rewrite app_nil_r.
  - unfold found. destruct (dict_get p d); rewrite IH; simpl; trivial.
    now rewrite <- app_assoc.
Qed.

Lemma emit_extras_look (d : dict) (ps o : list str) :
  emit_extras d ps o = extras_from (fun p => dict_get p d) ps o.
Proof.
  revert o. induction ps as [|p ps IH]; intros o; simpl; trivial.
  destruct (dict_get p d); [destruct (mem s o)|]; apply IH.
Qed.

Lemma extras_from_in (look : str -> option str) (ps o : list str) (u : str) :
  In u (extras_from look ps o) ->
  In u o \/ exists p, In p ps /\ look p = Some u.
Proof.
  revert o. induction ps as [|p ps IH]; intros o; simpl; [auto|].
  destruct (look p) as [v|] eqn:E; [destruct (mem v o)|]; intros H;
    apply IH in H.
  - destruct H as [?|(p' & ? & ?)]; eauto.
  - destruct H as [H|(p' & ? & ?)]; eauto.
    apply in_app_or in H. destruct H as [?|[<-|[]]]; eauto.
  - destruct H as [?|(p' & ? & ?)]; eauto.
Qed.

Lemma extras_from_incl (look : str -> option str) (ps o : list str) (u : str) :
  In u o -> In u (extras_from look ps o).
Proof.
  revert o. induction ps as [|p ps IH]; intros o Hu; simpl; trivial.
  destruct (look p) as [v|]; [destruct (mem v o)|]; apply IH; trivial.
  apply in_or_app. now left.
Qed.

Lemma extras_from_NoDup (look : str -> option str) (ps o : list str) :
  NoDup o -> NoDup (extras_from look ps o).
Proof.
  revert o. induction ps as [|p ps IH]; intros o Ho; simpl; trivial.
  destruct (look p) as [v|]; [destruct (mem v o) eqn:E|]; apply IH; trivial.
  apply mem_false_iff in E. apply NoDup_app; trivial.
  - constructor; [easy | constructor].
  - intros a Ha [<-|[]]. contradiction.
Qed.

Lemma chapters_of_in (look : str -> option str) (ps : list str) (u : str) :
  In u (chapters_of look ps) <-> exists p, In p ps /\ look p = Some u.
Proof.
  unfold chapters_of. rewrite in_flat_map. unfold found. split.
  - intros (p & Hp & Hu). exists p. split; trivial.
    destruct (look p); [destruct Hu as [<-|[]]; trivial | contradiction].
  - intros (p & Hp & Hu). exists p. split; trivial. rewrite Hu. now left.
Qed.

Lemma NoDup_app_disjoint (A : Type) (a b : list A) (x : A) :
  NoDup (a ++ b) -> In x a -> In x b -> False.
Proof.
  induction a as [|y a IH]; simpl; [contradiction|].
  intros Hnd [->|Ha] Hb; inversion Hnd as [|? ? Hy Hnd']; subst.
  - apply Hy. apply in_or_app. now right.
  - now apply IH.
Qed.

Lemma flat_map_ext_in (A B : Type) (f g : A -> list B) (l : list A) :
  (forall a, In a l -> f a = g a) -> flat_map f l = flat_map g l.
Proof.
  induction l as [|a l IH]; intros H; simpl; trivial.
  rewrite (H a (or_introl eq_refl)), IH; trivial.
  intros b Hb. apply H. now right.
Qed.

Lemma roots_distinct : NoDup (CHAPTERS_IN_ORDER ++ EXTRA_ROOTS).
Proof. apply distinct_NoDup. vm_compute. reflexivity. Qed.

Section SequencerFacts.

Variable bracketed_netloc_ok nfkc_netloc_ok : str -> bool.

Local Abbreviation url_path' := (url_path bracketed_netloc_ok nfkc_netloc_ok).
Local Abbreviation has_path' := (has_path bracketed_netloc_ok nfkc_netloc_ok).
Local Abbreviation look :=
  (last_with_path bracketed_netloc_ok nfkc_netloc_ok).
Local Abbreviation by_path_of' :=
  (by_path_of bracketed_netloc_ok nfkc_netloc_ok).
Local Abbreviation order_urls' :=
  (order_urls bracketed_netloc_ok nfkc_netloc_ok).
Local Abbreviation parses' := (parses bracketed_netloc_ok nfkc_netloc_ok).
Local Abbreviation paths_distinct' :=
  (paths_distinct bracketed_netloc_ok nfkc_netloc_ok).
Local Abbreviation sequencer_spec' :=
  (sequencer_spec bracketed_netloc_ok nfkc_netloc_ok).

Lemma has_path_iff (p u : str) :
  has_path' p u = true <-> url_path' u = Some p.
Proof.
  unfold has_path. destruct (url_path' u) as [p'|].
  - rewrite str_eqb_true_iff. split; congruence.
  - split; discriminate.
Qed.

Lemma look_some (l : list str) (p u : str) :
  look l p = Some u -> In u l /\ url_path' u = Some p.
Proof.
  induction l as [|x l IH]; simpl; [discriminate|].
  destruct (look l p) as [v|].
  - intros H. destruct (IH H). auto.
  - destruct (has_path' p x) eqn:E; [|discriminate].
    intros [= <-]. split; [now left | now apply has_path_iff].
Qed.

Lemma look_none (l : list str) (p : str) :
  look l p = None -> forall u, In u l -> url_path' u <> Some p.
Proof.
  induction l as [|x l IH]; simpl; [contradiction|].
  destruct (look l p) as [v|]; [discriminate|].
  destruct (has_path' p x) eqn:E; [discriminate|].
  intros _ u [<-|Hu].
  - intros H. apply has_path_iff in H. congruence.
  - now apply IH.
Qed.

Lemma look_exists (l : list str) (p u : str) :
  In u l -> url_path' u = Some p -> exists v, look l p = Some v.
Proof.
  intros Hu Hp. destruct (look l p) as [v|] eqn:E; [eauto|].
  exfalso. exact (@look_none l p E u Hu Hp).
Qed.

Lemma by_path_get (l : list str) :
  forall d d', by_path_of' l d = Some d' ->
  forall p, dict_get p d' =
            match look l p with
            | Some v => Some v
            | None => dict_get p d
            end.
Proof.
  induction l as [|u l IH]; intros d d'; simpl.
  - intros [= <-] p. reflexivity.
  - destruct (url_path' u) as [p0|] eqn:E; simpl; [|discriminate].
    intros H p. rewrite (IH _ _ H p).
    destruct (look l p); trivial.
    rewrite dict_get_set. unfold has_path. rewrite E.
    unfold str_eqb.
    destruct (str_eq_dec p p0); destruct (str_eq_dec p0 p); congruence.
Qed.

Lemma by_path_defined (l : list str) :
  Forall parses' l -> forall d, exists d', by_path_of' l d = Some d'.
Proof.
  induction 1 as [|u l Hu _ IH]; intros d; simpl; [eauto|].
  unfold parses in Hu. destruct (url_path' u); [|congruence]. apply IH.
Qed.

Lemma by_path_parses (l : list str) :
  forall d d', by_path_of' l d = Some d' -> Forall parses' l.
Proof.
  induction l as [|u l IH]; intros d d'; simpl; [constructor|].
  destruct (url_path' u) as [p0|] eqn:E; simpl; [|discriminate].
  intros H. constructor; [unfold parses; congruence | eauto].
Qed.

Lemma order_urls_with (l : list str) (d : dict) :
  by_path_of' l [] = Some d ->
  order_urls' l = Some (order_with (look l) l).
Proof.
  intros H. transitivity (Some (order_with (fun p => dict_get p d) l)).
  - unfold order_urls. rewrite H. unfold bind, order_with, buckets.
    now rewrite emit_chapters_look, emit_extras_look.
  - f_equal. apply order_with_ext. intros p.
    rewrite (@by_path_get l [] d H p). now destruct (look l p).
Qed.

Lemma order_urls_none (l : list str) :
  by_path_of' l [] = None -> order_urls' l = None.
Proof. intros H. unfold order_urls. now rewrite H. Qed.

(** ** The head of the output *)

Lemma extras_from_fresh (lk : str -> option str) (ps : list str) :
  (forall p u, lk p = Some u -> url_path' u = Some p) ->
  NoDup ps ->
  forall o,
    (forall u p, In u o -> In p ps -> url_path' u <> Some p) ->
    extras_from lk ps o = o ++ chapters_of lk ps.
Proof.
  intros Hc. induction 1 as [|p ps Hp _ IH]; intros o Hf; simpl.
  - now rewrite app_nil_r.
  - unfold found. destruct (lk p) as [u|] eqn:E.
    + assert (Hm : mem u o = false).
      { apply mem_false_iff. intros Hu.
        exact (Hf u p Hu (or_introl eq_refl) (Hc _ _ E)). }
      rewrite Hm, IH.
      * now rewrite <- app_assoc.
      * intros v q Hv Hq. apply in_app_or in Hv. destruct Hv as [Hv|[<-|[]]].
        -- apply Hf; [trivial | now right].
        -- rewrite (Hc _ _ E). intros [= ->]. contradiction.
    + apply IH. intros v q Hv Hq. apply Hf; [trivial | now right].
Qed.

Lemma ordered_eq (lk : str -> option str) :
  (forall p u, lk p = Some u -> url_path' u = Some p) ->
  extras_from lk EXTRA_ROOTS (chapters_of lk CHAPTERS_IN_ORDER)
  = chapters_of lk CHAPTERS_IN_ORDER ++ chapters_of lk EXTRA_ROOTS.
Proof.
  intros Hc. apply extras_from_fresh; trivial.
  - exact (NoDup_app_remove_l _ _ roots_distinct).
  - intros u p Hu Hp Hup. apply chapters_of_in in Hu.
    destruct Hu as (c & Hcin & Hlc). apply Hc in Hlc.
    assert (c = p) by congruence. subst c.
    exact (@NoDup_app_disjoint _ _ _ p roots_distinct Hcin Hp).
Qed.

Lemma chapters_of_NoDup (lk : str -> option str) (ps : list str) :
  (forall p u, lk p = Some u -> url_path' u = Some p) ->
  NoDup ps -> NoDup (chapters_of lk ps).
Proof.
  intros Hc. induction 1 as [|p ps Hp _ IH]; simpl; [constructor|].
  unfold found. destruct (lk p) as [u|] eqn:E; simpl; trivial.
  constructor; trivial. intros Hu. apply chapters_of_in in Hu.
  destruct Hu as (q & Hq & Hlq). apply Hc in Hlq. apply Hc in E.
  assert (q = p) by congruence. subst q. contradiction.
Qed.

Lemma look_consistent (l : list str) :
  forall p u, look l p = Some u -> url_path' u = Some p.
Proof. intros p u H. now apply look_some in H. Qed.

Lemma ordered_incl (l : list str) (u : str) :
  In u (extras_from (look l) EXTRA_ROOTS
          (chapters_of (look l) CHAPTERS_IN_ORDER)) -> In u l.
Proof.
  intros H. apply extras_from_in in H.
  destruct H as [H|(p & _ & H)].
  - apply chapters_of_in in H. destruct H as (p & _ & H).
    now apply look_some in H.
  - now apply look_some in H.
Qed.

Lemma ordered_NoDup (l : list str) :
  NoDup (extras_from (look l) EXTRA_ROOTS
           (chapters_of (look l) CHAPTERS_IN_ORDER)).
Proof.
  apply extras_from_NoDup, chapters_of_NoDup.
  - apply look_consistent.
  - exact (NoDup_app_remove_r _ _ roots_distinct).
Qed.

Lemma order_with_in (l : list str) (u : str) :
  In u (order_with (look l) l) <-> In u l.
Proof.
  unfold order_with.
  set (ordered := extras_from (look l) EXTRA_ROOTS
                    (chapters_of (look l) CHAPTERS_IN_ORDER)).
  rewrite in_app_iff, buckets_in, filter_In. split.
  - intros [H|[H _]]; trivial. now apply ordered_incl.
  - intros H. destruct (in_dec str_eq_dec u ordered) as [Hi|Hn];
      [now left|].
    right. split; trivial. now apply negb_true_iff, mem_false_iff.
Qed.

(** Whatever the sequencer returns has a path: the renderer can name the
    artifact of each of its URLs. *)
Lemma order_urls_output_parses (l out : list str) :
  order_urls' l = Some out -> Forall parses' out.
Proof.
  intros H. destruct (by_path_of' l []) as [d|] eqn:E.
  - pose proof (@by_path_parses l [] d E) as Hp.
    rewrite (@order_urls_with l d E) in H. injection H as <-.
    apply Forall_forall. intros u Hu.
    apply (proj1 (order_with_in l u)) in Hu.
    rewrite Forall_forall in Hp. now apply Hp.
  - rewrite (@order_urls_none l E) in H. discriminate.
Qed.

(** C2 (as amended). On every list of URLs (that [urlparse] accepts) the
    sequencer returns, and its output holds exactly the URLs of the input:
    none is dropped and none is invented.  When moreover the input has no
    repetition and none of its URLs contains both the articles and the FAQ
    marker, the output is a permutation of the input. *)
Theorem order_urls_keeps_every_url (l : list str) :
  Forall parses' l ->
  exists out,
    order_urls' l = Some out /\
    (forall u, In u out <-> In u l) /\
    (NoDup l -> single_marker l -> Permutation l out).
Proof.
  intros Hp. destruct (@by_path_defined l Hp []) as [d Hd].
  exists (order_with (look l) l).
  split; [now apply order_urls_with with d|].
  split; [intros u; apply order_with_in|].
  unfold order_with.
  set (ordered := extras_from (look l) EXTRA_ROOTS
                    (chapters_of (look l) CHAPTERS_IN_ORDER)).
  intros Hnd Hs.
  transitivity (ordered ++ filter (fun u => negb (mem u ordered)) l).
  - apply perm_split_mem; trivial.
    + apply ordered_NoDup.
    + intros u. apply ordered_incl.
  - apply Permutation_app_head, buckets_perm.
    intros u Hu. apply filter_In in Hu. now apply Hs.
Qed.

(** ** Independence of the input order *)

Lemma look_perm (l1 l2 : list str) :
  Permutation l1 l2 -> paths_distinct' l1 ->
  forall p, look l1 p = look l2 p.
Proof.
  intros Hperm Hd p.
  destruct (look l1 p) as [u|] eqn:E1; destruct (look l2 p) as [v|] eqn:E2;
    trivial.
  - apply look_some in E1, E2. destruct E1 as [Hu Hpu], E2 as [Hv Hpv].
    f_equal. apply (Hd u v p); trivial.
    now apply (Permutation_in _ (Permutation_sym Hperm)).
  - apply look_some in E1. destruct E1 as [Hu Hpu].
    exfalso. apply (@look_none l2 p E2 u (Permutation_in _ Hperm Hu) Hpu).
  - apply look_some in E2. destruct E2 as [Hv Hpv].
    exfalso.
    apply (@look_none l1 p E1 v (Permutation_in _ (Permutation_sym Hperm) Hv) Hpv).
Qed.

(** C4 (as amended). Two input lists that are permutations of each other,
    and in which no two different URLs have the same path, are sequenced
    identically. *)
Theorem order_urls_order_independent (l1 l2 : list str) :
  Permutation l1 l2 -> paths_distinct' l1 ->
  order_urls' l1 = order_urls' l2.
Proof.
  intros Hperm Hd.
  destruct (by_path_of' l1 []) as [d1|] eqn:E1.
  - assert (Hp2 : Forall parses' l2).
    { apply (Permutation_Forall Hperm). now apply by_path_parses with [] d1. }
    destruct (@by_path_defined l2 Hp2 []) as [d2 E2].
    rewrite (@order_urls_with l1 d1 E1), (@order_urls_with l2 d2 E2). f_equal.
    rewrite order_with_ext with (look2 := look l2) by (now apply look_perm).
    unfold order_with. f_equal.
    apply buckets_unique, Permutation_filter, Hperm.
  - rewrite (@order_urls_none l1 E1).
    destruct (by_path_of' l2 []) as [d2|] eqn:E2.
    + exfalso.
      assert (Hp1 : Forall parses' l1).
      { apply (Permutation_Forall (Permutation_sym Hperm)).
        now apply by_path_parses with [] d2. }
      destruct (@by_path_defined l1 Hp1 []) as [d1 E]. congruence.
    + now rewrite (@order_urls_none l2 E2).
Qed.

(** ** The boolean tests *)

Lemma mapM_url_path_in (l : list str) :
  forall ps, mapM url_path' l = Some ps ->
  forall u p, In u l -> url_path' u = Some p -> In p ps.
Proof.
  induction l as [|x l IH]; intros ps; simpl; [contradiction|].
  destruct (url_path' x) as [px|] eqn:Ex; simpl; [|discriminate].
  destruct (mapM url_path' l) as [pl|]; simpl; [|discriminate].
  intros [= <-] u p [<-|Hu] Hp.
  - left. congruence.
  - right. now apply (IH pl eq_refl u p).
Qed.

Lemma distinct_paths_sound (l : list str) :
  distinct_paths bracketed_netloc_ok nfkc_netloc_ok l = true ->
  Forall parses' l /\ paths_distinct' l.
Proof.
  unfold distinct_paths. induction l as [|x l IH]; simpl.
  - intros _. split; [constructor | intros u v p []].
  - destruct (url_path' x) as [px|] eqn:Ex; simpl; [|discriminate].
    destruct (mapM url_path' l) as [pl|] eqn:El; simpl; [|discriminate].
    intros H. apply andb_prop in H. destruct H as [H1 H2].
    apply negb_true_iff, mem_false_iff in H1.
    destruct (IH H2) as [Hp Hd]. split.
    + constructor; trivial. unfold parses. congruence.
    + intros u v p [<-|Hu] [<-|Hv] Hpu Hpv; trivial.
      * exfalso. apply H1. assert (px = p) by congruence. subst px.
        now apply (@mapM_url_path_in l pl El v p).
      * exfalso. apply H1. assert (px = p) by congruence. subst px.
        now apply (@mapM_url_path_in l pl El u p).
      * now apply (Hd u v p).
Qed.

Lemma single_markerb_sound (l : list str) :
  single_markerb l = true -> single_marker l.
Proof.
  unfold single_markerb, single_marker. rewrite forallb_forall.
  intros H u Hu. now apply negb_true_iff, H.
Qed.

(** ** Agreement with the specification *)

Lemma paths_distinct_tail (u : str) (l : list str) :
  paths_distinct' (u :: l) -> paths_distinct' l.
Proof.
  intros H a b p Ha Hb. apply H; now right.
Qed.

Lemma found_filter (l : list str) (p : str) :
  NoDup l -> paths_distinct' l ->
  found (look l) p = filter (has_path' p) l.
Proof.
  unfold found. induction 1 as [|u l Hu Hnd IH]; intros Hd; simpl; trivial.
  specialize (IH (paths_distinct_tail Hd)).
  destruct (has_path' p u) eqn:E.
  - assert (Hnone : look l p = None).
    { destruct (look l p) as [v|] eqn:Ev; trivial. exfalso.
      apply look_some in Ev. destruct Ev as [Hv Hpv].
      apply has_path_iff in E.
      assert (u = v) by (apply (Hd u v p); simpl; auto).
      subst v. contradiction. }
    rewrite Hnone in *. now rewrite <- IH.
  - destruct (look l p); exact IH.
Qed.

Lemma spec_chapters_in (l : list str) (ps : list str) (u : str) :
  In u (flat_map (fun p => filter (has_path' p) l) ps) ->
  exists p, In p ps /\ url_path' u = Some p.
Proof.
  rewrite in_flat_map. intros (p & Hp & Hu). apply filter_In in Hu.
  exists p. split; trivial. now apply has_path_iff.
Qed.

(** C3 (as amended). On a list of URLs without repetition, in which no two
    URLs have the same path and none contains both the articles and the
    FAQ marker, the sequencer returns the chapters in canonical order, then
    the extra roots in their order, then the articles, the FAQ and the
    other URLs, each bucket sorted. *)
Theorem order_urls_follows_spec (l : list str) :
  Forall parses' l -> NoDup l -> paths_distinct' l -> single_marker l ->
  order_urls' l = Some (sequencer_spec' l).
Proof.
  intros Hp Hnd Hd Hs. destruct (@by_path_defined l Hp []) as [d Hb].
  rewrite (@order_urls_with l d Hb). f_equal.
  unfold order_with, sequencer_spec.
  rewrite (@ordered_eq (look l) (@look_consistent l)).
  assert (Hch : forall ps, chapters_of (look l) ps
                           = flat_map (fun p => filter (has_path' p) l) ps).
  { intros ps. unfold chapters_of. apply flat_map_ext.
    intros p. now apply found_filter. }
  rewrite !Hch.
  set (chapters := flat_map (fun p => filter (has_path' p) l) CHAPTERS_IN_ORDER).
  assert (Hex : flat_map (fun p => filter (has_path' p) l) EXTRA_ROOTS
                = flat_map (fun p => filter
                                       (fun u => has_path' p u
                                                 && negb (mem u chapters)) l)
                           EXTRA_ROOTS).
  { apply flat_map_ext_in. intros p Hpin. apply filter_ext_in.
    intros u _. destruct (has_path' p u) eqn:E; trivial. simpl.
    symmetry. apply negb_true_iff, mem_false_iff. intros Hu.
    apply spec_chapters_in in Hu. destruct Hu as (c & Hc & Hpc).
    apply has_path_iff in E. assert (c = p) by congruence. subst c.
    exact (@NoDup_app_disjoint _ _ _ p roots_distinct Hc Hpin). }
  rewrite <- Hex.
  set (extras := flat_map (fun p => filter (has_path' p) l) EXTRA_ROOTS).
  set (rest := filter (fun u => negb (mem u (chapters ++ extras))) l).
  assert (HF : filter is_faq rest
               = filter (fun u => is_faq u && negb (is_artigo u)) rest).
  { apply filter_ext_in. intros u Hu.
    assert (Hul : In u l) by (apply filter_In in Hu; tauto).
    specialize (Hs u Hul).
    destruct (is_artigo u), (is_faq u); simpl in *; congruence. }
  unfold buckets. rewrite HF, <- !app_assoc. reflexivity.
Qed.

End SequencerFacts.

(* ------------------------------------------------------------------ *)
(** * The renderer *)

Section RendererFacts.

Variable bracketed_netloc_ok nfkc_netloc_ok : str -> bool.
Variable exe : option str.
Variable goto_ok pdf_ok : nat -> str -> bool.

Local Abbreviation url_path' := (url_path bracketed_netloc_ok nfkc_netloc_ok).
Local Abbreviation loop :=
  (render_loop bracketed_netloc_ok nfkc_netloc_ok goto_ok pdf_ok).
Local Abbreviation rendered' :=
  (rendered bracketed_netloc_ok nfkc_netloc_ok goto_ok pdf_ok).

Lemma gotos_app (t1 t2 : list event) : gotos (t1 ++ t2) = gotos t1 ++ gotos t2.
Proof. apply flat_map_app. Qed.

Lemma closes_app (t1 t2 : list event) : closes (t1 ++ t2) = closes t1 + closes t2.
Proof. unfold closes. now rewrite filter_app, length_app. Qed.

Lemma render_loop_spec (urls : list str) :
  Forall (fun u => url_path' u <> None) urls ->
  forall idx r, raised r = false ->
    raised (loop idx urls r) = false /\
    gotos (trace (loop idx urls r)) = gotos (trace r) ++ urls /\
    artifacts (loop idx urls r) = artifacts r ++ rendered' idx urls /\
    closes (trace (loop idx urls r)) = closes (trace r).
Proof.
  induction 1 as [|url urls Hp _ IH]; intros idx r Hr; simpl.
  - now rewrite !app_nil_r.
  - destruct (url_path' url) as [p|] eqn:E; [|congruence].
    destruct (goto_ok idx url); [destruct (pdf_ok idx url)|]; simpl;
      match goal with
      | |- context [loop (S idx) urls ?r'] =>
          destruct (IH (S idx) r' eq_refl) as (H1 & H2 & H3 & H4);
          rewrite H1, H2, H3, H4
      end; simpl; rewrite ?gotos_app, ?closes_app; simpl;
      rewrite ?app_nil_r, <- ?app_assoc, ?Nat.add_0_r; auto.
Qed.

(** C5. When the browser starts, for every list of URLs (each with a
    path), whatever navigations and prints fail: the call returns normally,
    every URL is navigated to, in order; the artifacts written are exactly
    those of the URLs whose navigation and print both succeed; and the
    browser is closed exactly once, as the last action. *)
Theorem print_to_pdf_batch (urls : list str) :
  Forall (fun u => url_path' u <> None) urls ->
  let r := print_to_pdf bracketed_netloc_ok nfkc_netloc_ok exe true true
             goto_ok pdf_ok urls in
  raised r = false /\
  gotos (trace r) = urls /\
  artifacts r = rendered' 1 urls /\
  closes (trace r) = 1 /\
  last (trace r) EvNewPage = EvClose.
Proof.
  intros Hp. cbv zeta. unfold print_to_pdf. simpl.
  match goal with
  | |- context [loop 1 urls ?r0] =>
      destruct (render_loop_spec Hp 1 r0 eq_refl) as (H1 & H2 & H3 & H4)
  end.
  rewrite H1. simpl. rewrite gotos_app, closes_app, H2, H3, H4, last_last.
  simpl. rewrite app_nil_r. auto.
Qed.

End RendererFacts.

(* ------------------------------------------------------------------ *)
(** * Characters and strings *)

Lemma to_lower_fixes_nonletters (c : char) :
  is_lower (to_lower c) = false -> to_lower c = c.
Proof. each_char c. Qed.

Lemma to_lower_letter (c : char) :
  is_lower (to_lower c) = true ->
  is_ascii c = true /\ is_alpha c = true /\ has_char c scheme_chars = true.
Proof. each_char c. Qed.

Lemma to_lower_idem (c : char) : to_lower (to_lower c) = to_lower c.
Proof. each_char c. Qed.

Lemma scheme_char_not_special (c : char) :
  has_char c scheme_chars = true ->
  c <> ":"%char /\ c <> "/"%char /\ c <> "?"%char /\ c <> "#"%char /\
  c <> TAB /\ c <> CR /\ c <> LF.
Proof. each_char c; repeat split; discriminate. Qed.

Lemma to_lower_scheme_char (c : char) :
  has_char c scheme_chars = true -> has_char (to_lower c) scheme_chars = true.
Proof. each_char c. Qed.

Lemma to_lower_is_ascii (c : char) : is_ascii (to_lower c) = is_ascii c.
Proof. each_char c. Qed.

Lemma lower_idem (s : str) : lower (lower s) = lower s.
Proof.
  unfold lower. rewrite map_map. apply map_ext. apply to_lower_idem.
Qed.

Lemma has_char_iff (c : char) (s : str) : has_char c s = true <-> In c s.
Proof.
  unfold has_char. rewrite existsb_exists. split.
  - intros (x & Hx & E). apply ceqb_eq in E. now subst.
  - intros H. exists c. split; trivial. apply ceqb_refl.
Qed.

Lemma has_char_false_iff (c : char) (s : str) :
  has_char c s = false <-> ~ In c s.
Proof.
  rewrite <- has_char_iff. destruct (has_char c s); intuition congruence.
Qed.

(** ** [partition_at] *)

Lemma partition_at_some (c : char) (s a b : str) :
  partition_at c s = Some (a, b) -> s = a ++ c :: b /\ ~ In c a.
Proof.
  revert a b. induction s as [|x s IH]; intros a b; simpl; [discriminate|].
  destruct (ceqb_spec x c) as [->|Hne].
  - intros [= <- <-]. split; [reflexivity | intros []].
  - destruct (partition_at c s) as [[a' b']|]; [|discriminate].
    intros [= <- <-]. destruct (IH a' b' eq_refl) as [-> Hn].
    split; [reflexivity|]. intros [?|?]; [congruence | contradiction].
Qed.

Lemma partition_at_none (c : char) (s : str) :
  partition_at c s = None <-> ~ In c s.
Proof.
  induction s as [|x s IH]; simpl.
  - split; [intros _ [] | reflexivity].
  - destruct (ceqb_spec x c) as [->|Hne].
    + split; [discriminate | intros H; exfalso; apply H; now left].
    + destruct (partition_at c s) as [[a b]|].
      * split; [discriminate|]. intros H. exfalso.
        assert (Hs : ~ In c s) by (intros Hs; apply H; now right).
        apply IH in Hs. discriminate.
      * split; [|reflexivity]. intros _ [?|Hs]; [congruence|].
        now apply IH in Hs.
Qed.

Lemma partition_at_app (c : char) (a b : str) :
  ~ In c a -> partition_at c (a ++ c :: b) = Some (a, b).
Proof.
  induction a as [|x a IH]; intros Hn; simpl.
  - now rewrite ceqb_refl.
  - destruct (ceqb_spec x c) as [->|Hne].
    + exfalso. apply Hn. now left.
    + rewrite IH; trivial. intros H. apply Hn. now right.
Qed.

Lemma cut_at_absent (c : char) (s : str) : ~ In c s -> cut_at c s = (s, []).
Proof.
  intros H. unfold cut_at. apply partition_at_none in H. now rewrite H.
Qed.

Lemma cut_at_fst (c : char) (s : str) :
  exists t, s = fst (cut_at c s) ++ t /\ ~ In c (fst (cut_at c s)).
Proof.
  unfold cut_at. destruct (partition_at c s) as [[a b]|] eqn:E; simpl.
  - apply partition_at_some in E. destruct E as [-> Hn].
    exists (c :: b). now split.
  - exists []. rewrite app_nil_r. split; trivial.
    now apply partition_at_none.
Qed.

(** ** [span_until] *)

Lemma span_until_spec (p : char -> bool) (s a b : str) :
  span_until p s = (a, b) ->
  s = a ++ b /\ (forall c, In c a -> p c = false) /\
  (b = [] \/ exists c t, b = c :: t /\ p c = true).
Proof.
  revert a b. induction s as [|x s IH]; intros a b; simpl.
  - intros [= <- <-]. repeat split; auto. intros c [].
  - destruct (p x) eqn:E.
    + intros [= <- <-]. repeat split; eauto. intros c [].
    + destruct (span_until p s) as [a' b']. intros [= <- <-].
      destruct (IH a' b' eq_refl) as (-> & Ha & Hb).
      repeat split; trivial. intros c [<-|Hc]; auto.
Qed.

Lemma span_until_app (p : char -> bool) (a b : str) :
  (forall c, In c a -> p c = false) ->
  (b = [] \/ exists c t, b = c :: t /\ p c = true) ->
  span_until p (a ++ b) = (a, b).
Proof.
  intros Ha Hb. induction a as [|x a IH]; simpl.
  - destruct Hb as [->|(c & t & -> & Hc)]; simpl; trivial. now rewrite Hc.
  - rewrite (Ha x (or_introl eq_refl)), IH; trivial.
    intros c Hc. apply Ha. now right.
Qed.

(** ** [rcut_at] *)

Lemma rcut_at_app (c : char) (a b : str) :
  ~ In c b -> rcut_at c (a ++ c :: b) = Some (a ++ [c], b).
Proof.
  intros Hn. unfold rcut_at. rewrite rev_app_distr. simpl.
  rewrite <- app_assoc. simpl.
  rewrite partition_at_app by (now rewrite <- in_rev).
  now rewrite !rev_involutive.
Qed.

Lemma rcut_at_none (c : char) (s : str) : ~ In c s -> rcut_at c s = None.
Proof.
  intros Hn. unfold rcut_at.
  assert (H : partition_at c (rev s) = None)
    by (apply partition_at_none; now rewrite <- in_rev).
  now rewrite H.
Qed.

Lemma rcut_at_some (c : char) (s h t : str) :
  rcut_at c s = Some (h, t) ->
  exists h', h = h' ++ [c] /\ s = h' ++ c :: t /\ ~ In c t.
Proof.
  unfold rcut_at. destruct (partition_at c (rev s)) as [[a b]|] eqn:E;
    [|discriminate].
  intros [= <- <-]. apply partition_at_some in E. destruct E as [E Hn].
  exists (rev b). split; [reflexivity|]. split.
  - rewrite <- (rev_involutive s), E, rev_app_distr. simpl.
    now rewrite <- app_assoc.
  - now rewrite <- in_rev.
Qed.

(** ** Stripping and removing *)

Lemma dropwhile_head (p : char -> bool) (c : char) (s : str) :
  p c = false -> dropwhile p (c :: s) = c :: s.
Proof. intros H. simpl. now rewrite H. Qed.

Lemma dropwhile_in (p : char -> bool) (s : str) (c : char) :
  In c (dropwhile p s) -> In c s.
Proof.
  induction s as [|x s IH]; simpl; trivial.
  destruct (p x); simpl; auto.
Qed.

Lemma remove_char_in (x c : char) (s : str) :
  In c (remove_char x s) <-> In c s /\ c <> x.
Proof.
  unfold remove_char. rewrite filter_In.
  destruct (ceqb_spec c x); simpl; intuition congruence.
Qed.

Lemma remove_char_absent (x : char) (s : str) :
  ~ In x s -> remove_char x s = s.
Proof.
  intros H. unfold remove_char. induction s as [|c s IH]; simpl; trivial.
  destruct (ceqb_spec c x) as [->|]; simpl.
  - exfalso. apply H. now left.
  - rewrite IH; trivial. intros Hs. apply H. now right.
Qed.

Lemma startswith_iff (p s : str) :
  startswith p s = true <-> exists t, s = p ++ t.
Proof.
  revert s. induction p as [|a p IH]; intros s; simpl.
  - split; [eauto | reflexivity].
  - destruct s as [|b s].
    + split; [discriminate | intros (t & H); discriminate].
    + rewrite andb_true_iff, IH. split.
      * intros (E & t & ->). apply ceqb_eq in E. subst. eauto.
      * intros (t & [= -> ->]). split; [apply ceqb_refl | eauto].
Qed.

Lemma startswith_slash (s : str) :
  startswith (lit "/") s = true <-> exists t, s = "/"%char :: t.
Proof. apply (startswith_iff (lit "/") s). Qed.

Lemma nonempty_iff (s : str) : nonempty s = true <-> s <> [].
Proof. destruct s; simpl; split; congruence. Qed.

Lemma nonempty_false_iff (s : str) : nonempty s = false <-> s = [].
Proof. destruct s; simpl; split; congruence. Qed.

(* ------------------------------------------------------------------ *)
(** * [urllib.parse]: what a parse result looks like *)

Lemma scheme_test_chars (pre : str) :
  scheme_test pre = true ->
  pre <> [] /\ Forall (fun c => has_char c scheme_chars = true) pre.
Proof.
  destruct pre as [|c0 pre]; simpl; [discriminate|].
  intros H. apply andb_prop in H. destruct H as [_ H].
  split; [discriminate|]. apply Forall_forall. now apply forallb_forall.
Qed.

Lemma split_scheme_cases (d s : str) :
  (scheme_at_head s = false /\ split_scheme d s = (d, s)) \/
  (exists pre post,
      s = pre ++ ":"%char :: post /\ ~ In ":"%char pre /\
      scheme_test pre = true /\ split_scheme d s = (lower pre, post)).
Proof.
  unfold split_scheme, scheme_at_head.
  destruct (partition_at ":" s) as [[pre post]|] eqn:E; [|now left].
  destruct (scheme_test pre) eqn:T; [|now left].
  right. apply partition_at_some in E. destruct E as [-> Hn].
  exists pre, post. auto.
Qed.

Lemma scheme_found (d pre post : str) :
  ~ In ":"%char pre -> scheme_test pre = true ->
  split_scheme d (pre ++ ":"%char :: post) = (lower pre, post).
Proof.
  intros Hn Ht. unfold split_scheme. now rewrite partition_at_app, Ht.
Qed.

Lemma scheme_at_head_prefix (a t : str) :
  scheme_at_head (a ++ t) = false -> scheme_at_head a = false.
Proof.
  unfold scheme_at_head.
  destruct (partition_at ":" a) as [[pre post]|] eqn:E; trivial.
  apply partition_at_some in E. destruct E as [-> Hn].
  rewrite <- app_assoc. simpl. now rewrite partition_at_app.
Qed.

Section UrllibFacts.

Variable bracketed_netloc_ok nfkc_netloc_ok : str -> bool.

Local Abbreviation split_netloc' := (split_netloc bracketed_netloc_ok).
Local Abbreviation urlsplit' :=
  (urlsplit bracketed_netloc_ok nfkc_netloc_ok).
Local Abbreviation urlparse' :=
  (urlparse bracketed_netloc_ok nfkc_netloc_ok).

Lemma split_netloc_cases (url nl rest : str) :
  split_netloc' url = Some (nl, rest) ->
  (url = "/"%char :: "/"%char :: nl ++ rest /\
   (forall c, In c nl -> is_delim c = false) /\
   (rest = [] \/ exists c t, rest = c :: t /\ is_delim c = true)) \/
  (nl = [] /\ rest = url /\ startswith (lit "//") url = false).
Proof.
  unfold split_netloc. destruct (startswith (lit "//") url) eqn:E.
  - apply startswith_iff in E. destruct E as [t ->]. simpl.
    destruct (span_until is_delim t) as [a b] eqn:Es.
    apply span_until_spec in Es. destruct Es as (-> & Ha & Hb).
    intros H. left.
    assert (a = nl /\ b = rest) as [<- <-].
    { destruct ((has_char "[" a && negb (has_char "]" a))
                || (has_char "]" a && negb (has_char "[" a)));
        [discriminate|].
      destruct (has_char "[" a && has_char "]" a);
        [destruct (bracketed_netloc_ok a); [|discriminate]|];
        now inversion H. }
    auto.
  - intros [= <- <-]. right. auto.
Qed.

(** A URL with the double slash, a netloc free of delimiters and brackets
    and a rest that starts at a delimiter splits as written. *)
Lemma split_netloc_app (nl rest : str) :
  (forall c, In c nl -> is_delim c = false) ->
  (rest = [] \/ exists c t, rest = c :: t /\ is_delim c = true) ->
  ~ In "["%char nl -> ~ In "]"%char nl ->
  split_netloc' ("/"%char :: "/"%char :: nl ++ rest) = Some (nl, rest).
Proof.
  intros Hnl Hrest Ho Hc. unfold split_netloc. simpl.
  rewrite span_until_app; trivial.
  apply has_char_false_iff in Ho, Hc. now rewrite Ho, Hc.
Qed.

Lemma urlsplit_some (url d : str) (r : SplitResult) :
  urlsplit' url d = Some r ->
  exists rest1 rest2,
    split_scheme (remove_unsafe (strip c0_or_space d))
                 (remove_unsafe (lstrip c0_or_space url))
    = (s_scheme r, rest1) /\
    split_netloc' rest1 = Some (s_netloc r, rest2) /\
    s_path r = fst (cut_at "?" (fst (cut_at "#" rest2))).
Proof.
  unfold urlsplit.
  destruct (split_scheme _ _) as [sch rest1] eqn:E1.
  destruct (split_netloc' rest1) as [[nl rest2]|] eqn:E2; simpl;
    [|discriminate].
  destruct (cut_at "#" rest2) as [x frag] eqn:E3. simpl.
  destruct (cut_at "?" x) as [y qry] eqn:E4. simpl.
  destruct (checknetloc nfkc_netloc_ok nl); [|discriminate].
  intros [= <-]. simpl. exists rest1, rest2.
  rewrite E3. simpl. rewrite E4. auto.
Qed.

(** ** [_splitparams] *)

Lemma last_segment_plain_cut (h t : str) :
  ~ In "/"%char t -> ~ In ";"%char t ->
  last_segment_plain (h ++ "/"%char :: t).
Proof.
  intros Hs Hp a b E Hb Hin.
  apply app_eq_app in E. destruct E as (l & [[_ ->]|[_ E]]).
  - apply Hb. apply in_or_app. right. now left.
  - destruct l as [|x l]; simpl in E.
    + subst b. apply Hb. now left.
    + injection E as _ ->. apply Hp. apply in_or_app. now right.
Qed.

Lemma last_segment_plain_free (p : str) :
  ~ In ";"%char p -> last_segment_plain p.
Proof.
  intros H a b -> _ Hb. apply H. apply in_or_app. now right.
Qed.

Lemma splitparams_inv (url a b : str) :
  In ";"%char url -> splitparams url = (a, b) ->
  last_segment_plain a /\ (forall c, In c b -> c <> "/"%char) /\
  (url = a ++ ";"%char :: b \/ (url = a /\ b = [])) /\
  (startswith (lit "/") url = true -> startswith (lit "/") a = true).
Proof.
  intros Hsemi. unfold splitparams.
  destruct (rcut_at "/" url) as [[h t]|] eqn:Er.
  - apply rcut_at_some in Er. destruct Er as (h' & -> & -> & Hns).
    destruct (partition_at ";" t) as [[x y]|] eqn:Ep.
    + apply partition_at_some in Ep. destruct Ep as [-> Hnx].
      intros [= <- <-].
      assert (Hx : ~ In "/"%char x)
        by (intros H; apply Hns; apply in_or_app; now left).
      split; [|split; [|split]].
      * rewrite <- app_assoc. simpl. now apply last_segment_plain_cut.
      * intros c Hc ->. apply Hns. apply in_or_app. right. now right.
      * left. now rewrite <- !app_assoc.
      * rewrite !startswith_slash. intros (u & E).
        destruct h' as [|c h'']; simpl in *; [eauto|].
        injection E as -> _. eauto.
    + apply partition_at_none in Ep. intros [= <- <-].
      split; [|split; [|split]]; auto.
      now apply last_segment_plain_cut.
  - assert (Hns : ~ In "/"%char url).
    { intros H. apply in_split in H. destruct H as (l1 & l2 & ->).
      unfold rcut_at in Er.
      destruct (partition_at "/" (rev (l1 ++ "/"%char :: l2))) as [[? ?]|] eqn:E;
        [discriminate|].
      apply partition_at_none in E. apply E. rewrite <- in_rev.
      apply in_or_app. right. now left. }
    destruct (partition_at ";" url) as [[x y]|] eqn:Ep.
    + apply partition_at_some in Ep. destruct Ep as [-> Hnx].
      intros [= <- <-]. split; [|split; [|split]].
      * now apply last_segment_plain_free.
      * intros c Hc ->. apply Hns. apply in_or_app. right. now right.
      * now left.
      * rewrite startswith_slash. intros (u & E). exfalso. apply Hns.
        rewrite E. now left.
    + apply partition_at_none in Ep. contradiction.
Qed.

(** ** The path that [urlsplit] cuts out *)

Lemma cut_at_cons_eq (c : char) (t : str) : fst (cut_at c (c :: t)) = [].
Proof. unfold cut_at. simpl. now rewrite ceqb_refl. Qed.

Lemma cut_at_cons_ne (c x : char) (t : str) :
  x <> c -> fst (cut_at c (x :: t)) = x :: fst (cut_at c t).
Proof.
  intros H. unfold cut_at. simpl.
  destruct (ceqb_spec x c); [contradiction|].
  now destruct (partition_at c t) as [[a b]|].
Qed.

Lemma cut_path_chars (rest : str) :
  let p := fst (cut_at "?" (fst (cut_at "#" rest))) in
  (exists t, rest = p ++ t) /\ ~ In "?"%char p /\ ~ In "#"%char p.
Proof.
  cbv zeta. destruct (cut_at_fst "#" rest) as (t1 & E1 & H1).
  destruct (cut_at_fst "?" (fst (cut_at "#" rest))) as (t2 & E2 & H2).
  split; [|split]; trivial.
  - exists (t2 ++ t1). rewrite app_assoc, <- E2. exact E1.
  - intros H. apply H1. rewrite E2. apply in_or_app. now left.
Qed.

Lemma is_delim_cases (c : char) :
  is_delim c = true -> c = "/"%char \/ c = "?"%char \/ c = "#"%char.
Proof.
  unfold is_delim. rewrite !orb_true_iff, !ceqb_eq. tauto.
Qed.

Lemma cut_path_head (rest : str) :
  (rest = [] \/ exists c t, rest = c :: t /\ is_delim c = true) ->
  let p := fst (cut_at "?" (fst (cut_at "#" rest))) in
  p = [] \/ startswith (lit "/") p = true.
Proof.
  cbv zeta. intros [->|(c & t & -> & Hc)]; [now left|].
  apply is_delim_cases in Hc. destruct Hc as [-> | [-> | ->]].
  - right. rewrite !cut_at_cons_ne by discriminate. reflexivity.
  - left. rewrite cut_at_cons_ne by discriminate. apply cut_at_cons_eq.
  - left. now rewrite cut_at_cons_eq.
Qed.

Lemma params_step (sch sp a b : str) :
  (if mem sch uses_params && has_char ";" sp
   then splitparams sp else (sp, [])) = (a, b) ->
  (mem sch uses_params = true -> last_segment_plain a) /\
  (forall c, In c b -> c <> "/"%char) /\
  (sp = a ++ ";"%char :: b \/ (sp = a /\ b = [])) /\
  (startswith (lit "/") sp = true -> startswith (lit "/") a = true).
Proof.
  destruct (mem sch uses_params) eqn:Em; simpl.
  - destruct (has_char ";" sp) eqn:Eh.
    + intros H. apply has_char_iff in Eh.
      destruct (@splitparams_inv sp a b Eh H) as (H1 & H2 & H3 & H4). auto.
    + intros [= <- <-]. apply has_char_false_iff in Eh.
      split; [intros _; now apply last_segment_plain_free|].
      split; [intros c []|]. auto.
  - intros [= <- <-]. split; [discriminate|].
    split; [intros c []|]. auto.
Qed.

Lemma path_with_params_prefix (sch nl a b q f sp : str) :
  (sp = a ++ ";"%char :: b \/ (sp = a /\ b = [])) ->
  exists t, sp = path_with_params (mkParse sch nl a b q f) ++ t.
Proof.
  unfold path_with_params. simpl. intros [->|[-> ->]].
  - destruct b as [|c b]; simpl.
    + now exists [";"%char].
    + exists []. now rewrite app_nil_r.
  - exists []. now rewrite app_nil_r.
Qed.

Lemma unsafe_free_incl (s t : str) :
  (forall c, In c s -> In c t) -> unsafe_free t -> unsafe_free s.
Proof.
  unfold unsafe_free. intros H (H1 & H2 & H3).
  repeat split; intros Hc; [apply H1 | apply H2 | apply H3]; now apply H.
Qed.

Lemma remove_unsafe_free (s : str) : unsafe_free (remove_unsafe s).
Proof.
  unfold unsafe_free, remove_unsafe. repeat split; intros H;
    repeat (apply remove_char_in in H; destruct H as [H ?]); congruence.
Qed.

Lemma lower_scheme_chars (pre : str) :
  Forall (fun c => has_char c scheme_chars = true) pre ->
  Forall (fun c => has_char c scheme_chars = true) (lower pre).
Proof.
  unfold lower. rewrite !Forall_forall. intros H c Hc.
  apply in_map_iff in Hc. destruct Hc as (x & <- & Hx).
  now apply to_lower_scheme_char, H.
Qed.

(** Everything [urlparse] returns, for any input, is well formed. *)
Lemma urlparse_ok (url : str) (r : ParseResult) :
  urlparse' url [] = Some r -> parsed_ok r.
Proof.
  unfold urlparse.
  destruct (urlsplit' url []) as [sr|] eqn:Es; simpl; [|discriminate].
  destruct (@urlsplit_some url [] sr Es) as (rest1 & rest2 & Hsch & Hnl & Hpath).
  change (remove_unsafe (strip c0_or_space [])) with (@nil char) in Hsch.
  set (u0 := remove_unsafe (lstrip c0_or_space url)) in *.
  assert (Hu0 : unsafe_free u0) by apply remove_unsafe_free.
  destruct (cut_path_chars rest2) as ((tp & Hrest2) & Hq & Hf).
  cbv zeta in Hrest2, Hq, Hf. rewrite <- Hpath in Hrest2, Hq, Hf.
  pose proof (@cut_path_head rest2) as Hhead. cbv zeta in Hhead.
  rewrite <- Hpath in Hhead.
  destruct (if mem (s_scheme sr) uses_params && has_char ";" (s_path sr)
            then splitparams (s_path sr) else (s_path sr, []))
    as [a b] eqn:Ep.
  destruct (@params_step (s_scheme sr) (s_path sr) a b Ep) as (Hseg & Hpar & Hsp & Hsl).
  intros [= <-].
  assert (Hab : forall c, In c (a ++ b) -> In c (s_path sr)).
  { intros c Hc. destruct Hsp as [->|[-> ->]].
    - apply in_app_or in Hc. apply in_or_app. simpl. tauto.
    - now rewrite app_nil_r in Hc. }
  assert (Hr1 : forall c, In c rest1 -> In c u0).
  { destruct (split_scheme_cases [] u0)
      as [[_ E]|(pre & post & Eu & _ & _ & E)];
      rewrite E in Hsch; injection Hsch as _ <-; trivial.
    intros c Hc. rewrite Eu. apply in_or_app. right. now right. }
  assert (Hr2 : forall c, In c (s_netloc sr) \/ In c rest2 -> In c rest1).
  { destruct (@split_netloc_cases rest1 (s_netloc sr) rest2 Hnl) as [(-> & _ & _)|(-> & -> & _)].
    - intros c Hc. right. right. apply in_or_app. exact Hc.
    - intros c [[]|Hc]. exact Hc. }
  assert (Hsp2 : forall c, In c (s_path sr) -> In c rest2).
  { intros c Hc. rewrite Hrest2. apply in_or_app. now left. }
  constructor; simpl.
  - destruct (split_scheme_cases [] u0)
      as [[_ E]|(pre & post & _ & _ & Ht & E)];
      rewrite E in Hsch; injection Hsch as <- _; [now left|].
    right. split; [|apply lower_idem].
    apply lower_scheme_chars. now apply scheme_test_chars.
  - destruct (@split_netloc_cases rest1 (s_netloc sr) rest2 Hnl) as [(_ & H & _)|(-> & _ & _)];
      [exact H | intros c []].
  - apply unsafe_free_incl with u0; trivial.
    intros c Hc. apply Hr1, Hr2. apply in_app_or in Hc.
    destruct Hc as [Hc|Hc]; [now left|]. right. apply Hsp2, Hab, Hc.
  - intros c Hc. apply Hab in Hc. split; intros ->; contradiction.
  - intros Hne.
    destruct (@split_netloc_cases rest1 (s_netloc sr) rest2 Hnl) as [(_ & _ & H)|(E & _ & _)];
      [|contradiction].
    destruct (Hhead H) as [E|E].
    + left. rewrite E in Hsp.
      destruct Hsp as [Hsp|[<- ->]]; [|auto].
      destruct a; discriminate.
    + right. auto.
  - exact Hseg.
  - exact Hpar.
  - intros Esch Enl.
    destruct (@path_with_params_prefix (s_scheme sr) (s_netloc sr) a b
                (s_query sr) (s_fragment sr) (s_path sr) Hsp) as (t & Ht).
    destruct (split_scheme_cases [] u0)
      as [[Hhd E]|(pre & post & _ & _ & Htest & E)];
      rewrite E in Hsch; injection Hsch as Hs1 Hs2.
    + subst rest1.
      destruct (@split_netloc_cases _ _ _ Hnl) as [(_ & _ & H)|(_ & -> & _)].
      * destruct (Hhead H) as [E0|E0].
        -- left. rewrite E0 in Ht. symmetry in Ht.
           now apply app_eq_nil in Ht.
        -- right. left. specialize (Hsl E0). unfold path_with_params.
           simpl. apply startswith_slash in Hsl. destruct Hsl as (x & ->).
           now destruct (nonempty b).
      * right. right. apply scheme_at_head_prefix with (t ++ tp).
        rewrite app_assoc, <- Ht, <- Hrest2. exact Hhd.
    + exfalso. apply scheme_test_chars in Htest. destruct Htest as [Hne _].
      rewrite Esch in Hs1. destruct pre; [congruence | discriminate].
Qed.

End UrllibFacts.

(* ------------------------------------------------------------------ *)
(** * The normalizer *)

(** ** Matching under [re.IGNORECASE] *)

Lemma https_char (c : char) :
  has_char (to_lower c) (lit "https") = true ->
  c <> ":"%char /\ c <> "/"%char.
Proof. each_char c; repeat split; discriminate. Qed.

Lemma host_char (c : char) :
  has_char (to_lower c) (lit "engsoftmoderna.info") = true ->
  is_delim c = false /\ c <> "["%char /\ c <> "]"%char /\ c <> LF.
Proof. each_char c; repeat split; discriminate. Qed.

Lemma scheme_char_ascii (c : char) :
  has_char c scheme_chars = true -> is_ascii c = true.
Proof. each_char c. Qed.

Lemma ci_eqb_low (p : char) (a : Ascii.ascii) :
  ci_eqb p (Low a) = ceqb (to_lower p) (to_lower (Low a)).
Proof.
  unfold ci_eqb.
  change (ceqb (Low a) (chr 304)) with false.
  change (ceqb (Low a) (chr 305)) with false.
  change (ceqb (Low a) (chr 383)) with false.
  change (ceqb (Low a) (chr 8490)) with false.
  cbn [orb]. now rewrite !andb_false_r, !orb_false_r.
Qed.

Lemma ci_eqb_ascii (p c : char) :
  ci_eqb p c = true -> is_ascii c = true -> to_lower c = to_lower p.
Proof.
  destruct c as [a|n]; [|discriminate].
  rewrite ci_eqb_low. intros H _. apply ceqb_eq in H. now symmetry.
Qed.

Lemma ci_in_lower (pat : str) (p c : char) :
  In p pat -> ci_eqb p c = true -> is_ascii c = true ->
  has_char (to_lower c) (lower pat) = true.
Proof.
  intros Hp Hc Ha. rewrite (ci_eqb_ascii _ _ Hc Ha).
  apply has_char_iff. unfold lower. now apply in_map.
Qed.

Lemma ci_str_eqb_in (pat s : str) :
  ci_str_eqb pat s = true ->
  forall c, In c s -> exists p, In p pat /\ ci_eqb p c = true.
Proof.
  revert s. induction pat as [|a pat IH]; intros [|b s]; simpl;
    try discriminate; [intros _ c []|].
  intros H. apply andb_prop in H. destruct H as [Hab Hs].
  intros c [<-|Hc].
  - exists a. split; [now left|trivial].
  - destruct (IH s Hs c Hc) as (p & Hp & Hpc). exists p. split; [now right|trivial].
Qed.

Lemma ci_str_eqb_app_inv (a b s : str) :
  ci_str_eqb (a ++ b) s = true ->
  exists sa sb, s = sa ++ sb /\ ci_str_eqb a sa = true /\
                ci_str_eqb b sb = true.
Proof.
  revert s. induction a as [|x a IH]; intros s H.
  - exists [], s. now split.
  - destruct s as [|y s]; [discriminate|]. cbn [app ci_str_eqb] in H.
    apply andb_prop in H. destruct H as [Hxy Hs].
    destruct (IH s Hs) as (sa & sb & -> & Ha & Hb).
    exists (y :: sa), sb. split; [reflexivity|]. split; [|exact Hb].
    cbn [ci_str_eqb]. now rewrite Hxy.
Qed.

Lemma ci_str_eqb_app (a b sa sb : str) :
  ci_str_eqb a sa = true -> ci_str_eqb b sb = true ->
  ci_str_eqb (a ++ b) (sa ++ sb) = true.
Proof.
  revert sa. induction a as [|x a IH]; intros [|y sa]; simpl;
    try discriminate; trivial.
  intros H Hb. apply andb_prop in H. destruct H as [Hxy Ha].
  rewrite Hxy. now apply IH.
Qed.

(** On ASCII text the matching is equality of the lower cases. *)
Lemma ci_str_eqb_ascii (pat s : str) :
  ci_str_eqb pat s = true -> forallb is_ascii s = true ->
  lower s = lower pat.
Proof.
  revert s. induction pat as [|a pat IH]; intros [|b s]; simpl;
    try discriminate; trivial.
  intros H Hs. apply andb_prop in H. destruct H as [Hab Hr].
  apply andb_prop in Hs. destruct Hs as [Hb Hs].
  now rewrite (ci_eqb_ascii _ _ Hab Hb), (IH s Hr Hs).
Qed.

Lemma ci_str_eqb_nonempty (pat s : str) :
  ci_str_eqb pat s = true -> pat <> [] -> s <> [].
Proof. destruct pat, s; simpl; congruence. Qed.

Lemma ci_prefix_some (pat s rest : str) :
  ci_prefix pat s = Some rest ->
  exists pre, s = pre ++ rest /\ ci_str_eqb pat pre = true.
Proof.
  revert s. induction pat as [|a pat IH]; intros s; simpl.
  - intros [= ->]. now exists [].
  - destruct s as [|b s]; [discriminate|].
    destruct (ci_eqb a b) eqn:E; [|discriminate].
    intros H. destruct (IH _ H) as (pre & -> & Hp).
    exists (b :: pre). simpl. now rewrite Hp, E.
Qed.

Lemma ci_prefix_app (pat pre rest : str) :
  ci_str_eqb pat pre = true -> ci_prefix pat (pre ++ rest) = Some rest.
Proof.
  revert pre. induction pat as [|a pat IH]; intros [|b pre]; simpl;
    try discriminate; trivial.
  intros H. apply andb_prop in H. destruct H as [E Hp].
  rewrite E. now apply IH.
Qed.

(** The punctuation of the pattern matches itself only. *)
Lemma ci_colon (c : char) : ci_eqb ":" c = true -> c = ":"%char.
Proof. each_char c. Qed.

Lemma ci_slash (c : char) : ci_eqb "/" c = true -> c = "/"%char.
Proof. each_char c. Qed.

Lemma chomp_cases (rest : str) :
  match chomp rest with
  | [] => true
  | c :: t => ceqb c "/" && negb (has_char LF t)
  end = true ->
  rest = [] \/ rest = [LF] \/ exists t, rest = "/"%char :: t.
Proof.
  unfold chomp. destruct (rev rest) as [|c r] eqn:E.
  - left. apply (f_equal (@rev char)) in E.
    now rewrite rev_involutive in E.
  - assert (Hrest : rest = rev r ++ [c]).
    { apply (f_equal (@rev char)) in E. now rewrite rev_involutive in E. }
    destruct (ceqb_spec c LF) as [->|Hne].
    + destruct (rev r) as [|x t] eqn:Er.
      * intros _. right. left. exact Hrest.
      * intros H. apply andb_prop in H. destruct H as [H _].
        apply ceqb_eq in H. subst x. right. right.
        rewrite Hrest. simpl. eauto.
    + destruct rest as [|x t]; [now left|].
      intros H. apply andb_prop in H. destruct H as [H _].
      apply ceqb_eq in H. subst x. right. right. eauto.
Qed.

(** What a string accepted by [HTML_OK] looks like. *)
Lemma internal_shape (o : str) :
  is_internal o = true ->
  exists p5 ph rest,
    o = p5 ++ ":"%char :: "/"%char :: "/"%char :: ph ++ rest /\
    ci_str_eqb (lit "https") p5 = true /\
    ci_str_eqb (lit "engsoftmoderna.info") ph = true /\
    (rest = [] \/ rest = [LF] \/ exists t, rest = "/"%char :: t).
Proof.
  unfold is_internal, HTML_OK_match.
  destruct (ci_prefix BASE o) as [rest|] eqn:E; [|discriminate].
  intros H. apply chomp_cases in H.
  apply ci_prefix_some in E. destruct E as (pre & -> & Hp).
  change BASE with (lit "https" ++ ":"%char :: "/"%char :: "/"%char
                      :: lit "engsoftmoderna.info") in Hp.
  apply ci_str_eqb_app_inv in Hp. destruct Hp as (p5 & t & -> & H5 & Ht).
  destruct t as [|c1 t]; [discriminate|]. cbn [ci_str_eqb] in Ht.
  apply andb_prop in Ht. destruct Ht as [E1 Ht].
  destruct t as [|c2 t]; [discriminate|]. cbn [ci_str_eqb] in Ht.
  apply andb_prop in Ht. destruct Ht as [E2 Ht].
  destruct t as [|c3 ph]; [discriminate|]. cbn [ci_str_eqb] in Ht.
  apply andb_prop in Ht. destruct Ht as [E3 Hh].
  apply ci_colon in E1. apply ci_slash in E2. apply ci_slash in E3. subst.
  exists p5, ph, rest. rewrite <- app_assoc. simpl. auto.
Qed.

Lemma ci_https_chars (p5 : str) :
  ci_str_eqb (lit "https") p5 = true ->
  forall c, In c p5 -> c <> ":"%char /\ c <> "/"%char.
Proof.
  intros H c Hc. destruct (ci_str_eqb_in _ _ H c Hc) as (p & Hp & Hpc).
  destruct (is_ascii c) eqn:Ea.
  - apply https_char. exact (ci_in_lower _ _ _ Hp Hpc Ea).
  - destruct c as [a|n]; [|split; discriminate].
    rewrite ci_eqb_low in Hpc. apply ceqb_eq in Hpc.
    apply https_char. rewrite <- Hpc. apply has_char_iff.
    change (lit "https") with (lower (lit "https")). unfold lower.
    now apply in_map.
Qed.

Lemma ci_host_chars (ph : str) :
  ci_str_eqb (lit "engsoftmoderna.info") ph = true ->
  forall c, In c ph ->
            is_delim c = false /\ c <> "["%char /\ c <> "]"%char /\ c <> LF.
Proof.
  intros H c Hc. destruct (ci_str_eqb_in _ _ H c Hc) as (p & Hp & Hpc).
  destruct c as [a|n]; [|repeat split; discriminate].
  rewrite ci_eqb_low in Hpc. apply ceqb_eq in Hpc.
  apply host_char. rewrite <- Hpc. apply has_char_iff.
  change (lit "engsoftmoderna.info")
    with (lower (lit "engsoftmoderna.info")). unfold lower.
  now apply in_map.
Qed.

(** A lower-case scheme that the pattern matches is [https] itself. *)
Lemma ci_https_exact (sch : str) :
  ci_str_eqb (lit "https") sch = true ->
  Forall (fun c => has_char c scheme_chars = true) sch ->
  lower sch = sch -> sch = lit "https".
Proof.
  intros H Hsc Hlow. rewrite <- Hlow.
  change (lit "https") with (lower (lit "https")).
  apply ci_str_eqb_ascii; trivial.
  apply forallb_forall. intros c Hc. rewrite Forall_forall in Hsc.
  now apply scheme_char_ascii, Hsc.
Qed.

Lemma urlunparse_without_query (u : ParseResult) :
  urlunparse (without_query u) =
    let pwp := path_with_params u in
    let body :=
      if nonempty (netloc u) then
        "/"%char :: "/"%char :: netloc u ++
        (if nonempty pwp && negb (startswith (lit "/") pwp)
         then "/"%char :: pwp else pwp)
      else if startswith (lit "//") pwp then "/"%char :: "/"%char :: pwp
      else if nonempty (scheme u) && mem (scheme u) uses_netloc
              && (negb (nonempty pwp) || startswith (lit "/") pwp)
           then "/"%char :: "/"%char :: pwp
           else pwp in
    if nonempty (scheme u) then scheme u ++ ":"%char :: body else body.
Proof. reflexivity. Qed.

Lemma slashed_head (pwp : str) :
  let P := if nonempty pwp && negb (startswith (lit "/") pwp)
           then "/"%char :: pwp else pwp in
  P = [] \/ exists c t, P = c :: t /\ is_delim c = true.
Proof.
  cbv zeta. destruct pwp as [|c t]; [now left|]. right.
  destruct (startswith (lit "/") (c :: t)) eqn:E; cbn [nonempty negb andb].
  - apply startswith_slash in E. destruct E as (t' & [= -> ->]).
    exists "/"%char, t'. now split.
  - exists "/"%char, (c :: t). now split.
Qed.

Lemma path_with_params_in (u : ParseResult) (c : char) :
  In c (path_with_params u) ->
  In c (path u ++ params u) \/ c = ";"%char.
Proof.
  unfold path_with_params. destruct (nonempty (params u)); intros H.
  - apply in_app_or in H. rewrite in_app_iff. simpl in H. intuition.
  - left. apply in_or_app. now left.
Qed.

Lemma colon_split_unique (a a' b b' : str) :
  ~ In ":"%char a -> ~ In ":"%char a' ->
  a ++ ":"%char :: b = a' ++ ":"%char :: b' -> a = a' /\ b = b'.
Proof.
  intros Ha Ha' E.
  pose proof (partition_at_app ":" a b Ha) as H1.
  pose proof (partition_at_app ":" a' b' Ha') as H2.
  rewrite E, H2 in H1. now injection H1 as -> ->.
Qed.

Lemma span_unique (a a' b b' : str) :
  (forall c, In c a -> is_delim c = false) ->
  (forall c, In c a' -> is_delim c = false) ->
  (b = [] \/ exists c t, b = c :: t /\ is_delim c = true) ->
  (b' = [] \/ exists c t, b' = c :: t /\ is_delim c = true) ->
  a ++ b = a' ++ b' -> a = a' /\ b = b'.
Proof.
  intros Ha Ha' Hb Hb' E.
  pose proof (@span_until_app is_delim a b Ha Hb) as H1.
  pose proof (@span_until_app is_delim a' b' Ha' Hb') as H2.
  rewrite E, H2 in H1. now injection H1 as -> ->.
Qed.

(** A parse result with a scheme whose rebuilt URL [HTML_OK] accepts has
    the scheme [https] and a host that the pattern matches. *)
Lemma internal_origin (u : ParseResult) :
  parsed_ok u -> scheme u <> [] ->
  is_internal (urlunparse (without_query u)) = true ->
  scheme u = lit "https" /\
  ci_str_eqb (lit "engsoftmoderna.info") (netloc u) = true.
Proof.
  intros Hok Hsch Hint.
  destruct (@internal_shape _ Hint)
    as (p5 & ph & rest & Ho & H5 & Hh & Hrest).
  assert (Hcolon : ~ In ":"%char p5).
  { intros Hin. now destruct (ci_https_chars _ H5 _ Hin). }
  assert (Hph : forall c, In c ph -> is_delim c = false /\ c <> LF).
  { intros c Hc. destruct (ci_host_chars _ Hh c Hc) as (? & _ & _ & ?).
    now split. }
  assert (Hph0 : exists c1 ph', ph = c1 :: ph' /\ c1 <> "/"%char).
  { destruct ph as [|c1 ph']; [discriminate|]. exists c1, ph'.
    split; trivial. intros ->.
    destruct (Hph "/"%char (or_introl eq_refl)). discriminate. }
  rewrite urlunparse_without_query in Ho. cbv zeta in Ho.
  set (pwp := path_with_params u) in *.
  set (P := if nonempty pwp && negb (startswith (lit "/") pwp)
            then "/"%char :: pwp else pwp) in *.
  assert (HP : forall c, In c P -> c = "/"%char \/ In c pwp).
  { intros c Hc. subst P.
    destruct (nonempty pwp && negb (startswith (lit "/") pwp)); auto.
    destruct Hc as [<-|?]; auto. }
  assert (HP0 : P = [] \/ exists c t, P = c :: t /\ is_delim c = true)
    by apply slashed_head.
  clearbody P.
  apply nonempty_iff in Hsch. rewrite Hsch in Ho.
  destruct (ok_scheme Hok) as [E|[Hsc Hlow]];
    [rewrite E in Hsch; discriminate|].
  assert (Hnc : ~ In ":"%char (scheme u)).
  { intros Hin. rewrite Forall_forall in Hsc. apply Hsc in Hin.
    apply scheme_char_not_special in Hin. destruct Hin as [Hin _].
    congruence. }
  apply colon_split_unique in Ho; trivial. destruct Ho as [Hs Hb].
  assert (Hhttps : scheme u = lit "https").
  { apply ci_https_exact; trivial. now rewrite Hs. }
  split; [exact Hhttps|]. cbn [andb] in Hb.
  destruct (nonempty (netloc u)) eqn:En.
  - assert (Hb' : netloc u ++ P = ph ++ rest) by congruence.
    assert (Hlf : ~ In LF (netloc u ++ P)).
    { destruct (ok_unsafe Hok) as (_ & _ & Hlf). intros Hin.
      assert (Hin' : In LF (netloc u) \/ In LF pwp).
      { apply in_app_or in Hin. destruct Hin as [?|Hin]; [now left|].
        right. apply HP in Hin. destruct Hin; [discriminate | trivial]. }
      destruct Hin' as [Hin'|Hin'].
      - apply Hlf. apply in_or_app. now left.
      - apply path_with_params_in in Hin'.
        destruct Hin' as [Hin'|?]; [|discriminate].
        apply Hlf. apply in_or_app. now right. }
    assert (Hrest' : rest = [] \/
                     exists c t, rest = c :: t /\ is_delim c = true).
    { destruct Hrest as [->|[->|(t & ->)]]; [now left | | right].
      - exfalso. apply Hlf. rewrite Hb'. apply in_or_app. right. now left.
      - exists "/"%char, t. now split. }
    assert (Hph' : forall c, In c ph -> is_delim c = false)
      by (intros c Hc; now apply Hph).
    destruct (@span_unique (netloc u) ph P rest (ok_netloc Hok) Hph'
                HP0 Hrest' Hb') as [E _].
    rewrite E. exact Hh.
  - exfalso. destruct Hph0 as (c1 & ph' & -> & Hc1).
    destruct (startswith (lit "//") pwp) eqn:E2.
    + assert (Hpw : pwp = (c1 :: ph') ++ rest) by congruence.
      apply startswith_iff in E2. destruct E2 as (t & E2).
      rewrite E2 in Hpw. injection Hpw as Hpw _. now symmetry in Hpw.
    + destruct (mem (scheme u) uses_netloc
                && (negb (nonempty pwp) || startswith (lit "/") pwp)) eqn:E3.
      * assert (Hpw : pwp = (c1 :: ph') ++ rest) by congruence.
        apply andb_prop in E3. destruct E3 as [_ E3].
        rewrite Hpw in E3. cbn [app nonempty negb orb] in E3.
        apply startswith_slash in E3. destruct E3 as (t & E3). congruence.
      * assert (E : startswith (lit "//") pwp = true).
        { apply startswith_iff. rewrite Hb. now eexists. }
        congruence.
Qed.

Lemma origin_matches_internal (u : ParseResult) :
  parsed_ok u -> scheme u <> [] ->
  is_internal (urlunparse (without_query u)) = true ->
  origin_matches u = true.
Proof.
  intros Hok Hsch Hint. destruct (internal_origin Hok Hsch Hint) as [Hs Hn].
  unfold origin_matches, origin. rewrite Hs.
  change BASE with (lit "https://" ++ lit "engsoftmoderna.info").
  change (lit "https" ++ lit "://" ++ netloc u)
    with (lit "https://" ++ netloc u).
  now apply ci_str_eqb_app.
Qed.

(** On an ASCII host the pattern matches the configured origin and its
    other letter cases only. *)
Lemma origin_matches_ascii (u : ParseResult) :
  origin_matches u = true -> forallb is_ascii (netloc u) = true ->
  forallb is_ascii (scheme u) = true -> same_origin u = true.
Proof.
  intros Hm Hn Hs. unfold same_origin. apply str_eqb_true_iff.
  apply ci_str_eqb_ascii; trivial.
  unfold origin. rewrite !forallb_app, Hs, Hn. reflexivity.
Qed.

Lemma internal_same_origin (u : ParseResult) :
  parsed_ok u -> scheme u <> [] ->
  forallb is_ascii (netloc u) = true ->
  is_internal (urlunparse (without_query u)) = true ->
  same_origin u = true.
Proof.
  intros Hok Hsch Ha Hint.
  apply origin_matches_ascii; trivial.
  - now apply origin_matches_internal.
  - destruct (internal_origin Hok Hsch Hint) as [Hs _]. now rewrite Hs.
Qed.

Lemma rebuilt_chars (u : ParseResult) (c : char) :
  In c (urlunparse (without_query u)) ->
  In c (scheme u) \/ In c (netloc u) \/ In c (path u ++ params u) \/
  c = ":"%char \/ c = "/"%char \/ c = ";"%char.
Proof.
  rewrite urlunparse_without_query. cbv zeta.
  set (pwp := path_with_params u).
  assert (Hp : In c pwp -> In c (path u ++ params u) \/ c = ";"%char)
    by apply path_with_params_in.
  assert (Hbody : forall body,
    (In c body -> In c (netloc u) \/ In c pwp \/ c = "/"%char) ->
    In c (if nonempty (scheme u) then scheme u ++ ":"%char :: body else body) ->
    In c (scheme u) \/ In c (netloc u) \/ In c (path u ++ params u) \/
    c = ":"%char \/ c = "/"%char \/ c = ";"%char).
  { intros body Hb H.
    assert (H' : In c (scheme u) \/ c = ":"%char \/ In c body).
    { destruct (nonempty (scheme u)); [|tauto].
      apply in_app_or in H. destruct H as [?|[<-|?]]; tauto. }
    tauto. }
  apply Hbody. intros H.
  destruct (nonempty (netloc u)).
  - destruct H as [<-|[<-|H]]; try tauto. apply in_app_or in H.
    destruct H as [?|H]; try tauto.
    destruct (nonempty pwp && negb (startswith (lit "/") pwp)); try tauto.
    destruct H as [<-|?]; tauto.
  - destruct (startswith (lit "//") pwp).
    + destruct H as [<-|[<-|H]]; tauto.
    + destruct (nonempty (scheme u) && mem (scheme u) uses_netloc
                && (negb (nonempty pwp) || startswith (lit "/") pwp));
        try tauto.
      destruct H as [<-|[<-|H]]; tauto.
Qed.

Lemma rebuilt_has_no_query (u : ParseResult) :
  parsed_ok u ->
  ~ In "?"%char (urlunparse (without_query u)) /\
  ~ In "#"%char (urlunparse (without_query u)).
Proof.
  intros Hok.
  assert (H : forall c, (c = "?"%char \/ c = "#"%char) ->
                        ~ In c (urlunparse (without_query u))).
  { intros c Hc Hin. apply rebuilt_chars in Hin.
    destruct Hin as [Hin|[Hin|[Hin|Hin]]].
    - destruct (ok_scheme Hok) as [E|[Hsc _]];
        [rewrite E in Hin; contradiction|].
      rewrite Forall_forall in Hsc. apply Hsc in Hin.
      apply scheme_char_not_special in Hin.
      destruct Hin as (_ & _ & H1 & H2 & _). destruct Hc; congruence.
    - apply (ok_netloc Hok) in Hin. destruct Hc as [->| ->]; discriminate.
    - apply (ok_path Hok) in Hin. destruct Hin. destruct Hc; congruence.
    - destruct Hc as [->| ->]; destruct Hin as [?|[?|?]]; discriminate. }
  split; apply H; auto.
Qed.

Section NormalizerFacts.

Variable bracketed_netloc_ok nfkc_netloc_ok : str -> bool.

Local Abbreviation urlparse' :=
  (urlparse bracketed_netloc_ok nfkc_netloc_ok).
Local Abbreviation urljoin' :=
  (urljoin bracketed_netloc_ok nfkc_netloc_ok).
Local Abbreviation normalize' :=
  (normalize bracketed_netloc_ok nfkc_netloc_ok).
Local Abbreviation resolve' :=
  (resolve bracketed_netloc_ok nfkc_netloc_ok).

(** ** The scheme of a joined URL *)

Lemma urlparse_checked (url d : str) (u : ParseResult) :
  urlparse' url d = Some u -> checknetloc nfkc_netloc_ok (netloc u) = true.
Proof.
  unfold urlparse, urlsplit.
  destruct (split_scheme _ _) as [sch rest1].
  destruct (split_netloc bracketed_netloc_ok rest1) as [[nl rest2]|];
    simpl; [|discriminate].
  destruct (cut_at "#" rest2) as [x frag]. simpl.
  destruct (cut_at "?" x) as [y qry]. simpl.
  destruct (checknetloc nfkc_netloc_ok nl) eqn:E; [|discriminate].
  simpl.
  destruct (if mem sch uses_params && has_char ";" y
            then splitparams y else (y, [])).
  intros [= <-]. exact E.
Qed.

Lemma urlparse_scheme (url d : str) (u : ParseResult) :
  urlparse' url d = Some u ->
  exists rest1,
    split_scheme (remove_unsafe (strip c0_or_space d))
                 (remove_unsafe (lstrip c0_or_space url))
    = (scheme u, rest1).
Proof.
  unfold urlparse.
  destruct (urlsplit bracketed_netloc_ok nfkc_netloc_ok url d) as [r|] eqn:E;
    simpl; [|discriminate].
  destruct (@urlsplit_some _ _ url d r E) as (rest1 & _ & Hs & _).
  destruct (if mem (s_scheme r) uses_params && has_char ";" (s_path r)
            then splitparams (s_path r) else (s_path r, [])).
  intros [= <-]. now exists rest1.
Qed.

Lemma urlunparse_head (x : ParseResult) :
  scheme x <> [] -> exists tail, urlunparse x = scheme x ++ ":"%char :: tail.
Proof.
  intros H. apply nonempty_iff in H.
  unfold urlunparse, urlunsplit.
  cbn [s_scheme s_netloc s_path s_query s_fragment]. rewrite H.
  destruct (nonempty (query x)), (nonempty (fragment x));
    rewrite <- ?app_assoc, <- ?app_comm_cons, <- ?app_assoc;
    eexists; reflexivity.
Qed.

Lemma parse_https_head (tail d : str) (u : ParseResult) :
  urlparse' (lit "https" ++ ":"%char :: tail) d = Some u ->
  scheme u = lit "https".
Proof.
  intros H. apply urlparse_scheme in H. destruct H as (rest1 & H).
  assert (E : remove_unsafe
                (lstrip c0_or_space (lit "https" ++ ":"%char :: tail))
              = lit "https" ++ ":"%char :: remove_unsafe tail)
    by reflexivity.
  rewrite E, scheme_found in H;
    [|vm_compute; intuition discriminate | reflexivity].
  now injection H as <- _.
Qed.

(** Whatever [urljoin] makes of a link against the configured origin
    parses with a scheme. *)
Lemma joined_scheme (href absu : str) (u : ParseResult) :
  urljoin' BASE href = Some absu -> urlparse' absu [] = Some u ->
  scheme u <> [].
Proof.
  intros H Hu. unfold urljoin in H.
  change (nonempty BASE) with true in H. cbn [negb] in H.
  assert (Hb : urlparse' BASE [] =
               Some (mkParse (lit "https") (lit "engsoftmoderna.info")
                             [] [] [] []))
    by (vm_compute; reflexivity).
  destruct (nonempty href); cbn [negb] in H.
  2:{ injection H as <-. rewrite Hb in Hu. injection Hu as <-. discriminate. }
  rewrite Hb in H. unfold bind in H. cbn [scheme netloc path params query] in H.
  destruct (urlparse' href (lit "https")) as [u'|] eqn:Eu'; [|discriminate].
  assert (Hhttps : forall x, scheme x = lit "https" ->
                             absu = urlunparse x -> scheme u <> []).
  { intros x Hx ->.
    destruct (@urlunparse_head x) as (tail & Et);
      [rewrite Hx; discriminate|].
    rewrite Et, Hx in Hu. rewrite (parse_https_head _ _ Hu). discriminate. }
  destruct (str_eqb (scheme u') (lit "https")) eqn:Es.
  - apply str_eqb_true_iff in Es. rewrite Es in H.
    change (mem (lit "https") uses_relative) with true in H.
    change (mem (lit "https") uses_netloc) with true in H.
    cbn [negb orb andb] in H.
    destruct (nonempty (netloc u')).
    + injection H as <-. now apply (Hhttps u').
    + destruct (negb (nonempty (path u')) && negb (nonempty (params u')));
        injection H as <-; (eapply Hhttps; [|reflexivity]; reflexivity).
  - cbn [negb orb] in H. injection H as <-.
    destruct (urlparse_scheme _ _ Eu') as (r1 & E1).
    destruct (urlparse_scheme _ _ Hu) as (r2 & E2).
    change (remove_unsafe (strip c0_or_space (lit "https")))
      with (lit "https") in E1.
    set (u0 := remove_unsafe (lstrip c0_or_space href)) in *.
    destruct (split_scheme_cases (lit "https") u0)
      as [[_ E]|(pre & post & Eu0 & Hn & Ht & _)].
    + rewrite E in E1. injection E1 as E1 _. rewrite <- E1 in Es.
      discriminate.
    + rewrite Eu0, (@scheme_found _ pre post Hn Ht) in E2.
      injection E2 as E2 _. rewrite <- E2.
      destruct pre; [discriminate Ht|discriminate].
Qed.

(** What a non-empty result of the normalizer is made of. *)
Lemma normalize_some (href o : str) :
  normalize' href = Some o -> o <> [] ->
  exists absu u,
    urljoin' BASE (strip is_space href) = Some absu /\
    urlparse' absu [] = Some u /\
    o = urlunparse (without_query u) /\
    is_internal o = true /\
    existsb (fun e => endswith e (lower o)) SKIP_EXTS = false.
Proof.
  intros H Hne. unfold normalize in H.
  destruct (nonempty href); cbn [negb] in H; [|congruence].
  destruct (startswith (lit "#") (strip is_space href)); [congruence|].
  destruct (urljoin' BASE (strip is_space href)) as [absu|] eqn:Ej;
    unfold bind in H; [|discriminate].
  destruct (urlparse' absu []) as [u|] eqn:Eu; [|discriminate].
  destruct (is_internal (urlunparse (without_query u))) eqn:Ei;
    cbn [negb] in H; [|congruence].
  destruct (existsb _ SKIP_EXTS) eqn:Ee; [congruence|].
  injection H as <-. exists absu, u. auto.
Qed.


(** ** Parsing a normalized URL again *)

Lemma rcut_at_none_inv (c : char) (s : str) :
  rcut_at c s = None -> ~ In c s.
Proof.
  unfold rcut_at.
  destruct (partition_at c (rev s)) as [[a b]|] eqn:E; [discriminate|].
  intros _. apply partition_at_none in E. now rewrite in_rev.
Qed.

Lemma remove_unsafe_id (s : str) : unsafe_free s -> remove_unsafe s = s.
Proof.
  intros (H1 & H2 & H3). unfold remove_unsafe.
  now rewrite (@remove_char_absent TAB s H1), (@remove_char_absent CR s H2),
              (@remove_char_absent LF s H3).
Qed.

Lemma params_roundtrip (u : ParseResult) :
  last_segment_plain (path u) ->
  (forall c, In c (params u) -> c <> "/"%char) ->
  (if has_char ";" (path_with_params u)
   then splitparams (path_with_params u)
   else (path_with_params u, [])) = (path u, params u).
Proof.
  intros Hseg Hpar. unfold path_with_params.
  destruct (params u) as [|c ps] eqn:Eps; cbn [nonempty].
  - destruct (has_char ";" (path u)) eqn:Eh; trivial.
    apply has_char_iff in Eh. unfold splitparams.
    destruct (rcut_at "/" (path u)) as [[h t]|] eqn:Er.
    + apply rcut_at_some in Er. destruct Er as (h' & -> & Ep & Ht).
      assert (Hn : ~ In ";"%char t).
      { apply (Hseg (h' ++ ["/"%char]) t); trivial.
        now rewrite <- app_assoc. }
      apply partition_at_none in Hn. now rewrite Hn.
    + exfalso. apply rcut_at_none_inv in Er.
      now apply (Hseg [] (path u) eq_refl Er).
  - assert (Hsemi : has_char ";" (path u ++ ";"%char :: c :: ps) = true).
    { apply has_char_iff, in_or_app. right. now left. }
    rewrite Hsemi. unfold splitparams.
    assert (Hps : ~ In "/"%char (";"%char :: c :: ps)).
    { intros [?|H]; [discriminate|]. now apply (Hpar _ H). }
    destruct (rcut_at "/" (path u)) as [[h t]|] eqn:Er.
    + apply rcut_at_some in Er. destruct Er as (h' & -> & Ep & Ht).
      assert (Hn : ~ In ";"%char t).
      { apply (Hseg (h' ++ ["/"%char]) t); trivial.
        now rewrite <- app_assoc. }
      rewrite Ep, <- app_assoc. cbn [app].
      change ("/"%char :: t ++ ";"%char :: c :: ps)
        with ("/"%char :: (t ++ ";"%char :: c :: ps)).
      rewrite rcut_at_app.
      * rewrite partition_at_app by exact Hn.
        now rewrite <- app_assoc.
      * intros H. apply in_app_or in H. destruct H; contradiction.
    + apply rcut_at_none_inv in Er.
      rewrite rcut_at_none.
      * rewrite partition_at_app; trivial.
        now apply (Hseg [] (path u) eq_refl Er).
      * intros H. apply in_app_or in H. destruct H; contradiction.
Qed.

(** A URL rebuilt from a parse result under the configured origin is the
    origin followed by the path and its parameters. *)
Lemma rebuilt_internal (u : ParseResult) :
  parsed_ok u -> scheme u = lit "https" -> netloc u <> [] ->
  urlunparse (without_query u)
  = lit "https" ++ ":"%char :: "/"%char :: "/"%char
      :: netloc u ++ path_with_params u /\
  (path_with_params u = [] \/
   exists t, path_with_params u = "/"%char :: t).
Proof.
  intros Hok Hs Hn. rewrite urlunparse_without_query. cbv zeta.
  rewrite Hs. apply nonempty_iff in Hn as Hn'. rewrite Hn'.
  change (nonempty (lit "https")) with true. cbv iota.
  assert (Hp : path_with_params u = [] \/
               exists t, path_with_params u = "/"%char :: t).
  { destruct (ok_authority Hok Hn) as [[Ep Eq]|Ep].
    - left. unfold path_with_params. now rewrite Ep, Eq.
    - right. apply startswith_slash in Ep. destruct Ep as (t & Ep).
      unfold path_with_params. rewrite Ep.
      destruct (nonempty (params u)); simpl; eauto. }
  split; trivial.
  destruct Hp as [->|(t & ->)]; reflexivity.
Qed.

Lemma reparse (u : ParseResult) (d : str) :
  parsed_ok u -> scheme u = lit "https" ->
  ci_str_eqb (lit "engsoftmoderna.info") (netloc u) = true ->
  checknetloc nfkc_netloc_ok (netloc u) = true ->
  urlparse' (urlunparse (without_query u)) d = Some (without_query u).
Proof.
  intros Hok Hs Hh Hck.
  assert (Hn : netloc u <> []) by (intros E; rewrite E in Hh; discriminate).
  assert (Hnl : forall c, In c (netloc u) ->
                c <> "["%char /\ c <> "]"%char).
  { intros c Hc. apply (ci_host_chars _ Hh) in Hc. tauto. }
  destruct (rebuilt_internal Hok Hs Hn) as [Ho Hp].
  set (pwp := path_with_params u) in *.
  assert (Hpw : forall c, In c pwp ->
                c <> "?"%char /\ c <> "#"%char /\
                c <> TAB /\ c <> CR /\ c <> LF).
  { intros c Hc. apply path_with_params_in in Hc.
    destruct Hc as [Hc| ->]; [|repeat split; discriminate].
    destruct (ok_path Hok _ Hc) as [H1 H2].
    destruct (ok_unsafe Hok) as (H3 & H4 & H5).
    assert (Hc' : In c (netloc u ++ path u ++ params u))
      by (apply in_or_app; now right).
    repeat split; trivial; intros ->; contradiction. }
  assert (Hsafe : unsafe_free (urlunparse (without_query u))).
  { rewrite Ho. destruct (ok_unsafe Hok) as (H3 & H4 & H5).
    assert (H : forall c, c = TAB \/ c = CR \/ c = LF ->
                ~ In c (lit "https" ++ ":"%char :: "/"%char :: "/"%char
                          :: netloc u ++ pwp)).
    { intros c Hc Hin. apply in_app_or in Hin.
      destruct Hin as [Hin|[<-|[<-|[<-|Hin]]]].
      - vm_compute in Hin. destruct Hc as [-> | [-> | ->]];
          repeat destruct Hin as [Hin|Hin]; try discriminate; trivial.
      - destruct Hc as [?|[?|?]]; discriminate.
      - destruct Hc as [?|[?|?]]; discriminate.
      - destruct Hc as [?|[?|?]]; discriminate.
      - apply in_app_or in Hin. destruct Hin as [Hin|Hin].
        + assert (Hin' : In c (netloc u ++ path u ++ params u))
            by (apply in_or_app; now left).
          destruct Hc as [-> | [-> | ->]]; contradiction.
        + apply Hpw in Hin. destruct Hin as (_ & _ & ? & ? & ?).
          destruct Hc as [?|[?|?]]; contradiction. }
    repeat split; apply H; auto. }
  unfold urlparse, urlsplit.
  rewrite Ho at 1. unfold lstrip.
  change (dropwhile c0_or_space
            (lit "https" ++ ":"%char :: "/"%char :: "/"%char :: netloc u ++ pwp))
    with (lit "https" ++ ":"%char :: "/"%char :: "/"%char :: netloc u ++ pwp).
  rewrite <- Ho, (remove_unsafe_id Hsafe), Ho.
  rewrite scheme_found; [|vm_compute; intuition discriminate | reflexivity].
  rewrite split_netloc_app.
  - unfold bind.
    assert (Hnq : ~ In "?"%char pwp) by (intros H; now apply Hpw in H).
    assert (Hnf : ~ In "#"%char pwp) by (intros H; now apply Hpw in H).
    rewrite (@cut_at_absent "#" pwp Hnf). cbv iota.
    rewrite (@cut_at_absent "?" pwp Hnq). cbv iota.
    rewrite Hck. cbn [s_scheme s_netloc s_path s_query s_fragment].
    change (mem (lower (lit "https")) uses_params) with true.
    cbn [andb]. unfold pwp.
    assert (Hseg : last_segment_plain (path u)).
    { apply (ok_segment Hok). rewrite Hs. reflexivity. }
    rewrite (@params_roundtrip u Hseg (ok_params Hok)).
    unfold without_query. now rewrite Hs.
  - apply (ok_netloc Hok).
  - destruct Hp as [->|(t & ->)]; [now left|]. right.
    exists "/"%char, t. now split.
  - intros H. now apply Hnl in H.
  - intros H. now apply Hnl in H.
Qed.

(** C8 (as amended). A non-empty URL returned by the normalizer that does
    not end (or start) with white space is returned unchanged when it is
    normalized again. *)
Theorem normalize_idempotent (href o : str) :
  normalize' href = Some o -> o <> [] -> strip is_space o = o ->
  normalize' o = Some o.
Proof.
  intros Hnorm Hne Hstrip.
  destruct (@normalize_some href o Hnorm Hne)
    as (absu & u & Hj & Hu & Ho & Hint & Hskip).
  pose proof (joined_scheme _ Hj Hu) as Hsch.
  pose proof (urlparse_checked _ _ Hu) as Hck.
  apply urlparse_ok in Hu. subst o.
  destruct (internal_origin Hu Hsch Hint) as [Hs Hh].
  assert (Hn : netloc u <> []) by (intros E; rewrite E in Hh; discriminate).
  pose proof (fun d => @reparse u d Hu Hs Hh Hck) as Hre.
  destruct (rebuilt_internal Hu Hs Hn) as [Hshape _].
  set (o := urlunparse (without_query u)) in *.
  assert (Hnonempty : nonempty o = true) by now apply nonempty_iff.
  assert (Hhash : startswith (lit "#") o = false)
    by (rewrite Hshape; reflexivity).
  assert (Hjoin : urljoin' BASE o = Some o).
  { unfold urljoin. change (nonempty BASE) with true. rewrite Hnonempty.
    cbn [negb].
    assert (Hb : urlparse' BASE [] =
                 Some (mkParse (lit "https") (lit "engsoftmoderna.info")
                               [] [] [] []))
      by (vm_compute; reflexivity).
    rewrite Hb. unfold bind. cbn [scheme]. rewrite Hre.
    unfold without_query at 1 2 3 4. cbn [scheme netloc]. rewrite Hs.
    change (str_eqb (lit "https") (lit "https")) with true.
    change (mem (lit "https") uses_relative) with true.
    change (mem (lit "https") uses_netloc) with true.
    apply nonempty_iff in Hn. rewrite Hn. reflexivity. }
  unfold normalize. rewrite Hnonempty, Hstrip, Hhash, Hjoin. cbn [negb].
  unfold bind. rewrite Hre.
  change (without_query (without_query u)) with (without_query u).
  fold o. rewrite Hint, Hskip. reflexivity.
Qed.

End NormalizerFacts.

(* ------------------------------------------------------------------ *)
(** * The normalizer: what it returns and when it raises *)

Lemma dropwhile_all (p : char -> bool) (s : str) :
  forallb p s = true -> dropwhile p s = [].
Proof.
  induction s as [|c s IH]; simpl; trivial.
  intros H. apply andb_true_iff in H. destruct H as [Hc Hs].
  rewrite Hc. now apply IH.
Qed.

Lemma strip_all (p : char -> bool) (s : str) :
  forallb p s = true -> strip p s = [].
Proof.
  intros H. unfold strip, rstrip, lstrip. now rewrite (dropwhile_all p s H).
Qed.

Lemma dropwhile_none (p : char -> bool) (s : str) :
  (forall c, In c s -> p c = false) -> dropwhile p s = s.
Proof.
  destruct s as [|c s]; trivial. intros H. simpl.
  now rewrite (H c (or_introl eq_refl)).
Qed.

Lemma strip_none (p : char -> bool) (s : str) :
  (forall c, In c s -> p c = false) -> strip p s = s.
Proof.
  intros H. unfold strip, rstrip, lstrip. rewrite (dropwhile_none p s H).
  rewrite dropwhile_none; [apply rev_involutive|].
  intros c Hc. apply H. now apply in_rev.
Qed.

Lemma dropwhile_app_last (p : char -> bool) (l : str) (c : char) :
  p c = false -> dropwhile p (l ++ [c]) = dropwhile p l ++ [c].
Proof.
  intros Hc. induction l as [|x l IH]; simpl; [now rewrite Hc|].
  destruct (p x); trivial.
Qed.

Lemma rstrip_cons (p : char -> bool) (c : char) (s : str) :
  p c = false -> rstrip p (c :: s) = c :: rstrip p s.
Proof.
  intros Hc. unfold rstrip. cbn [rev].
  now rewrite (@dropwhile_app_last p (rev s) c Hc), rev_app_distr.
Qed.

Lemma in_dropwhile (p : char -> bool) (c : char) (l : str) :
  In c (dropwhile p l) -> In c l.
Proof.
  induction l as [|x l IH]; simpl; trivial.
  destruct (p x); [right; now apply IH|trivial].
Qed.

Lemma in_dropwhile_kept (p : char -> bool) (c : char) (l : str) :
  p c = false -> In c l -> In c (dropwhile p l).
Proof.
  intros Hc. induction l as [|x l IH]; simpl; trivial.
  destruct (p x) eqn:E; trivial.
  intros [->|H]; [congruence|now apply IH].
Qed.

Lemma in_rstrip (p : char -> bool) (c : char) (s : str) :
  In c (rstrip p s) -> In c s.
Proof.
  unfold rstrip. intros H. apply in_rev in H. apply in_dropwhile in H.
  now apply in_rev.
Qed.

Lemma has_char_rstrip (p : char -> bool) (c : char) (s : str) :
  p c = false -> has_char c (rstrip p s) = has_char c s.
Proof.
  intros Hc. apply eq_iff_eq_true. rewrite !has_char_iff. split.
  - apply in_rstrip.
  - intros H. unfold rstrip. apply in_rev. rewrite rev_involutive.
    apply in_dropwhile_kept; trivial. now apply in_rev in H.
Qed.

Lemma plain_host_char_spec (c : char) :
  plain_host_char c = true ->
  is_delim c = false /\ c0_or_space c = false /\
  c <> TAB /\ c <> CR /\ c <> LF /\ c <> " "%char.
Proof. each_char c; repeat split; discriminate. Qed.

Section NormalizerShape.
Variable bracketed_netloc_ok nfkc_netloc_ok : str -> bool.

Local Abbreviation urlparse' := (urlparse bracketed_netloc_ok nfkc_netloc_ok).
Local Abbreviation urlsplit' := (urlsplit bracketed_netloc_ok nfkc_netloc_ok).
Local Abbreviation urljoin' := (urljoin bracketed_netloc_ok nfkc_netloc_ok).
Local Abbreviation normalize' := (normalize bracketed_netloc_ok nfkc_netloc_ok).
Local Abbreviation url_path' := (url_path bracketed_netloc_ok nfkc_netloc_ok).
Local Abbreviation parses' := (parses bracketed_netloc_ok nfkc_netloc_ok).

(** A URL rebuilt under the configured origin holds no character that
    [urlsplit] removes. *)
Lemma rebuilt_unsafe_free (u : ParseResult) :
  parsed_ok u -> scheme u = lit "https" -> netloc u <> [] ->
  unsafe_free (urlunparse (without_query u)).
Proof.
  intros Hok Hs Hn.
  destruct (rebuilt_internal Hok Hs Hn) as [Ho _]. rewrite Ho.
  destruct (ok_unsafe Hok) as (H3 & H4 & H5).
  assert (H : forall c, c = TAB \/ c = CR \/ c = LF ->
              ~ In c (lit "https" ++ ":"%char :: "/"%char :: "/"%char
                        :: netloc u ++ path_with_params u)).
  { intros c Hc Hin. apply in_app_or in Hin.
    destruct Hin as [Hin|[<-|[<-|[<-|Hin]]]].
    - vm_compute in Hin. destruct Hc as [-> | [-> | ->]];
        repeat destruct Hin as [Hin|Hin]; try discriminate; trivial.
    - destruct Hc as [?|[?|?]]; discriminate.
    - destruct Hc as [?|[?|?]]; discriminate.
    - destruct Hc as [?|[?|?]]; discriminate.
    - apply in_app_or in Hin. destruct Hin as [Hin|Hin].
      + assert (Hin' : In c (netloc u ++ path u ++ params u))
          by (apply in_or_app; now left).
        destruct Hc as [-> | [-> | ->]]; contradiction.
      + apply path_with_params_in in Hin.
        destruct Hin as [Hin| ->];
          [|destruct Hc as [?|[?|?]]; discriminate].
        assert (Hin' : In c (netloc u ++ path u ++ params u))
          by (apply in_or_app; now right).
        destruct Hc as [-> | [-> | ->]]; contradiction. }
  repeat split; apply H; auto.
Qed.

(** What a non-empty result of the normalizer parses to. *)
Lemma normalize_parts (href o : str) :
  normalize' href = Some o -> o <> [] ->
  exists u,
    parsed_ok u /\ scheme u = lit "https" /\
    ci_str_eqb (lit "engsoftmoderna.info") (netloc u) = true /\
    o = lit "https://" ++ netloc u ++ path_with_params u /\
    (path_with_params u = [] \/ exists t, path_with_params u = "/"%char :: t) /\
    (forall d, urlparse' o d = Some (without_query u)) /\
    unsafe_free o /\ is_internal o = true /\
    existsb (fun e => endswith e (lower o)) SKIP_EXTS = false.
Proof.
  intros Hnorm Hne.
  destruct (@normalize_some bracketed_netloc_ok nfkc_netloc_ok href o Hnorm Hne)
    as (absu & u & Hj & Hu & Ho & Hint & Hskip).
  pose proof (@joined_scheme _ _ _ _ _ Hj Hu) as Hsch.
  pose proof (@urlparse_checked _ _ _ _ _ Hu) as Hck.
  apply urlparse_ok in Hu. exists u.
  rewrite Ho in Hint.
  destruct (internal_origin Hu Hsch Hint) as [Hs Hh].
  assert (Hn : netloc u <> []) by (intros E; rewrite E in Hh; discriminate).
  destruct (rebuilt_internal Hu Hs Hn) as [Hshape Hp].
  split; [exact Hu|]. split; [exact Hs|]. split; [exact Hh|].
  split; [rewrite Ho; exact Hshape|]. split; [exact Hp|].
  split; [intros d; rewrite Ho; now apply reparse|].
  split; [rewrite Ho; now apply rebuilt_unsafe_free|].
  split; [now rewrite Ho|exact Hskip].
Qed.

(** X1. A non-empty result of the normalizer is the lower-case scheme
    [https://], then a host that the pattern [HTML_OK] takes for the
    configured one (letter case apart, and U+0130 or U+0131 standing for
    [i], U+017F for [s]), so equal to the configured one up to letter case
    when it is ASCII, then nothing or a text that starts with a slash; it
    holds no tab, carriage return or line feed, [HTML_OK] accepts it, and
    its lower-case form ends with none of the skipped extensions. *)
Theorem normalize_output_shape (href o : str) :
  normalize' href = Some o -> o <> [] ->
  exists host rest,
    o = lit "https://" ++ host ++ rest /\
    ci_str_eqb (lit "engsoftmoderna.info") host = true /\
    (forallb is_ascii host = true ->
     lower host = lit "engsoftmoderna.info") /\
    (rest = [] \/ startswith (lit "/") rest = true) /\
    unsafe_free o /\
    is_internal o = true /\
    (forall e, In e SKIP_EXTS -> endswith e (lower o) = false).
Proof.
  intros Hnorm Hne.
  destruct (@normalize_parts href o Hnorm Hne)
    as (u & _ & _ & Hh & Ho & Hp & _ & Hsafe & Hint & Hskip).
  exists (netloc u), (path_with_params u).
  split; [exact Ho|]. split; [exact Hh|].
  split; [intros Ha; exact (ci_str_eqb_ascii _ _ Hh Ha)|].
  split.
  { destruct Hp as [Hp|(t & Hp)]; [now left|right].
    apply startswith_slash. eauto. }
  split; [exact Hsafe|]. split; [exact Hint|].
  intros e He.
  destruct (endswith e (lower o)) eqn:E; trivial.
  assert (X : existsb (fun e => endswith e (lower o)) SKIP_EXTS = true)
    by (apply existsb_exists; eauto).
  congruence.
Qed.

(** X2. An href that is not empty but holds white space only is taken for
    a link to the site itself: the normalizer returns the configured origin
    (while the empty href gives the empty string). *)
Theorem normalize_blank_href (href : str) :
  href <> [] -> forallb is_space href = true ->
  normalize' href = Some BASE.
Proof.
  intros Hne Hsp. unfold normalize.
  apply nonempty_iff in Hne. rewrite Hne. cbn [negb].
  rewrite (strip_all is_space href Hsp).
  vm_compute. reflexivity.
Qed.

(** X3. An href made of two slashes and a host in which exactly one of the
    two square brackets occurs makes the normalizer raise: the [ValueError]
    of [urlsplit] leaves [urljoin] and nothing catches it. *)
Theorem normalize_raises_on_unbalanced_bracket (nl : str) :
  forallb plain_host_char nl = true ->
  has_char "[" nl = negb (has_char "]" nl) ->
  normalize' (lit "//" ++ nl) = None.
Proof.
  intros Hall Hbr.
  unfold normalize. change (nonempty (lit "//" ++ nl)) with true. cbn [negb].
  assert (Hstrip : strip is_space (lit "//" ++ nl)
                   = lit "//" ++ rstrip is_space nl).
  { unfold strip.
    change (lstrip is_space (lit "//" ++ nl)) with ("/"%char :: "/"%char :: nl).
    now rewrite !rstrip_cons by reflexivity. }
  rewrite Hstrip. clear Hstrip.
  assert (Hc : forall c, In c (rstrip is_space nl) ->
                 is_delim c = false /\ c0_or_space c = false /\
                 c <> TAB /\ c <> CR /\ c <> LF /\ c <> " "%char).
  { intros c Hc. apply plain_host_char_spec. apply in_rstrip in Hc.
    now apply (proj1 (forallb_forall _ _) Hall). }
  rewrite <- (@has_char_rstrip is_space "[" nl eq_refl),
          <- (@has_char_rstrip is_space "]" nl eq_refl) in Hbr.
  clear Hall. revert Hc Hbr. generalize (rstrip is_space nl).
  clear nl. intros nl Hc Hbr.
  change (startswith (lit "#") (lit "//" ++ nl)) with false. cbv iota.
  unfold urljoin. change (nonempty BASE) with true.
  change (nonempty (lit "//" ++ nl)) with true. cbn [negb]. cbv iota.
  assert (Hb : urlparse' BASE [] =
               Some (mkParse (lit "https") (lit "engsoftmoderna.info")
                             [] [] [] []))
    by (vm_compute; reflexivity).
  rewrite Hb. unfold bind at 2. cbn [scheme].
  assert (Hu : urlparse' (lit "//" ++ nl) (lit "https") = None).
  { unfold urlparse, urlsplit.
    change (lstrip c0_or_space (lit "//" ++ nl)) with (lit "//" ++ nl).
    assert (Hsafe : unsafe_free (lit "//" ++ nl)).
    { repeat split; intros [E|[E|H]]; try discriminate;
        apply Hc in H; destruct H as (_ & _ & ? & ? & ? & _); congruence. }
    rewrite (remove_unsafe_id Hsafe).
    set (dflt := remove_unsafe (strip c0_or_space (lit "https"))).
    assert (Hsch : split_scheme dflt (lit "//" ++ nl)
                   = (dflt, lit "//" ++ nl)).
    { destruct (split_scheme_cases dflt (lit "//" ++ nl))
        as [[_ E]|(pre & post & E & _ & Ht & _)]; trivial.
      destruct pre as [|c pre]; [discriminate|].
      injection E as <- _. discriminate. }
    rewrite Hsch. unfold split_netloc.
    change (startswith (lit "//") (lit "//" ++ nl)) with true. cbv iota.
    change (skipn 2 (lit "//" ++ nl)) with nl.
    assert (Hspan : span_until is_delim nl = (nl, [])).
    { rewrite <- (app_nil_r nl) at 1. apply span_until_app.
      - intros c H. now apply Hc in H.
      - now left. }
    rewrite Hspan, Hbr.
    destruct (has_char "]" nl); reflexivity. }
  now rewrite Hu.
Qed.

(** X4. On a non-empty result of the normalizer [url_path] returns: the
    result is [https://], a host and a tail, and the path is ["/"] when the
    tail is empty, and otherwise starts with a slash and is the tail itself
    or the tail up to the semicolon that opens the parameters of its last
    segment. *)
Theorem normalized_url_path (href o : str) :
  normalize' href = Some o -> o <> [] ->
  exists host p tail,
    o = lit "https://" ++ host ++ tail /\
    url_path' o = Some p /\
    ((tail = [] /\ p = lit "/") \/
     (startswith (lit "/") p = true /\
      (tail = p \/ exists prm, tail = p ++ ";"%char :: prm))).
Proof.
  intros Hnorm Hne.
  destruct (@normalize_parts href o Hnorm Hne)
    as (u & Hok & _ & Hh & Ho & _ & Hre & _).
  assert (Hn : netloc u <> []) by (intros E; rewrite E in Hh; discriminate).
  exists (netloc u), (if nonempty (path u) then path u else lit "/"),
         (path_with_params u).
  split; [exact Ho|]. split.
  { unfold url_path. now rewrite (Hre []). }
  unfold path_with_params.
  destruct (ok_authority Hok Hn) as [[Ep Eq]|Ep].
  - left. rewrite Ep, Eq. now split.
  - right. destruct (path u) as [|c t] eqn:E; [discriminate|].
    cbn [nonempty]. split; [exact Ep|].
    destruct (params u) as [|c' prm]; cbn [nonempty]; [now left|].
    right. now exists (c' :: prm).
Qed.

Lemma normalized_parses (href o : str) :
  normalize' href = Some o -> o <> [] -> parses' o.
Proof.
  intros Hnorm Hne.
  destruct (@normalize_parts href o Hnorm Hne) as (u & _ & _ & _ & _ & _ & Hre & _).
  unfold parses, url_path. now rewrite (Hre []).
Qed.

End NormalizerShape.

(* ------------------------------------------------------------------ *)
(** * The links of a page and the crawl over the pages *)

Section PagesFacts.

Variable bracketed_netloc_ok nfkc_netloc_ok : str -> bool.
Variable Html : Type.
Variable fetch_html : str -> option Html.
Variable anchors : Html -> list (option str).

Local Abbreviation normalize' := (normalize bracketed_netloc_ok nfkc_netloc_ok).
Local Abbreviation extract_links' :=
  (extract_links bracketed_netloc_ok nfkc_netloc_ok).
Local Abbreviation page_links' :=
  (page_links bracketed_netloc_ok nfkc_netloc_ok anchors).
Local Abbreviation links_of_page' :=
  (links_of_page bracketed_netloc_ok nfkc_netloc_ok anchors).
Local Abbreviation pages_loop' :=
  (pages_loop bracketed_netloc_ok nfkc_netloc_ok fetch_html anchors).
Local Abbreviation crawl_pages' :=
  (crawl_pages bracketed_netloc_ok nfkc_netloc_ok fetch_html anchors).
Local Abbreviation seed_or_link' :=
  (seed_or_link bracketed_netloc_ok nfkc_netloc_ok).
Local Abbreviation visited' :=
  (visited bracketed_netloc_ok nfkc_netloc_ok fetch_html anchors).
Local Abbreviation visit_raises' :=
  (visit_raises bracketed_netloc_ok nfkc_netloc_ok fetch_html anchors).

Lemma extract_links_cons (a : option str) (t : list (option str)) :
  extract_links' (a :: t) =
    match normalize' (href_of a), extract_links' t with
    | Some href, Some links =>
        Some (if nonempty href then href :: links else links)
    | _, _ => None
    end.
Proof.
  cbn [extract_links]. unfold bind, href_of.
  destruct a; destruct (normalize' _); trivial;
    destruct (extract_links' t); trivial.
Qed.

Lemma extract_links_outs (hrefs : list (option str)) (ls : list str) :
  extract_links' hrefs = Some ls ->
  exists outs,
    Forall2 (fun a o => normalize' (href_of a) = Some o) hrefs outs /\
    ls = filter nonempty outs.
Proof.
  revert ls. induction hrefs as [|a t IH]; intros ls H.
  - injection H as <-. exists []. split; [constructor|reflexivity].
  - rewrite extract_links_cons in H.
    destruct (normalize' (href_of a)) as [o|] eqn:Eo; [|discriminate].
    destruct (extract_links' t) as [links|]; [|discriminate].
    injection H as <-.
    destruct (IH links eq_refl) as (outs & HF & ->).
    exists (o :: outs). split; [now constructor|].
    cbn [filter]. now destruct (nonempty o).
Qed.

Lemma extract_links_none (hrefs : list (option str)) (a : option str) :
  In a hrefs -> normalize' (href_of a) = None -> extract_links' hrefs = None.
Proof.
  induction hrefs as [|b t IH]; intros Hin Hn; [destruct Hin|].
  rewrite extract_links_cons. destruct Hin as [<-|Hin].
  - now rewrite Hn.
  - rewrite (IH Hin Hn). now destruct (normalize' (href_of b)).
Qed.

Lemma extract_links_in (hrefs : list (option str)) (ls : list str) (l : str) :
  extract_links' hrefs = Some ls -> In l ls ->
  l <> [] /\ exists a, In a hrefs /\ normalize' (href_of a) = Some l.
Proof.
  intros H Hl. apply extract_links_outs in H. destruct H as (outs & HF & ->).
  apply filter_In in Hl. destruct Hl as [Hl Hne].
  split; [now apply nonempty_iff|].
  clear Hne. induction HF as [|a o hs os Ho _ IH]; [destruct Hl|].
  destruct Hl as [<-|Hl].
  - exists a. split; [now left|exact Ho].
  - destruct (IH Hl) as (b & Hb & Hn). exists b. split; [now right|exact Hn].
Qed.

(** X5. When [extract_links] returns, its result is, in document order,
    the non-empty results of the normalizer on the [href] values of the
    anchors (an anchor without [href] counting as the empty string); it is
    no longer than the list of anchors, and each of its links is accepted by
    [HTML_OK] and holds neither a question mark nor a hash sign. *)
Theorem extract_links_normalized (hrefs : list (option str)) (ls : list str) :
  extract_links' hrefs = Some ls ->
  (exists outs,
      Forall2 (fun a o => normalize' (href_of a) = Some o) hrefs outs /\
      ls = filter nonempty outs) /\
  length ls <= length hrefs /\
  Forall (fun l => l <> [] /\ is_internal l = true /\
                   ~ In "?"%char l /\ ~ In "#"%char l) ls.
Proof.
  intros H. split; [now apply extract_links_outs|]. split.
  - apply extract_links_outs in H. destruct H as (outs & HF & ->).
    rewrite (Forall2_length HF). apply filter_length_le.
  - apply Forall_forall. intros l Hl.
    destruct (@extract_links_in hrefs ls l H Hl) as (Hne & a & _ & Hn).
    destruct (@normalize_some bracketed_netloc_ok nfkc_netloc_ok
                (href_of a) l Hn Hne) as (absu & u & _ & Hu & Ho & Hint & _).
    apply urlparse_ok in Hu.
    destruct (rebuilt_has_no_query Hu) as [Hq Hf]. rewrite <- Ho in Hq, Hf.
    repeat split; trivial.
Qed.

(** ** The loop over the pages *)

Lemma page_links_seed_or_link (start_urls : list str) (html : Html)
      (links : list str) (l : str) :
  page_links' html = Some links -> In l links -> seed_or_link' start_urls l.
Proof.
  intros H Hl. right.
  destruct (@extract_links_in (anchors html) links l H Hl) as (Hne & a & _ & Hn).
  exists (href_of a). now split.
Qed.

Lemma pages_loop_inv (start_urls : list str) (fuel : nat) :
  forall st out,
    pages_loop' fuel st = Crawled out ->
    NoDup (seen st) ->
    (forall u, In u (seen st) -> seed_or_link' start_urls u /\ visited' u) ->
    (forall u, In u (q st) -> seed_or_link' start_urls u) ->
    NoDup out /\
    (forall u, In u out -> seed_or_link' start_urls u /\ visited' u).
Proof.
  induction fuel as [|fuel IH]; intros [sn qu] out H Hnd Hs Hq;
    cbn [pages_loop seen q] in *; [discriminate|].
  destruct qu as [|url qu].
  - injection H as <-. now split.
  - destruct (mem url sn) eqn:Em.
    + apply (IH _ _ H); cbn [seen q]; trivial.
      intros u Hu. apply Hq. now right.
    + destruct (fetch_html url) as [html|] eqn:Ef.
      * destruct (page_links' html) as [links|] eqn:El; [|discriminate].
        apply (IH _ _ H); cbn [seen q].
        -- apply NoDup_app; trivial.
           ++ constructor; [intros []|constructor].
           ++ intros x Hx [<-|[]]. now apply mem_false_iff in Em.
        -- intros u Hu. apply in_app_or in Hu. destruct Hu as [Hu|[<-|[]]].
           ++ now apply Hs.
           ++ split; [apply Hq; now left|]. exists html, links. now split.
        -- intros u Hu. rewrite enqueue_filter in Hu.
           apply in_app_or in Hu. destruct Hu as [Hu|Hu].
           ++ apply Hq. now right.
           ++ apply filter_In in Hu. destruct Hu as [Hu _].
              now apply page_links_seed_or_link with html links.
      * apply (IH _ _ H); cbn [seen q]; trivial.
        intros u Hu. apply Hq. now right.
Qed.

Lemma pages_loop_refines (fuel : nat) :
  (forall u h, fetch_html u = Some h -> page_links' h <> None) ->
  forall st,
    pages_loop' fuel st =
      match crawl_loop fetch_html links_of_page' fuel st with
      | Some out => Crawled out
      | None => CrawlOutOfFuel
      end.
Proof.
  intros Hok. induction fuel as [|fuel IH]; intros [sn qu]; trivial.
  cbn [pages_loop crawl_loop seen q].
  destruct qu as [|url qu]; trivial.
  unfold crawl_visit. cbn [seen q].
  destruct (mem url sn); [apply IH|].
  destruct (fetch_html url) as [html|] eqn:Ef; [|apply IH].
  unfold links_of_page.
  destruct (page_links' html) as [links|] eqn:El; [apply IH|].
  now apply Hok in Ef.
Qed.


Lemma pages_loop_step (fuel : nat) (sn qu : list str) (url : str) :
  pages_loop' (S fuel) (mkCrawl sn (url :: qu)) =
    if visit_raises' sn url then CrawlRaised
    else pages_loop' fuel
           (crawl_visit fetch_html links_of_page' url (mkCrawl sn qu)).
Proof.
  cbn [pages_loop seen q]. unfold visit_raises, crawl_visit. cbn [seen q].
  destruct (mem url sn); cbn [negb andb]; trivial.
  destruct (fetch_html url) as [html|]; trivial.
  unfold links_of_page. now destruct (page_links' html).
Qed.

Lemma visit_raises_spec (sn : list str) (url : str) :
  visit_raises' sn url = true ->
  exists html, fetch_html url = Some html /\ page_links' html = None.
Proof.
  unfold visit_raises. intros H. apply andb_true_iff in H. destruct H as [_ H].
  destruct (fetch_html url) as [html|]; [|discriminate].
  exists html. split; trivial. now destruct (page_links' html).
Qed.

(** With fuel above the measure the loop ends: with the pages reachable
    from the start URLs, or with the exception of a reachable page. *)
Lemma pages_loop_total (nodes start_urls : list str) :
  (forall u h, fetch_html u = Some h -> In u nodes) ->
  forall fuel st,
    crawl_inv fetch_html links_of_page' start_urls st ->
    crawl_measure fetch_html links_of_page' nodes st < fuel ->
    (exists out,
        pages_loop' fuel st = Crawled out /\ NoDup out /\
        (forall u, In u out <->
                   reachable fetch_html links_of_page' start_urls u)) \/
    (pages_loop' fuel st = CrawlRaised /\
     exists u html,
       reachable fetch_html links_of_page' start_urls u /\
       fetch_html u = Some html /\ page_links' html = None).
Proof.
  intros Hnodes. induction fuel as [|fuel IH]; intros [sn qu] Hinv Hm;
    [inversion Hm|].
  destruct qu as [|url qu].
  - left. exists sn. split; [reflexivity|]. split; [apply (inv_nodup Hinv)|].
    intros u. split; [apply (inv_seen Hinv)|].
    now apply (crawl_inv_closed Hinv).
  - rewrite pages_loop_step.
    destruct (visit_raises' sn url) eqn:Er.
    + right. split; trivial.
      destruct (@visit_raises_spec sn url Er) as (html & Hf & Hl).
      exists url, html. split; [|now split].
      apply (@inv_queue _ _ _ _ _ Hinv url html); [now left|exact Hf].
    + apply IH.
      * now apply crawl_inv_visit.
      * pose proof (@visit_measure _ fetch_html links_of_page' nodes sn qu url
                      Hnodes) as Hv.
        unfold crawl_measure in Hm. cbn [q seen length] in Hm. lia.
Qed.


Lemma crawl_pages_visited (fuel : nat) (start_urls out : list str) :
  crawl_pages' fuel start_urls = Crawled out ->
  forall u, In u out -> visited' u.
Proof.
  intros H u Hu. unfold crawl_pages in H.
  destruct (@pages_loop_inv start_urls fuel _ out H) as [_ Hall];
    cbn [seen q].
  - constructor.
  - intros v [].
  - intros v Hv. now left.
  - now apply Hall.
Qed.


(** X7. On a site with finitely many pages, none of which (among those
    reachable from the start URLs) makes [extract_links] raise, the crawl
    returns once the fuel exceeds the number of start URLs plus the number
    of links of all pages, and returns exactly the pages reachable from the
    start URLs, each once. *)
Theorem crawl_pages_returns_reachable (nodes start_urls : list str)
        (fuel : nat) :
  (forall u h, fetch_html u = Some h -> In u nodes) ->
  (forall u h, reachable fetch_html links_of_page' start_urls u ->
               fetch_html u = Some h -> page_links' h <> None) ->
  length start_urls + weight fetch_html links_of_page' nodes [] < fuel ->
  exists out,
    crawl_pages' fuel start_urls = Crawled out /\ NoDup out /\
    (forall u, In u out <->
               reachable fetch_html links_of_page' start_urls u).
Proof.
  intros Hnodes Hok Hfuel.
  destruct (@pages_loop_total nodes start_urls Hnodes fuel
              (mkCrawl [] start_urls))
    as [Hout|[_ (u & html & Hr & Hf & Hl)]]; trivial.
  - apply crawl_inv_init.
  - now apply (Hok u html Hr Hf) in Hl.
Qed.

(** X8. On a site with finitely many pages, an anchor on which the
    normalizer raises, in a page reachable from the start URLs, makes the
    whole crawl raise: [extract_links] is called outside the [try]. *)
Theorem crawl_pages_raises_on_bad_href (nodes start_urls : list str)
        (fuel : nat) (u : str) (html : Html) (a : option str) :
  (forall u h, fetch_html u = Some h -> In u nodes) ->
  reachable fetch_html links_of_page' start_urls u ->
  fetch_html u = Some html -> In a (anchors html) ->
  normalize' (href_of a) = None ->
  length start_urls + weight fetch_html links_of_page' nodes [] < fuel ->
  crawl_pages' fuel start_urls = CrawlRaised.
Proof.
  intros Hnodes Hr Hf Ha Hn Hfuel.
  destruct (@pages_loop_total nodes start_urls Hnodes fuel
              (mkCrawl [] start_urls))
    as [(out & Hout & _ & Hiff)|[Hraised _]]; trivial.
  - apply crawl_inv_init.
  - exfalso. apply Hiff in Hr.
    destruct (@crawl_pages_visited fuel start_urls out Hout u Hr)
      as (html' & links & Hf' & Hl).
    assert (html' = html) by congruence. subst html'.
    unfold page_links in Hl.
    rewrite (@extract_links_none (anchors html) a Ha Hn) in Hl. discriminate.
Qed.

End PagesFacts.

(* ------------------------------------------------------------------ *)
(** * The sequencer: ordering again, and its exception *)

Section SequencerMore.

Variable bracketed_netloc_ok nfkc_netloc_ok : str -> bool.

Local Abbreviation url_path' := (url_path bracketed_netloc_ok nfkc_netloc_ok).
Local Abbreviation look :=
  (last_with_path bracketed_netloc_ok nfkc_netloc_ok).
Local Abbreviation by_path_of' :=
  (by_path_of bracketed_netloc_ok nfkc_netloc_ok).
Local Abbreviation order_urls' :=
  (order_urls bracketed_netloc_ok nfkc_netloc_ok).
Local Abbreviation parses' := (parses bracketed_netloc_ok nfkc_netloc_ok).
Local Abbreviation paths_distinct' :=
  (paths_distinct bracketed_netloc_ok nfkc_netloc_ok).

Lemma order_with_perm (l : list str) :
  NoDup l -> single_marker l -> Permutation l (order_with (look l) l).
Proof.
  intros Hnd Hs. unfold order_with.
  set (ordered := extras_from (look l) EXTRA_ROOTS
                    (chapters_of (look l) CHAPTERS_IN_ORDER)).
  transitivity (ordered ++ filter (fun u => negb (mem u ordered)) l).
  - apply perm_split_mem; trivial.
    + apply ordered_NoDup.
    + intros u. apply ordered_incl.
  - apply Permutation_app_head, buckets_perm.
    intros u Hu. apply filter_In in Hu. now apply Hs.
Qed.

Lemma order_urls_some (l out : list str) :
  order_urls' l = Some out ->
  Forall parses' l /\ out = order_with (look l) l.
Proof.
  intros H. destruct (by_path_of' l []) as [d|] eqn:E.
  - split; [now apply by_path_parses with [] d|].
    rewrite (@order_urls_with _ _ l d E) in H. congruence.
  - rewrite (@order_urls_none _ _ l E) in H. discriminate.
Qed.

Lemma order_urls_parsed (l : list str) :
  Forall parses' l -> order_urls' l = Some (order_with (look l) l).
Proof.
  intros Hp. destruct (@by_path_defined _ _ l Hp []) as [d Hd].
  now apply order_urls_with with d.
Qed.

(** X9. Ordering is idempotent: when the input has no repetition, no two
    of its URLs share a path and none holds both markers, the sequencer
    returns its own output unchanged. *)
Theorem order_urls_idempotent (l out : list str) :
  order_urls' l = Some out ->
  NoDup l -> paths_distinct' l -> single_marker l ->
  order_urls' out = Some out.
Proof.
  intros H Hnd Hpd Hs.
  pose proof (@order_urls_output_parses _ _ l out H) as Hpo.
  destruct (@order_urls_some l out H) as [Hp ->].
  pose proof (@order_with_perm l Hnd Hs) as Hperm.
  set (out := order_with (look l) l) in *.
  rewrite (@order_urls_parsed out Hpo). f_equal.
  rewrite (@order_with_ext (look out) (look l) out).
  - unfold order_with at 1.
    set (ordered := extras_from (look l) EXTRA_ROOTS
                      (chapters_of (look l) CHAPTERS_IN_ORDER)).
    unfold out at 2. unfold order_with. fold ordered. f_equal.
    apply buckets_unique, Permutation_filter. now symmetry.
  - intros p. symmetry. now apply look_perm.
Qed.

(** X10. The sequencer raises exactly when [url_path] raises on one of
    the URLs of its input. *)
Theorem order_urls_raises_iff (l : list str) :
  order_urls' l = None <-> exists u, In u l /\ url_path' u = None.
Proof.
  split.
  - intros H.
    destruct (Exists_dec (fun u => url_path' u = None) l) as [He|Hn].
    + intros u. destruct (url_path' u); [right; discriminate|now left].
    + apply Exists_exists in He. exact He.
    + exfalso. assert (Hp : Forall parses' l).
      { apply Forall_forall. intros u Hu E. apply Hn, Exists_exists. eauto. }
      rewrite (@order_urls_parsed l Hp) in H. discriminate.
  - intros (u & Hu & E).
    destruct (order_urls' l) as [out|] eqn:Eo; trivial.
    destruct (@order_urls_some l out Eo) as [Hp _].
    rewrite Forall_forall in Hp. now apply Hp in Hu.
Qed.

End SequencerMore.

(** ** How often a URL is emitted *)

Lemma count_occ_NoDup (l : list str) (u : str) :
  NoDup l -> count_occ str_eq_dec l u = if mem u l then 1 else 0.
Proof.
  intros H. destruct (mem u l) eqn:E.
  - apply mem_true_iff in E.
    now apply (proj1 (NoDup_count_occ' str_eq_dec l) H).
  - apply mem_false_iff in E. now apply count_occ_not_In.
Qed.

Lemma count_occ_absent (l : list str) (u : str) :
  ~ In u l -> count_occ str_eq_dec l u = 0.
Proof. apply count_occ_not_In. Qed.

Lemma count_occ_sorted (l : list str) (u : str) :
  count_occ str_eq_dec (sorted l) u = count_occ str_eq_dec l u.
Proof.
  revert u. apply Permutation_count_occ, sorted_perm.
Qed.

Lemma count_occ_filter (f : str -> bool) (l : list str) (u : str) :
  NoDup l -> In u l ->
  count_occ str_eq_dec (filter f l) u = if f u then 1 else 0.
Proof.
  intros Hnd Hu. rewrite count_occ_NoDup by now apply NoDup_filter.
  destruct (f u) eqn:E.
  - assert (H : In u (filter f l)) by (apply filter_In; now split).
    apply mem_true_iff in H. now rewrite H.
  - assert (H : ~ In u (filter f l)).
    { intros H. apply filter_In in H. destruct H. congruence. }
    apply mem_false_iff in H. now rewrite H.
Qed.

Lemma extras_from_found (look : str -> option str) (ps o : list str)
      (p u : str) :
  In p ps -> look p = Some u -> In u (extras_from look ps o).
Proof.
  revert o. induction ps as [|p0 ps IH]; intros o Hp Hl; [destruct Hp|].
  cbn [extras_from]. destruct Hp as [->|Hp].
  - rewrite Hl. destruct (mem u o) eqn:E.
    + apply extras_from_incl. now apply mem_true_iff.
    + apply extras_from_incl. apply in_or_app. right. now left.
  - destruct (look p0) as [v|]; [destruct (mem v o)|]; now apply IH.
Qed.

Section Multiplicity.

Variable bracketed_netloc_ok nfkc_netloc_ok : str -> bool.

Local Abbreviation look :=
  (last_with_path bracketed_netloc_ok nfkc_netloc_ok).
Local Abbreviation order_urls' :=
  (order_urls bracketed_netloc_ok nfkc_netloc_ok).
Local Abbreviation in_head' := (in_head bracketed_netloc_ok nfkc_netloc_ok).

Lemma in_head_iff (l : list str) (u : str) :
  in_head' l u = true <->
  In u (extras_from (look l) EXTRA_ROOTS
          (chapters_of (look l) CHAPTERS_IN_ORDER)).
Proof.
  unfold in_head. rewrite existsb_exists. split.
  - intros (p & Hp & H).
    destruct (look l p) as [v|] eqn:E; [|discriminate].
    apply str_eqb_true_iff in H. subst v.
    apply in_app_or in Hp. destruct Hp as [Hp|Hp].
    + apply extras_from_incl. apply chapters_of_in. eauto.
    + now apply extras_from_found with p.
  - intros H. apply extras_from_in in H.
    destruct H as [H|(p & Hp & H)].
    + apply chapters_of_in in H. destruct H as (p & Hp & H).
      exists p. split; [apply in_or_app; now left|].
      rewrite H. now apply str_eqb_true_iff.
    + exists p. split; [apply in_or_app; now right|].
      rewrite H. now apply str_eqb_true_iff.
Qed.

(** X11. For an input without repetition, each of its URLs occurs in the
    output of the sequencer once, except a URL that is not emitted in the
    head and holds both the articles and the FAQ marker, which occurs
    twice: once in each of the two buckets. *)
Theorem order_urls_multiplicity (l out : list str) (u : str) :
  order_urls' l = Some out -> NoDup l -> In u l ->
  count_occ str_eq_dec out u =
    if negb (in_head' l u) && (is_artigo u && is_faq u) then 2 else 1.
Proof.
  intros H Hnd Hu.
  destruct (by_path_of bracketed_netloc_ok nfkc_netloc_ok l []) as [d|] eqn:E;
    [|rewrite (@order_urls_none _ _ l E) in H; discriminate].
  rewrite (@order_urls_with _ _ l d E) in H. injection H as <-.
  unfold order_with.
  set (ordered := extras_from (look l) EXTRA_ROOTS
                    (chapters_of (look l) CHAPTERS_IN_ORDER)).
  set (rest := filter (fun u => negb (mem u ordered)) l).
  assert (Hno : NoDup ordered) by apply ordered_NoDup.
  assert (Hnr : NoDup rest) by now apply NoDup_filter.
  unfold buckets. rewrite !count_occ_app, !count_occ_sorted.
  rewrite (@count_occ_NoDup ordered u Hno).
  destruct (in_head' l u) eqn:Eh; cbn [negb andb].
  - apply in_head_iff in Eh. fold ordered in Eh.
    assert (Hm : mem u ordered = true) by now apply mem_true_iff.
    rewrite Hm.
    assert (Hr : ~ In u rest).
    { intros Hr. apply filter_In in Hr. destruct Hr as [_ Hr].
      rewrite Hm in Hr. discriminate. }
    rewrite !count_occ_absent; trivial;
      intros Hf; apply filter_In in Hf; now destruct Hf.
  - assert (Hm : mem u ordered = false).
    { destruct (mem u ordered) eqn:Em; trivial.
      apply mem_true_iff in Em. apply in_head_iff in Em. congruence. }
    rewrite Hm.
    assert (Hr : In u rest) by (apply filter_In; split; [trivial|now rewrite Hm]).
    rewrite !(fun f => @count_occ_filter f rest u Hnr Hr). unfold neither.
    destruct (is_artigo u), (is_faq u); reflexivity.
Qed.

End Multiplicity.

(* ------------------------------------------------------------------ *)
(** * The names of the rendered files *)

Lemma decimal_digits (d : Decimal.uint) :
  Forall (fun c => is_digit c = true)
         (lit (DecimalString.NilEmpty.string_of_uint d)).
Proof. induction d; simpl; constructor; trivial. Qed.

Lemma fmt_04d_digits (n : nat) : Forall (fun c => is_digit c = true) (fmt_04d n).
Proof.
  unfold fmt_04d. apply Forall_app. split.
  - apply Forall_forall. intros c Hc. apply repeat_spec in Hc. now subst c.
  - apply decimal_digits.
Qed.

Lemma value_uint (d : Decimal.uint) :
  forall acc,
    fold_left (fun acc c => 10 * acc + digit_value c)
              (lit (DecimalString.NilEmpty.string_of_uint d)) acc
    = Nat.of_uint_acc d acc.
Proof.
  induction d; intros acc;
    cbn [DecimalString.NilEmpty.string_of_uint lit list_ascii_of_string map
         fold_left Nat.of_uint_acc]; trivial;
    rewrite IHd, Nat.tail_mul_spec; f_equal;
    match goal with
    | |- context [digit_value ?c] =>
        let v := eval vm_compute in (digit_value c) in
        change (digit_value c) with v
    end; lia.
Qed.

Lemma value_zeros (k : nat) :
  fold_left (fun acc c => 10 * acc + digit_value c) (repeat "0"%char k) 0 = 0.
Proof. induction k; simpl; trivial. Qed.

Lemma value_fmt_04d (n : nat) : value (fmt_04d n) = n.
Proof.
  unfold value, fmt_04d, decimal. rewrite fold_left_app, value_zeros.
  rewrite value_uint. apply DecimalNat.Unsigned.of_to.
Qed.

Lemma replace_char_free (c : char) (by_ s : str) :
  ~ In c by_ -> ~ In c (replace_char c by_ s).
Proof.
  intros Hb H. unfold replace_char in H. apply in_flat_map in H.
  destruct H as (x & _ & H). destruct (ceqb x c) eqn:E; [contradiction|].
  destruct H as [<-|[]]. now rewrite ceqb_refl in E.
Qed.

Lemma safe_name_plain (p : str) : safe_name p <> [] /\ ~ In "/"%char (safe_name p).
Proof.
  unfold safe_name.
  destruct (replace_char "/" (lit " - ") (strip (ceqb "/") p))
    as [|c s] eqn:E; cbn [nonempty].
  - split; [discriminate|]. intros H. vm_compute in H.
    repeat destruct H as [H|H]; try discriminate; trivial.
  - split; [discriminate|]. rewrite <- E. apply replace_char_free.
    intros H. vm_compute in H.
    repeat destruct H as [H|H]; try discriminate; trivial.
Qed.

Lemma digit_not_slash (c : char) : is_digit c = true -> c <> "/"%char.
Proof. each_char c. Qed.

Lemma page_name_no_slash (idx : nat) (p : str) : ~ In "/"%char (page_name idx p).
Proof.
  unfold page_name. intros H.
  apply in_app_or in H. destruct H as [H|H].
  - pose proof (fmt_04d_digits idx) as Hd. rewrite Forall_forall in Hd.
    now apply Hd, digit_not_slash in H.
  - apply in_app_or in H. destruct H as [H|H].
    + vm_compute in H. repeat destruct H as [H|H]; try discriminate; trivial.
    + apply in_app_or in H. destruct H as [H|H].
      * now apply (proj2 (safe_name_plain p)).
      * vm_compute in H.
        repeat destruct H as [H|H]; try discriminate; trivial.
Qed.

Lemma page_fname_name (idx : nat) (p : str) :
  page_fname idx p = (OUT_DIR ++ ["/"%char]) ++ page_name idx p.
Proof. apply path_join_relative, page_name_no_slash. Qed.

Lemma basename_page_fname (idx : nat) (p : str) :
  basename (page_fname idx p) = page_name idx p.
Proof.
  rewrite page_fname_name, <- app_assoc. cbn [app]. unfold basename.
  rewrite rcut_at_app; trivial. apply page_name_no_slash.
Qed.

Lemma endswith_app (suf a : str) : endswith suf (a ++ suf) = true.
Proof.
  unfold endswith. rewrite rev_app_distr. apply startswith_iff. eauto.
Qed.

Lemma page_name_is_pdf (idx : nat) (p : str) :
  is_pdf_name (page_name idx p) = true.
Proof.
  unfold is_pdf_name, page_name, lower.
  rewrite !app_assoc, map_app. apply endswith_app.
Qed.

Lemma page_name_index (i j : nat) (p p' : str) :
  page_name i p = page_name j p' -> i = j.
Proof.
  intros H.
  assert (Hs : forall n q,
             span_until (fun c => negb (is_digit c)) (page_name n q)
             = (fmt_04d n, lit " - " ++ safe_name q ++ lit ".pdf")).
  { intros n q. unfold page_name. apply span_until_app.
    - intros c Hc. pose proof (fmt_04d_digits n) as Hd.
      rewrite Forall_forall in Hd. now rewrite (Hd c Hc).
    - right. exists " "%char, (lit "- " ++ safe_name q ++ lit ".pdf").
      now split. }
  pose proof (Hs i p) as H1. rewrite H, (Hs j p') in H1.
  assert (E : fmt_04d j = fmt_04d i) by congruence.
  rewrite <- (value_fmt_04d i), <- (value_fmt_04d j). now rewrite E.
Qed.

(** ** Numbers below ten thousand *)

Lemma of_uint_acc_digit (k : nat) (d : Decimal.uint) (acc : nat) :
  k < 10 ->
  Nat.of_uint_acc (digit_of k d) acc = Nat.of_uint_acc d (10 * acc + k).
Proof.
  intros Hk.
  do 10 (destruct k as [|k];
         [cbn [digit_of Nat.of_uint_acc]; rewrite Nat.tail_mul_spec;
          f_equal; lia|]).
  lia.
Qed.

Lemma string_of_digit (k : nat) (d : Decimal.uint) :
  k < 10 ->
  lit (DecimalString.NilEmpty.string_of_uint (digit_of k d))
  = digit_char k :: lit (DecimalString.NilEmpty.string_of_uint d).
Proof.
  intros Hk.
  do 10 (destruct k as [|k]; [reflexivity|]).
  lia.
Qed.

Lemma unorm_digit (k : nat) (d : Decimal.uint) :
  0 < k < 10 -> Decimal.unorm (digit_of k d) = digit_of k d.
Proof.
  intros Hk. destruct k as [|k]; [lia|].
  do 9 (destruct k as [|k]; [reflexivity|]).
  lia.
Qed.

Lemma ten_thousand : 10 ^ 4 = 10 * 1000.
Proof. reflexivity. Qed.

Lemma fmt_04d_four_digits (n : nat) : n < 10 ^ 4 -> fmt_04d n = four_digits n.
Proof.
  rewrite ten_thousand. intros Hn.
  set (a := n / 1000). set (b := n / 100 mod 10).
  set (c := n / 10 mod 10). set (d := n mod 10).
  assert (Ha : a < 10) by (unfold a; apply Nat.Div0.div_lt_upper_bound; lia).
  assert (Hb : b < 10) by (unfold b; apply Nat.mod_upper_bound; lia).
  assert (Hc : c < 10) by (unfold c; apply Nat.mod_upper_bound; lia).
  assert (Hd : d < 10) by (unfold d; apply Nat.mod_upper_bound; lia).
  assert (En : n = 10 * (10 * (10 * (10 * 0 + a) + b) + c) + d).
  { unfold a, b, c, d.
    pose proof (Nat.div_mod_eq n 10) as E1.
    pose proof (Nat.div_mod_eq (n / 10) 10) as E2.
    pose proof (Nat.div_mod_eq (n / 100) 10) as E3.
    assert (D2 : n / 10 / 10 = n / 100)
      by (rewrite Nat.Div0.div_div; reflexivity).
    assert (D3 : n / 100 / 10 = n / 1000)
      by (rewrite Nat.Div0.div_div; reflexivity).
    rewrite D2 in E2. rewrite D3 in E3. lia. }
  set (D := digit_of a (digit_of b (digit_of c (digit_of d Decimal.Nil)))).
  assert (ED : Nat.of_uint D = n).
  { unfold Nat.of_uint, D. rewrite !of_uint_acc_digit by assumption.
    cbn [Nat.of_uint_acc]. lia. }
  unfold fmt_04d, decimal, four_digits. fold a b c d.
  rewrite <- ED at 1 2. rewrite DecimalNat.Unsigned.to_of.
  unfold D. clearbody a b c d. clear En ED D Hn n.
  destruct a as [|a];
    [change (Decimal.unorm (digit_of 0 ?X)) with (Decimal.unorm X)
    |rewrite unorm_digit by lia; rewrite !string_of_digit by assumption;
     reflexivity].
  destruct b as [|b];
    [change (Decimal.unorm (digit_of 0 ?X)) with (Decimal.unorm X)
    |rewrite unorm_digit by lia; rewrite !string_of_digit by assumption;
     reflexivity].
  destruct c as [|c];
    [change (Decimal.unorm (digit_of 0 ?X)) with (Decimal.unorm X)
    |rewrite unorm_digit by lia; rewrite !string_of_digit by assumption;
     reflexivity].
  destruct d as [|d]; [reflexivity|].
  rewrite unorm_digit by lia. rewrite !string_of_digit by assumption.
  reflexivity.
Qed.

Lemma code_digit_char (k : nat) : k < 10 -> code (digit_char k) = N.of_nat (48 + k).
Proof.
  intros Hk. do 10 (destruct k as [|k]; [reflexivity|]). lia.
Qed.

Lemma four_digits_value (n : nat) :
  n < 10 ^ 4 ->
  n / 1000 < 10 /\ n / 100 mod 10 < 10 /\ n / 10 mod 10 < 10 /\ n mod 10 < 10 /\
  n = 1000 * (n / 1000) + 100 * (n / 100 mod 10) + 10 * (n / 10 mod 10)
      + n mod 10.
Proof.
  rewrite ten_thousand. intros Hn.
  split; [apply Nat.Div0.div_lt_upper_bound; lia|].
  split; [apply Nat.mod_upper_bound; lia|].
  split; [apply Nat.mod_upper_bound; lia|].
  split; [apply Nat.mod_upper_bound; lia|].
  pose proof (Nat.div_mod_eq n 10) as E1.
  pose proof (Nat.div_mod_eq (n / 10) 10) as E2.
  pose proof (Nat.div_mod_eq (n / 100) 10) as E3.
  assert (D2 : n / 10 / 10 = n / 100)
    by (rewrite Nat.Div0.div_div; reflexivity).
  assert (D3 : n / 100 / 10 = n / 1000)
    by (rewrite Nat.Div0.div_div; reflexivity).
  rewrite D2 in E2. rewrite D3 in E3. lia.
Qed.

(** Strings that begin with four digits compare as the numbers the digits
    denote, when these differ. *)
Lemma digits_lex (a b c d a' b' c' d' : nat) (x y : str) :
  a < 10 -> b < 10 -> c < 10 -> d < 10 ->
  a' < 10 -> b' < 10 -> c' < 10 -> d' < 10 ->
  1000 * a + 100 * b + 10 * c + d < 1000 * a' + 100 * b' + 10 * c' + d' ->
  str_leb ([digit_char a; digit_char b; digit_char c; digit_char d] ++ x)
          ([digit_char a'; digit_char b'; digit_char c'; digit_char d'] ++ y)
  = true.
Proof.
  intros Ha Hb Hc Hd Ha' Hb' Hc' Hd' Hlt.
  cbn [app str_leb].
  rewrite !code_digit_char by assumption.
  repeat match goal with
         | |- context [N.ltb ?u ?v] => destruct (N.ltb_spec u v)
         end; trivial; lia.
Qed.

Lemma four_digits_lex (i j : nat) (x y : str) :
  i < j -> j < 10 ^ 4 ->
  str_leb (four_digits i ++ x) (four_digits j ++ y) = true.
Proof.
  intros Hij Hj.
  assert (Hi : i < 10 ^ 4) by lia.
  destruct (four_digits_value Hi) as (A1 & A2 & A3 & A4 & A5).
  destruct (four_digits_value Hj) as (B1 & B2 & B3 & B4 & B5).
  unfold four_digits. apply digits_lex; trivial. lia.
Qed.

Lemma page_fname_order (i j : nat) (p p' : str) :
  i < j -> j < 10 ^ 4 ->
  str_leb (page_fname i p) (page_fname j p') = true.
Proof.
  intros Hij Hj. rewrite !page_fname_name, str_leb_prefix.
  unfold page_name.
  rewrite (@fmt_04d_four_digits i), (@fmt_04d_four_digits j) by lia.
  now apply four_digits_lex.
Qed.

Lemma sorted_id (l : list str) : StronglySorted str_le l -> sorted l = l.
Proof.
  intros H. apply strongly_sorted_unique; trivial.
  - apply sorted_strongly.
  - apply sorted_perm.
Qed.

Section RendererMore.

Variable bracketed_netloc_ok nfkc_netloc_ok : str -> bool.
Variable exe : option str.
Variable goto_ok pdf_ok : nat -> str -> bool.

Local Abbreviation url_path' := (url_path bracketed_netloc_ok nfkc_netloc_ok).
Local Abbreviation loop :=
  (render_loop bracketed_netloc_ok nfkc_netloc_ok goto_ok pdf_ok).
Local Abbreviation rendered' :=
  (rendered bracketed_netloc_ok nfkc_netloc_ok goto_ok pdf_ok).
Local Abbreviation print_to_pdf' :=
  (print_to_pdf bracketed_netloc_ok nfkc_netloc_ok exe).

Lemma rendered_indexes (urls : list str) :
  forall idx,
    Forall (fun f => exists k p,
                idx <= k < idx + length urls /\ f = page_fname k p)
           (rendered' idx urls).
Proof.
  induction urls as [|url urls IH]; intros idx; cbn [rendered]; [constructor|].
  assert (Ht : Forall (fun f => exists k p,
                          idx <= k < idx + length (url :: urls) /\
                          f = page_fname k p)
                      (rendered' (S idx) urls)).
  { eapply Forall_impl; [|apply IH].
    intros f (k & p & Hk & ->). exists k, p. cbn [length]. split; [lia|trivial]. }
  destruct (goto_ok idx url && pdf_ok idx url); trivial.
  constructor; trivial.
  eexists idx, _. split; [cbn [length]; lia|reflexivity].
Qed.

Lemma rendered_sorted (urls : list str) :
  forall idx, idx + length urls <= 10 ^ 4 ->
              StronglySorted str_le (rendered' idx urls).
Proof.
  induction urls as [|url urls IH]; intros idx Hb; cbn [rendered];
    [constructor|].
  cbn [length] in Hb.
  assert (Ht : StronglySorted str_le (rendered' (S idx) urls))
    by (apply IH; lia).
  destruct (goto_ok idx url && pdf_ok idx url); trivial.
  constructor; trivial.
  eapply Forall_impl; [|apply (rendered_indexes urls (S idx))].
  intros f (k & p & Hk & ->). apply page_fname_order; lia.
Qed.

Lemma print_to_pdf_ok (urls : list str) :
  Forall (fun u => url_path' u <> None) urls ->
  let r := print_to_pdf' true true goto_ok pdf_ok urls in
  raised r = false /\ gotos (trace r) = urls /\
  artifacts r = rendered' 1 urls /\ closes (trace r) = 1.
Proof.
  intros Hp. unfold print_to_pdf. cbn [negb].
  set (r0 := mkRender _ [] false).
  destruct (@render_loop_spec bracketed_netloc_ok nfkc_netloc_ok
              goto_ok pdf_ok urls Hp 1 r0 eq_refl) as (H1 & H2 & H3 & H4).
  cbv zeta. rewrite H1. cbn [raised trace artifacts].
  rewrite gotos_app, closes_app, H2, H3, H4.
  split; [reflexivity|]. split; [now rewrite app_nil_r|]. now split.
Qed.

End RendererMore.
(** X12. The file of the page numbered [idx] lies directly in the output
    directory: its path is the directory, a slash and a name without
    slash, which is its directory entry; the name ends in [.pdf], so the
    merger takes it; and two pages with different numbers never have the
    same file. *)
Theorem page_file_names (idx : nat) (p : str) :
  page_fname idx p = OUT_DIR ++ lit "/" ++ page_name idx p /\
  ~ In "/"%char (page_name idx p) /\
  basename (page_fname idx p) = page_name idx p /\
  is_pdf_name (page_name idx p) = true /\
  (forall j p', page_fname idx p = page_fname j p' -> idx = j).
Proof.
  split; [rewrite page_fname_name; now rewrite <- app_assoc|].
  split; [apply page_name_no_slash|].
  split; [apply basename_page_fname|].
  split; [apply page_name_is_pdf|].
  intros j p' H. rewrite !page_fname_name in H.
  apply app_inv_head in H. now apply page_name_index in H.
Qed.

(** X13. The zero padding orders four digits only: among the files of the
    pages numbered below ten thousand, the file of page 10000 sorts after
    those of the pages up to 1000 and before those of the pages from 1001
    on, so the merger places page 10000 right after page 1000. *)
Theorem page_ten_thousand_sorts_early (i : nat) (p p' : str) :
  i < 10 ^ 4 ->
  (i <= 1000 -> str_leb (page_fname i p') (page_fname (10 ^ 4) p) = true) /\
  (1000 < i -> str_leb (page_fname (10 ^ 4) p) (page_fname i p') = true) /\
  page_fname (10 ^ 4) p <> page_fname i p'.
Proof.
  intros Hhi.
  assert (E : fmt_04d (10 ^ 4) = four_digits 1000 ++ lit "0")
    by (vm_compute; reflexivity).
  assert (Hk : 1000 < 10 ^ 4) by (rewrite ten_thousand; lia).
  split; [|split].
  - intros Hlo. rewrite !page_fname_name, str_leb_prefix. unfold page_name.
    rewrite (@fmt_04d_four_digits i) by exact Hhi.
    rewrite E, <- app_assoc.
    destruct (Nat.eq_dec i 1000) as [->|Hne].
    + now rewrite str_leb_prefix.
    + apply four_digits_lex; [lia|exact Hk].
  - intros Hlo. rewrite !page_fname_name, str_leb_prefix. unfold page_name.
    rewrite (@fmt_04d_four_digits i) by exact Hhi.
    rewrite E, <- app_assoc.
    apply four_digits_lex; trivial.
  - intros H. rewrite !page_fname_name in H. apply app_inv_head in H.
    apply page_name_index in H. rewrite <- H in Hhi. lia.
Qed.

Lemma filter_all (A : Type) (f : A -> bool) (l : list A) :
  (forall x, In x l -> f x = true) -> filter f l = l.
Proof.
  induction l as [|a l IH]; intros H; cbn [filter]; trivial.
  rewrite (H a (or_introl eq_refl)). f_equal. apply IH.
  intros x Hx. apply H. now right.
Qed.

Lemma filter_none (A : Type) (f : A -> bool) (l : list A) :
  (forall x, In x l -> f x = false) -> filter f l = [].
Proof.
  induction l as [|a l IH]; intros H; cbn [filter]; trivial.
  rewrite (H a (or_introl eq_refl)). apply IH.
  intros x Hx. apply H. now right.
Qed.

Section RunFacts.

Variable bracketed_netloc_ok nfkc_netloc_ok : str -> bool.
Variable exe : option str.
Variable goto_ok pdf_ok : nat -> str -> bool.

Local Abbreviation url_path' := (url_path bracketed_netloc_ok nfkc_netloc_ok).
Local Abbreviation loop :=
  (render_loop bracketed_netloc_ok nfkc_netloc_ok goto_ok pdf_ok).
Local Abbreviation rendered' :=
  (rendered bracketed_netloc_ok nfkc_netloc_ok goto_ok pdf_ok).
Local Abbreviation print_to_pdf' :=
  (print_to_pdf bracketed_netloc_ok nfkc_netloc_ok exe).

(** The directory after a run that starts without PDF files lists, as PDF
    files, what the run wrote; the merger takes them in the order they were
    written. *)
Lemma fresh_parts (urls before : list str) :
  length urls < 10 ^ 4 ->
  (forall f, In f before -> is_pdf_name f = false) ->
  parts (listdir_after before (rendered' 1 urls)) = rendered' 1 urls.
Proof.
  intros Hlen Hbefore.
  pose proof (rendered_indexes bracketed_netloc_ok nfkc_netloc_ok
                goto_ok pdf_ok urls 1) as Hidx.
  set (arts := rendered' 1 urls) in *.
  assert (Hnames : Forall (fun n => is_pdf_name n = true) (map basename arts)).
  { apply Forall_forall. intros n Hn. apply in_map_iff in Hn.
    destruct Hn as (f & <- & Hf). rewrite Forall_forall in Hidx.
    destruct (Hidx f Hf) as (k & p & _ & ->).
    rewrite basename_page_fname. apply page_name_is_pdf. }
  unfold parts, listdir_after.
  assert (E1 : filter (fun f => negb (mem f before)) (map basename arts)
               = map basename arts).
  { apply filter_all. intros n Hn.
    apply negb_true_iff, mem_false_iff. intros Hb.
    rewrite Forall_forall in Hnames. apply Hnames in Hn.
    rewrite (Hbefore n Hb) in Hn. discriminate. }
  rewrite E1, filter_app.
  assert (E2 : filter is_pdf_name before = [])
    by now apply filter_none.
  assert (E3 : filter is_pdf_name (map basename arts) = map basename arts).
  { apply filter_all. now apply Forall_forall. }
  rewrite E2, E3. cbn [app]. rewrite map_map.
  assert (E4 : map (fun f => path_join OUT_DIR (basename f)) arts = arts).
  { rewrite <- (map_id arts) at 2. apply map_ext_in. intros f Hf.
    rewrite Forall_forall in Hidx. destruct (Hidx f Hf) as (k & p & _ & ->).
    now rewrite basename_page_fname. }
  rewrite E4. apply sorted_id. apply rendered_sorted.
  cbn [Nat.add]. lia.
Qed.

(** X14. A run of fewer than ten thousand URLs into a directory without
    PDF files is merged in the order it was rendered: the parts of the
    merger are the artifacts of the renderer, in the order of the batch,
    and the final document is made of their pages in that order. *)
Theorem fresh_run_merges_in_order
        (urls before : list str) (Page : Type) (PdfReader : str -> reader Page) :
  Forall (fun u => url_path' u <> None) urls ->
  length urls < 10 ^ 4 ->
  (forall f, In f before -> is_pdf_name f = false) ->
  let r := print_to_pdf' true true goto_ok pdf_ok urls in
  let dir := listdir_after before (artifacts r) in
  parts dir = artifacts r /\
  final_pages (merge_pdfs dir PdfReader)
  = flat_map (fun f => pages_read (PdfReader f)) (artifacts r).
Proof.
  intros Hp Hlen Hbefore r dir.
  destruct (@print_to_pdf_ok bracketed_netloc_ok nfkc_netloc_ok exe
              goto_ok pdf_ok urls Hp) as (_ & _ & Ha & _).
  fold r in Ha.
  assert (E : parts dir = artifacts r).
  { unfold dir. rewrite Ha. now apply fresh_parts. }
  split; trivial.
  unfold merge_pdfs. cbn [final_pages]. rewrite merge_fold_spec.
  cbn [writer app]. now rewrite E.
Qed.

(** ** Exceptions of the renderer *)

Local Abbreviation parsesb' := (parsesb bracketed_netloc_ok nfkc_netloc_ok).
Local Abbreviation navigated' :=
  (navigated bracketed_netloc_ok nfkc_netloc_ok).

Lemma render_loop_any (urls : list str) :
  forall idx r,
    raised r = false ->
    raised (loop idx urls r) = negb (forallb parsesb' urls) /\
    gotos (trace (loop idx urls r)) = gotos (trace r) ++ navigated' urls /\
    closes (trace (loop idx urls r)) = closes (trace r).
Proof.
  induction urls as [|url urls IH]; intros idx r Hr;
    cbn [render_loop forallb navigated].
  - now rewrite app_nil_r.
  - unfold parsesb at 1 3.
    destruct (url_path' url) as [p|] eqn:E;
      [|cbn [raised trace negb andb]; now rewrite app_nil_r].
    cbn [andb].
    destruct (goto_ok idx url); [destruct (pdf_ok idx url)|];
      match goal with
      | |- context [loop (S idx) urls ?r'] =>
          destruct (IH (S idx) r' eq_refl) as (H1 & H2 & H3);
          rewrite H1, H2, H3
      end; cbn [trace]; rewrite ?gotos_app, ?closes_app; cbn [gotos closes
        flat_map filter length app]; rewrite ?app_nil_r, <- ?app_assoc,
        ?Nat.add_0_r; auto.
Qed.

Lemma navigated_all (urls : list str) :
  forallb parsesb' urls = true -> navigated' urls = urls.
Proof.
  induction urls as [|u urls IH]; cbn [forallb navigated]; trivial.
  intros H. apply andb_prop in H. destruct H as [Hu Hr].
  now rewrite Hu, (IH Hr).
Qed.

(** The renderer in which every call returns but, possibly, [launch] and
    [newPage] is the renderer of the batch property. *)
Lemma print_to_pdf_io_plain (w : calls) (urls : list str) :
  ok_makedirs w = true -> ok_find w = true -> ok_timeout w = true ->
  ok_close w = true ->
  print_to_pdf_io bracketed_netloc_ok nfkc_netloc_ok w exe goto_ok pdf_ok urls
  = print_to_pdf' (ok_launch w) (ok_newpage w) goto_ok pdf_ok urls.
Proof.
  intros H1 H2 H3 H4. unfold print_to_pdf_io, print_to_pdf.
  rewrite H1, H2, H3, H4. cbn [andb negb app].
  destruct (ok_launch w), (ok_newpage w); reflexivity.
Qed.

Lemma print_to_pdf_io_spec (w : calls) (urls : list str) :
  let r := print_to_pdf_io bracketed_netloc_ok nfkc_netloc_ok w exe
             goto_ok pdf_ok urls in
  raised r = negb (started w && forallb parsesb' urls && ok_close w) /\
  gotos (trace r) = (if started w then navigated' urls else []) /\
  closes (trace r) = (if started w && forallb parsesb' urls then 1 else 0).
Proof.
  unfold print_to_pdf_io, started.
  destruct (ok_makedirs w); cbn [negb andb]; [|now repeat split].
  destruct (ok_find w); cbn [negb andb]; [|now repeat split].
  destruct (ok_launch w); cbn [negb andb]; [|now repeat split].
  destruct (ok_newpage w); cbn [negb andb]; [|now repeat split].
  destruct (ok_timeout w); cbn [negb andb]; [|now repeat split].
  set (r0 := mkRender _ [] false).
  destruct (@render_loop_any urls 1 r0 eq_refl) as (H1 & H2 & H3).
  cbv zeta.
  destruct (raised (loop 1 urls r0)) eqn:Er.
  - rewrite Er, H2, H3.
    symmetry in H1. apply negb_true_iff in H1. rewrite H1. now split.
  - cbn [raised trace]. rewrite gotos_app, closes_app, H2, H3.
    symmetry in H1. apply negb_false_iff in H1. rewrite H1. cbn [andb].
    split; [reflexivity|]. split; [now rewrite app_nil_r|reflexivity].
Qed.

(** X15. The renderer raises exactly when one of the calls it makes
    outside the [try] statement does: creating the directory, searching
    the executable, starting the browser, opening the page, setting the
    timeout, [url_path] on a URL of the batch, or closing the browser.  It
    navigates to the URLs before the first URL on which [url_path] raises
    and to none after it, and to none when the browser is not started; it
    calls [close] once when nothing raised before, and never otherwise.
    When the directory, the search, the timeout and [close] do not fail it
    is the renderer of the batch property. *)
Theorem print_to_pdf_exception (w : calls) (urls : list str) :
  let r := print_to_pdf_io bracketed_netloc_ok nfkc_netloc_ok w exe
             goto_ok pdf_ok urls in
  raised r = negb (started w && forallb parsesb' urls && ok_close w) /\
  gotos (trace r) = (if started w then navigated' urls else []) /\
  closes (trace r) = (if started w && forallb parsesb' urls then 1 else 0) /\
  (ok_makedirs w = true -> ok_find w = true -> ok_timeout w = true ->
   ok_close w = true ->
   r = print_to_pdf' (ok_launch w) (ok_newpage w) goto_ok pdf_ok urls).
Proof.
  cbv zeta. destruct (print_to_pdf_io_spec w urls) as (H1 & H2 & H3).
  repeat split; trivial. apply print_to_pdf_io_plain.
Qed.

End RunFacts.

(** * The merger and the listing *)

(** X16. The merger depends on the names of the PDF files of the
    directory only, not on the order in which the directory lists them nor
    on its other entries: two listings with the same PDF names give the
    same parts and the same final document. *)
Theorem merge_pdfs_listing_order (Page : Type) (PdfReader : str -> reader Page)
        (l1 l2 : list str) :
  Permutation (filter is_pdf_name l1) (filter is_pdf_name l2) ->
  parts l1 = parts l2 /\ merge_pdfs l1 PdfReader = merge_pdfs l2 PdfReader.
Proof.
  intros H.
  assert (E : parts l1 = parts l2).
  { unfold parts. apply sorted_unique. now apply Permutation_map. }
  split; trivial. unfold merge_pdfs. now rewrite E.
Qed.

(** * The browser executable *)

Section BrowserFacts.

Variable path_exists : str -> bool.
Variable which : str -> option str.

Lemma first_existing_spec (ps : list str) :
  match first_existing path_exists ps with
  | Some p => In p ps /\ path_exists p = true
  | None => forall c, In c ps -> path_exists c = false
  end.
Proof.
  induction ps as [|p ps IH]; cbn [first_existing]; [intros c []|].
  destruct (path_exists p) eqn:E; [split; [now left|trivial]|].
  destruct (first_existing path_exists ps) as [r|].
  - destruct IH. split; [now right|trivial].
  - intros c [<-|Hc]; [trivial|now apply IH].
Qed.

Lemma first_on_path_spec (names : list str) :
  match first_on_path which names with
  | Some p => p <> [] /\ exists name, In name names /\ which name = Some p
  | None => forall name, In name names ->
                         which name = None \/ which name = Some []
  end.
Proof.
  induction names as [|n names IH]; cbn [first_on_path]; [intros c []|].
  assert (Hrec :
            match first_on_path which names with
            | Some p => p <> [] /\
                        exists name, In name (n :: names) /\ which name = Some p
            | None => (which n = None \/ which n = Some []) ->
                      forall name, In name (n :: names) ->
                                   which name = None \/ which name = Some []
            end).
  { destruct (first_on_path which names) as [r|].
    - destruct IH as [Hr (m & Hm & Hw)]. split; trivial.
      exists m. split; [now right|trivial].
    - intros Hn name [<-|Hin]; [trivial|now apply IH]. }
  destruct (which n) as [path|] eqn:E.
  - destruct path as [|c path]; cbn [nonempty].
    + destruct (first_on_path which names); trivial. apply Hrec. now right.
    + split; [discriminate|]. exists n. split; [now left|trivial].
  - destruct (first_on_path which names); trivial. apply Hrec. now left.
Qed.

(** X17. [find_browser_executable] returns a fixed location that exists,
    or, when none of the fixed locations exists, a non-empty path found on
    the search path under one of the four names; it returns nothing exactly
    when no fixed location exists and the search finds no name. *)
Theorem find_browser_executable_spec :
  match find_browser_executable path_exists which with
  | Some p =>
      (In p candidates /\ path_exists p = true) \/
      ((forall c, In c candidates -> path_exists c = false) /\
       p <> [] /\
       exists name, In name browser_names /\ which name = Some p)
  | None =>
      (forall c, In c candidates -> path_exists c = false) /\
      (forall name, In name browser_names ->
                    which name = None \/ which name = Some [])
  end.
Proof.
  unfold find_browser_executable.
  pose proof (first_existing_spec candidates) as H1.
  pose proof (first_on_path_spec browser_names) as H2.
  destruct (first_existing path_exists candidates) as [p|]; [now left|].
  destruct (first_on_path which browser_names) as [p|].
  - right. now split.
  - now split.
Qed.

End BrowserFacts.

(* ------------------------------------------------------------------ *)
(** * The whole run *)

Section MainFacts.

Variable bracketed_netloc_ok nfkc_netloc_ok : str -> bool.
Variable Html : Type.
Variable fetch_html : str -> option Html.
Variable anchors : Html -> list (option str).
Variable path_exists : str -> bool.
Variable which : str -> option str.
Variable goto_ok pdf_ok : nat -> str -> bool.
Variable Page : Type.
Variable dir_before : list str.
Variable PdfReader : str -> reader Page.

Local Abbreviation normalize' := (normalize bracketed_netloc_ok nfkc_netloc_ok).
Local Abbreviation url_path' := (url_path bracketed_netloc_ok nfkc_netloc_ok).
Local Abbreviation parses' := (parses bracketed_netloc_ok nfkc_netloc_ok).
Local Abbreviation look :=
  (last_with_path bracketed_netloc_ok nfkc_netloc_ok).
Local Abbreviation crawl_pages' :=
  (crawl_pages bracketed_netloc_ok nfkc_netloc_ok fetch_html anchors).

Lemma seeds_eq : seeds bracketed_netloc_ok nfkc_netloc_ok = Some seed_urls.
Proof. vm_compute. reflexivity. Qed.

Lemma seed_urls_parse : Forall parses' seed_urls.
Proof.
  assert (H : forallb (parsesb bracketed_netloc_ok nfkc_netloc_ok) seed_urls
              = true) by (vm_compute; reflexivity).
  apply Forall_forall. intros u Hu.
  apply (proj1 (forallb_forall _ _) H) in Hu.
  unfold parsesb in Hu. unfold parses. now destruct (url_path' u).
Qed.

Lemma crawled_parse (fuel : nat) (all : list str) :
  crawl_pages' fuel seed_urls = Crawled all -> NoDup all /\ Forall parses' all.
Proof.
  intros H. unfold crawl_pages in H.
  destruct (@pages_loop_inv bracketed_netloc_ok nfkc_netloc_ok Html
              fetch_html anchors seed_urls fuel _ all H) as [Hnd Hall];
    cbn [seen q].
  - constructor.
  - intros u [].
  - intros u Hu. now left.
  - split; trivial. apply Forall_forall. intros u Hu.
    destruct (Hall u Hu) as [[Hs|(href & Hn & Hne)] _].
    + pose proof seed_urls_parse as Hp. rewrite Forall_forall in Hp.
      now apply Hp.
    + now apply (@normalized_parses bracketed_netloc_ok nfkc_netloc_ok href).
Qed.

(** X18. Whenever the crawl from the seeds returns, the sequencer accepts
    every crawled URL and its output holds exactly the crawled URLs; the
    run then completes exactly when every call that the renderer and the
    merger make outside a [try] statement returns, and raises otherwise.
    When the browser is started every URL of the output is navigated to,
    in order, and [close] is called once.  When moreover the run completes,
    no crawled URL holds both markers, fewer than ten thousand URLs were
    crawled and the output directory held no PDF file, the output is a
    permutation of the crawled URLs and the final document is made of the
    pages of the rendered files in that order. *)
Theorem main_renders_what_it_crawls
        (w : calls) (fuel : nat) (all : list str) :
  crawl_pages' fuel seed_urls = Crawled all ->
  exists ordered,
    let r := print_to_pdf_io bracketed_netloc_ok nfkc_netloc_ok w
               (find_browser_executable path_exists which)
               goto_ok pdf_ok ordered in
    let m := merge_pdfs (listdir_after dir_before (artifacts r)) PdfReader in
    order_urls bracketed_netloc_ok nfkc_netloc_ok all = Some ordered /\
    (forall u, In u ordered <-> In u all) /\
    main bracketed_netloc_ok nfkc_netloc_ok fetch_html anchors
         path_exists which w goto_ok pdf_ok dir_before PdfReader fuel
    = (if all_return w then MainDone ordered r m else MainRaised) /\
    (started w = true ->
     gotos (trace r) = ordered /\ closes (trace r) = 1) /\
    (all_return w = true ->
     single_marker all -> length all < 10 ^ 4 ->
     (forall f, In f dir_before -> is_pdf_name f = false) ->
     Permutation all ordered /\
     final_pages m = flat_map (fun f => pages_read (PdfReader f)) (artifacts r)).
Proof.
  intros Hcrawl.
  destruct (crawled_parse fuel Hcrawl) as [Hnd Hp].
  pose proof (@order_urls_parsed bracketed_netloc_ok nfkc_netloc_ok all Hp)
    as Hord.
  set (ordered := order_with (look all) all) in *.
  pose proof (@order_urls_output_parses bracketed_netloc_ok nfkc_netloc_ok
                all ordered Hord) as Hpo.
  set (exe := find_browser_executable path_exists which).
  assert (Hpb : forallb (parsesb bracketed_netloc_ok nfkc_netloc_ok) ordered
                = true).
  { apply forallb_forall. intros u Hu. rewrite Forall_forall in Hpo.
    specialize (Hpo u Hu). unfold parsesb.
    destruct (url_path' u) eqn:E; trivial. exfalso. now apply Hpo. }
  destruct (@print_to_pdf_io_spec bracketed_netloc_ok nfkc_netloc_ok exe
              goto_ok pdf_ok w ordered) as (Hr & Hg & Hc).
  rewrite Hpb, andb_true_r in Hr, Hc.
  rewrite (@navigated_all bracketed_netloc_ok nfkc_netloc_ok ordered Hpb) in Hg.
  exists ordered. cbv zeta.
  set (r := print_to_pdf_io bracketed_netloc_ok nfkc_netloc_ok w exe
              goto_ok pdf_ok ordered) in *.
  split; [exact Hord|].
  split; [intros u; apply order_with_in|].
  split.
  { unfold main. rewrite seeds_eq, Hcrawl, Hord. fold exe. fold r.
    rewrite Hr. unfold all_return, merge_pdfs_io.
    destruct (started w); cbn [andb negb]; trivial.
    destruct (ok_close w); cbn [andb negb]; trivial.
    destruct (ok_listdir w); cbn [andb negb]; trivial.
    destruct (ok_open w), (ok_write w); reflexivity. }
  split.
  { intros Hs. rewrite Hs in Hg, Hc. now split. }
  intros Hall Hs Hlen Hbefore.
  pose proof (@order_with_perm bracketed_netloc_ok nfkc_netloc_ok all Hnd Hs)
    as Hperm.
  split; [exact Hperm|].
  assert (Hw : ok_makedirs w = true /\ ok_find w = true /\
               ok_launch w = true /\ ok_newpage w = true /\
               ok_timeout w = true /\ ok_close w = true).
  { unfold all_return, started in Hall.
    repeat (apply andb_prop in Hall; destruct Hall as [Hall ?]).
    repeat split; assumption. }
  destruct Hw as (W1 & W2 & W3 & W4 & W5 & W6).
  assert (Er : r = print_to_pdf bracketed_netloc_ok nfkc_netloc_ok exe
                     true true goto_ok pdf_ok ordered).
  { unfold r.
    rewrite (@print_to_pdf_io_plain bracketed_netloc_ok nfkc_netloc_ok exe
               goto_ok pdf_ok w ordered W1 W2 W5 W6).
    now rewrite W3, W4. }
  destruct (@print_to_pdf_ok bracketed_netloc_ok nfkc_netloc_ok exe
              goto_ok pdf_ok ordered Hpo) as (_ & _ & Ha & _).
  rewrite <- Er in Ha.
  unfold merge_pdfs. cbn [final_pages]. rewrite merge_fold_spec.
  cbn [writer app]. rewrite Ha.
  rewrite (@fresh_parts bracketed_netloc_ok nfkc_netloc_ok goto_ok pdf_ok
             ordered dir_before);
    [reflexivity
    |rewrite <- (Permutation_length Hperm : length all = length ordered);
     exact Hlen
    |exact Hbefore].
Qed.

End MainFacts.

(* ------------------------------------------------------------------ *)
(** * What the merger selects and counts *)

Lemma endswith_iff (suf s : str) :
  endswith suf s = true <-> exists stem, s = stem ++ suf.
Proof.
  unfold endswith. rewrite startswith_iff. split.
  - intros (t & E). exists (rev t).
    rewrite <- (rev_involutive s), E, rev_app_distr.
    now rewrite rev_involutive.
  - intros (stem & ->). exists (rev stem). apply rev_app_distr.
Qed.

Lemma filter_both (A : Type) (p q : A -> bool) (l : list A) :
  filter (fun x => p x && q x) l = filter q (filter p l).
Proof.
  induction l as [|a l IH]; simpl; trivial.
  destruct (p a); simpl; [|exact IH]. destruct (q a); now rewrite IH.
Qed.

Lemma sum_filter_le (A : Type) (g h : A -> nat) (p : A -> bool) (l : list A) :
  (forall a, In a l -> g a <= if p a then h a else 0) ->
  list_sum (map g l) <= list_sum (map h (filter p l)).
Proof.
  induction l as [|a l IH]; intros H; simpl; trivial.
  pose proof (H a (or_introl eq_refl)) as Ha.
  assert (Hl : list_sum (map g l) <= list_sum (map h (filter p l)))
    by (apply IH; intros b Hb; apply H; now right).
  destruct (p a); simpl; lia.
Qed.

Lemma sum_filter_ge (A : Type) (g h : A -> nat) (p : A -> bool) (l : list A) :
  (forall a, In a l -> (if p a then h a else 0) <= g a) ->
  list_sum (map h (filter p l)) <= list_sum (map g l).
Proof.
  induction l as [|a l IH]; intros H; simpl; trivial.
  pose proof (H a (or_introl eq_refl)) as Ha.
  assert (Hl : list_sum (map h (filter p l)) <= list_sum (map g l))
    by (apply IH; intros b Hb; apply H; now right).
  destruct (p a); simpl; lia.
Qed.

Section MergerCounts.

Variable Page : Type.
Variable PdfReader : str -> reader Page.

Lemma good_prefix_length (pages : list (page_read Page)) :
  length (good_prefix pages) <= length pages /\
  (forallb (fun pr => match pr with PageOk _ => true | PageErr => false end)
           pages = true ->
   length (good_prefix pages) = length pages).
Proof.
  induction pages as [|[pg|] t [IH1 IH2]]; simpl.
  - now split.
  - split; [lia|]. intros H. now rewrite (IH2 H).
  - split; [lia|discriminate].
Qed.

Lemma pages_read_count (r : reader Page) :
  (if reads_whole r then page_count r else 0) <= length (pages_read r) /\
  length (pages_read r) <= (if opens r then page_count r else 0).
Proof.
  destruct r as [|pages]; simpl; [now split|].
  destruct (good_prefix_length pages) as [H1 H2].
  split; [|exact H1].
  destruct (forallb _ pages); [rewrite H2; trivial|lia].
Qed.

(** C10 (as amended). The merger takes the listed names whose lower-case
    form ends in [.pdf], and all of them, whether this run rendered the file
    ([new]) or it was already in the directory ([old]).  The page count of
    the final document is the sum, over all of them, of the pages read from
    each before its first failure: it lies between the sum of the page
    counts of the files that read whole and that of the files that open,
    and is both when every such file either reads whole or cannot be
    opened. *)
Theorem merge_counts_every_pdf (old new : list str) :
  let m := merge_pdfs (old ++ new) PdfReader in
  let sel := filter is_pdf_name old ++ filter is_pdf_name new in
  let rd f := PdfReader (path_join OUT_DIR f) in
  (forall f, is_pdf_name f = true <->
             exists stem, lower f = stem ++ lit ".pdf") /\
  (forall f, In f sel <-> (In f old \/ In f new) /\ is_pdf_name f = true) /\
  Permutation (parts (old ++ new)) (map (path_join OUT_DIR) sel) /\
  files_seen m = length sel /\
  length (final_pages m) = pages_merged m /\
  pages_merged m = list_sum (map (fun f => length (pages_read (rd f))) sel) /\
  spec_page_count (old ++ new) PdfReader (@reads_whole Page)
    <= pages_merged m /\
  pages_merged m <= spec_page_count (old ++ new) PdfReader (@opens Page) /\
  ((forall f, In f sel -> rd f = OpenErr \/ reads_whole (rd f) = true) ->
   pages_merged m = spec_page_count (old ++ new) PdfReader (@reads_whole Page) /\
   pages_merged m = spec_page_count (old ++ new) PdfReader (@opens Page) /\
   pages_merged m =
     list_sum (map (fun f => length (all_pages (rd f)))
                   (filter (fun f => reads_whole (rd f)) sel))).
Proof.
  cbv zeta.
  set (sel := filter is_pdf_name old ++ filter is_pdf_name new).
  set (rd := fun f => PdfReader (path_join OUT_DIR f)).
  assert (Hperm : Permutation (parts (old ++ new))
                              (map (path_join OUT_DIR) sel)).
  { unfold parts, sel. rewrite <- filter_app. apply sorted_perm. }
  assert (Hsum : pages_merged (merge_pdfs (old ++ new) PdfReader) =
                 list_sum (map (fun f => length (pages_read (rd f))) sel)).
  { unfold merge_pdfs. rewrite merge_fold_spec. simpl.
    rewrite flat_map_length_sum.
    rewrite (list_sum_perm (Permutation_map _ Hperm)).
    now rewrite map_map. }
  assert (Hspec : forall parseable,
             spec_page_count (old ++ new) PdfReader parseable
             = list_sum (map (fun f => page_count (rd f))
                             (filter (fun f => parseable (rd f)) sel))).
  { intros parseable. unfold spec_page_count.
    rewrite (filter_both is_pdf_name (fun f => parseable (rd f))).
    unfold sel. now rewrite <- filter_app. }
  assert (Hlo : spec_page_count (old ++ new) PdfReader (@reads_whole Page)
                <= pages_merged (merge_pdfs (old ++ new) PdfReader)).
  { rewrite Hspec, Hsum. apply sum_filter_ge.
    intros f _. apply pages_read_count. }
  assert (Hhi : pages_merged (merge_pdfs (old ++ new) PdfReader)
                <= spec_page_count (old ++ new) PdfReader (@opens Page)).
  { rewrite Hspec, Hsum. apply sum_filter_le.
    intros f _. apply pages_read_count. }
  split; [intros f; apply endswith_iff|].
  split.
  { intros f. unfold sel. rewrite in_app_iff, !filter_In. tauto. }
  split; [exact Hperm|].
  split.
  { unfold merge_pdfs. simpl.
    now rewrite (Permutation_length Hperm), length_map. }
  split; [unfold merge_pdfs; rewrite merge_fold_spec; reflexivity|].
  split; [exact Hsum|]. split; [exact Hlo|]. split; [exact Hhi|].
  intros Hall.
  assert (Hsame : spec_page_count (old ++ new) PdfReader (@opens Page)
                  = spec_page_count (old ++ new) PdfReader (@reads_whole Page)).
  { rewrite !Hspec. f_equal. f_equal. apply filter_ext_in.
    intros f Hf. destruct (Hall f Hf) as [E|E]; rewrite E; trivial.
    destruct (rd f); [discriminate|reflexivity]. }
  split; [lia|]. split; [lia|].
  rewrite Hsum. clearbody sel. clear Hperm Hsum Hspec Hlo Hhi Hsame.
  induction sel as [|f l IH]; simpl; trivial.
  destruct (Hall f (or_introl eq_refl)) as [E|E].
  - rewrite E. simpl. apply IH. intros g Hg. apply Hall. now right.
  - rewrite E. simpl. rewrite (good_prefix_whole _ E). f_equal.
    apply IH. intros g Hg. apply Hall. now right.
Qed.

End MergerCounts.

(* ------------------------------------------------------------------ *)
(** * Concrete runs *)

(** C9 (as stated) fails: on the site whose first page links twice to the
    second, the frontier holds the second page twice after one iteration,
    and still holds it after the next iteration has visited it. *)
Lemma frontier_not_clean :
  let run n := crawl_steps (graph_fetch twice_linked) graph_links n
                 (mkCrawl [] [page_a]) in
  q (run 1) = [page_b; page_b] /\
  ~ frontier_clean (run 1) /\
  seen (run 2) = [page_a; page_b] /\ q (run 2) = [page_b] /\
  ~ frontier_clean (run 2).
Proof.
  cbv beta zeta.
  assert (E1 : crawl_steps (graph_fetch twice_linked) graph_links 1
                 (mkCrawl [] [page_a]) = mkCrawl [page_a] [page_b; page_b])
    by (vm_compute; reflexivity).
  assert (E2 : crawl_steps (graph_fetch twice_linked) graph_links 2
                 (mkCrawl [] [page_a]) = mkCrawl [page_a; page_b] [page_b])
    by (vm_compute; reflexivity).
  rewrite E1, E2. simpl. repeat split.
  - intros [Hnd _]. simpl in Hnd. inversion Hnd as [|x l Hx _]. apply Hx. now left.
  - intros [_ Hv]. apply (Hv page_b); simpl; auto.
Qed.

Lemma frontier_appends_unvisited_witness :
  q (crawl_steps (graph_fetch twice_linked) graph_links 0
       (mkCrawl [] [page_a])) = [page_a] /\
  crawl_step (graph_fetch twice_linked) graph_links (mkCrawl [] [page_a])
  = mkCrawl [page_a] [page_b; page_b].
Proof.
  split; [reflexivity|].
  destruct (@frontier_appends_unvisited _ (graph_fetch twice_linked)
              graph_links [page_a] 0 page_a [] eq_refl) as (_ & _ & H).
  etransitivity; [apply (H [page_b; page_b]) | vm_compute; reflexivity].
  - simpl. tauto.
  - vm_compute. reflexivity.
Defined.

(** The merger on three files of 2, 3 and 1 pages: six pages in file
    order; three when the middle file cannot be opened. *)
Example merge_three_files :
  let m := merge_pdfs three_files read_three in
  parts three_files =
    map lit ["esm_pdf_pages/0001 - cap0.pdf"; "esm_pdf_pages/0002 - cap1.pdf";
             "esm_pdf_pages/0003 - cap2.pdf"]%string /\
  final_pages m = [11; 12; 21; 22; 23; 31] /\ pages_merged m = 6 /\
  files_seen m = 3.
Proof. vm_compute. repeat split. Qed.

Example merge_unreadable_middle :
  let m := merge_pdfs three_files read_three_bad_middle in
  final_pages m = [11; 12; 31] /\ pages_merged m = 3 /\ files_seen m = 3.
Proof. vm_compute. repeat split. Qed.

(** C6 (as stated) fails: a middle file that fails at its third page is
    not read whole, yet its first two pages are in the final document,
    which therefore differs from the all-or-nothing document. *)
Lemma torn_file_is_partly_merged :
  let f := lit "esm_pdf_pages/0002 - cap1.pdf" in
  let m := merge_pdfs three_files read_three_torn_middle in
  reads_whole (read_three_torn_middle f) = false /\
  all_or_nothing (read_three_torn_middle f) = [] /\
  final_pages m = [11; 12; 21; 22; 31] /\
  final_pages m <>
    flat_map (fun f => all_or_nothing (read_three_torn_middle f))
             (parts three_files).
Proof.
  vm_compute. repeat split. discriminate.
Qed.

Lemma merge_pdfs_pages_witness :
  final_pages (merge_pdfs three_files read_three_torn_middle)
  = flat_map (fun f => pages_read (read_three_torn_middle f))
             (parts three_files) /\
  pages_read (read_three_torn_middle (lit "esm_pdf_pages/0002 - cap1.pdf"))
  = [21; 22].
Proof.
  destruct (merge_pdfs_pages three_files read_three_torn_middle)
    as (_ & _ & _ & Hfinal & _ & _ & _ & Htorn).
  split; [exact Hfinal|].
  apply (Htorn (lit "esm_pdf_pages/0002 - cap1.pdf") [21; 22] []).
  vm_compute. reflexivity.
Defined.

(** C10 (as stated) fails: with a middle file that fails at its third
    page the final document has five pages, which is neither the sum of the
    page counts of the files that open (six) nor that of the files that
    read whole (three). *)
Lemma torn_file_page_count :
  let m := merge_pdfs three_files read_three_torn_middle in
  Forall (fun f => is_pdf_name f = true) three_files /\
  pages_merged m = 5 /\
  length (final_pages m) = 5 /\
  spec_page_count three_files read_three_torn_middle (@opens nat) = 6 /\
  spec_page_count three_files read_three_torn_middle (@reads_whole nat) = 3.
Proof.
  vm_compute. repeat split; repeat constructor.
Qed.

Lemma merge_counts_every_pdf_witness :
  let old := map lit ["0007 - OLD.PDF"; "notes.txt"]%string in
  let new := [lit "0001 - cap0.pdf"] in
  is_pdf_name (lit "0007 - OLD.PDF") = true /\
  is_pdf_name (lit "notes.txt") = false /\
  pages_merged (merge_pdfs (old ++ new) read_leftover) = 4 /\
  spec_page_count (old ++ new) read_leftover (@reads_whole nat) = 4.
Proof.
  cbv zeta. split; [reflexivity|]. split; [reflexivity|].
  destruct (merge_counts_every_pdf read_leftover
              (map lit ["0007 - OLD.PDF"; "notes.txt"]%string)
              [lit "0001 - cap0.pdf"]) as (_ & _ & _ & _ & _ & _ & _ & _ & H).
  destruct H as (H & _ & _).
  - intros f Hf. vm_compute in Hf.
    destruct Hf as [<-|[<-|[]]]; right; vm_compute; reflexivity.
  - rewrite <- H. split; vm_compute; reflexivity.
Defined.

(** A batch of three URLs whose second navigation fails: the first and the
    third artifact are written and the browser is closed once. *)
Lemma print_to_pdf_batch_witness :
  let r := print_to_pdf lenient lenient None true true
             second_goto_fails always_ok [cap0; cap1; cap2] in
  Forall (fun u => url_path lenient lenient u <> None) [cap0; cap1; cap2] /\
  raised r = false /\
  gotos (trace r) = [cap0; cap1; cap2] /\
  artifacts r = [lit "esm_pdf_pages/0001 - cap0.html.pdf";
                 lit "esm_pdf_pages/0003 - cap2.html.pdf"] /\
  closes (trace r) = 1 /\
  last (trace r) EvNewPage = EvClose.
Proof.
  assert (Hp : Forall (fun u => url_path lenient lenient u <> None)
                 [cap0; cap1; cap2])
    by (repeat constructor; vm_compute; discriminate).
  split; [exact Hp|].
  exact (print_to_pdf_batch lenient lenient None second_goto_fails always_ok Hp).
Defined.

(** The sequencer on the chapters 3, 1 and the appendix, out of order, and
    two articles. *)
Example order_chapters_then_articles :
  order_urls lenient lenient [cap3; artigo_b; cap1; capAp; artigo_a]
  = Some [cap1; cap3; capAp; artigo_a; artigo_b].
Proof. vm_compute. reflexivity. Qed.

(** A URL that contains both markers is emitted by the articles bucket and
    again by the FAQ bucket. *)
Example order_both_markers :
  order_urls lenient lenient [artigo_faq] = Some [artigo_faq; artigo_faq].
Proof. vm_compute. reflexivity. Qed.

(** C2 (as stated) fails: a URL that the input list holds twice, and that is
    neither a chapter nor an extra root, is in the output twice. *)
Lemma order_urls_repeats_input :
  order_urls lenient lenient [page_a; page_a] = Some [page_a; page_a] /\
  count_occ str_eq_dec [page_a; page_a] page_a = 2 /\
  ~ Permutation (nodup str_eq_dec [page_a; page_a]) [page_a; page_a].
Proof.
  split; [vm_compute; reflexivity|]. split; [vm_compute; reflexivity|].
  intros H. apply Permutation_length in H. vm_compute in H. discriminate.
Qed.

Lemma order_urls_keeps_every_url_witness :
  exists out,
    order_urls lenient lenient [cap3; artigo_b; cap1; capAp; artigo_a]
    = Some out /\
    Permutation [cap3; artigo_b; cap1; capAp; artigo_a] out.
Proof.
  assert (Hc : distinct_paths lenient lenient
                 [cap3; artigo_b; cap1; capAp; artigo_a] = true)
    by (vm_compute; reflexivity).
  destruct (distinct_paths_sound _ _ _ Hc) as [Hp _].
  destruct (order_urls_keeps_every_url Hp) as (out & Ho & _ & Hperm).
  exists out. split; [exact Ho|]. apply Hperm.
  - apply distinct_NoDup. vm_compute. reflexivity.
  - apply single_markerb_sound. vm_compute. reflexivity.
Defined.

(** C3 (as stated) fails: the home page reached with and without its final
    slash gives two URLs of path [/]; only the last one seen is emitted
    among the extra roots, the other one after the practices page. *)
Lemma order_urls_same_path_counterexample :
  NoDup [home_bare; home_slash; praticas] /\
  url_path lenient lenient home_bare = url_path lenient lenient home_slash /\
  order_urls lenient lenient [home_bare; home_slash; praticas]
  = Some [home_slash; praticas; home_bare] /\
  sequencer_spec lenient lenient [home_bare; home_slash; praticas]
  = [home_bare; home_slash; praticas] /\
  order_urls lenient lenient [home_bare; home_slash; praticas]
  <> Some (sequencer_spec lenient lenient [home_bare; home_slash; praticas]).
Proof.
  split; [apply distinct_NoDup; vm_compute; reflexivity|].
  repeat split; try (vm_compute; reflexivity).
  vm_compute. discriminate.
Qed.

Lemma order_urls_follows_spec_witness :
  order_urls lenient lenient [cap3; artigo_b; cap1; capAp; artigo_a]
  = Some [cap1; cap3; capAp; artigo_a; artigo_b].
Proof.
  assert (Hc : distinct_paths lenient lenient
                 [cap3; artigo_b; cap1; capAp; artigo_a] = true)
    by (vm_compute; reflexivity).
  destruct (distinct_paths_sound _ _ _ Hc) as [Hp Hd].
  rewrite (order_urls_follows_spec Hp).
  - vm_compute. reflexivity.
  - apply distinct_NoDup. vm_compute. reflexivity.
  - exact Hd.
  - apply single_markerb_sound. vm_compute. reflexivity.
Defined.

(** C4 (as stated) fails: the two orders of the two home-page URLs are
    sequenced differently, each putting first the URL it saw last. *)
Lemma order_urls_depends_on_order :
  Permutation [home_bare; home_slash] [home_slash; home_bare] /\
  order_urls lenient lenient [home_bare; home_slash]
  = Some [home_slash; home_bare] /\
  order_urls lenient lenient [home_slash; home_bare]
  = Some [home_bare; home_slash] /\
  order_urls lenient lenient [home_bare; home_slash]
  <> order_urls lenient lenient [home_slash; home_bare].
Proof.
  split; [apply perm_swap|].
  repeat split; try (vm_compute; reflexivity).
  vm_compute. discriminate.
Qed.

Lemma order_urls_order_independent_witness :
  Permutation [cap1; cap3; artigo_b] [cap3; artigo_b; cap1] /\
  order_urls lenient lenient [cap1; cap3; artigo_b]
  = order_urls lenient lenient [cap3; artigo_b; cap1].
Proof.
  assert (Hperm : Permutation [cap1; cap3; artigo_b] [cap3; artigo_b; cap1])
    by apply (Permutation_cons_append [cap3; artigo_b] cap1).
  split; [exact Hperm|].
  apply (@order_urls_order_independent lenient lenient _ _ Hperm).
  apply distinct_paths_sound. vm_compute. reflexivity.
Defined.

(** C8 (as stated) fails: the space before the query of ["/a ?x"] ends the
    normalized URL, and normalizing that URL again strips it. *)
Lemma normalize_not_idempotent :
  normalize lenient lenient (lit "/a ?x")
  = Some (lit "https://engsoftmoderna.info/a ") /\
  normalize lenient lenient (lit "https://engsoftmoderna.info/a ")
  = Some (lit "https://engsoftmoderna.info/a") /\
  normalize lenient lenient (lit "https://engsoftmoderna.info/a ")
  <> Some (lit "https://engsoftmoderna.info/a ").
Proof.
  split; [vm_compute; reflexivity|]. split; [vm_compute; reflexivity|].
  vm_compute. discriminate.
Qed.

Lemma normalize_idempotent_witness :
  normalize lenient lenient (lit "/cap1.html?x=1#y") = Some cap1 /\
  normalize lenient lenient cap1 = Some cap1.
Proof.
  assert (H : normalize lenient lenient (lit "/cap1.html?x=1#y") = Some cap1)
    by (vm_compute; reflexivity).
  split; [exact H|].
  apply (@normalize_idempotent lenient lenient _ _ H).
  - discriminate.
  - vm_compute. reflexivity.
Defined.



(** ** The normalizer *)

(** X1 on a link in upper case with query and fragment. *)
Lemma normalize_output_shape_witness :
  normalize lenient lenient (lit "HTTPS://EngSoftModerna.info/Cap1.html?q#f")
  = Some (lit "https://EngSoftModerna.info/Cap1.html") /\
  exists host rest,
    lit "https://EngSoftModerna.info/Cap1.html" = lit "https://" ++ host ++ rest /\
    ci_str_eqb (lit "engsoftmoderna.info") host = true.
Proof.
  assert (H : normalize lenient lenient
                (lit "HTTPS://EngSoftModerna.info/Cap1.html?q#f")
              = Some (lit "https://EngSoftModerna.info/Cap1.html"))
    by (vm_compute; reflexivity).
  split; [exact H|].
  destruct (@normalize_output_shape lenient lenient _ _ H)
    as (host & rest & E & Hh & _); [discriminate|].
  exists host, rest. now split.
Defined.

(** X2 on an href of a space and a tab. *)
Lemma normalize_blank_href_witness :
  normalize lenient lenient [" "%char; TAB] = Some BASE.
Proof.
  apply normalize_blank_href; [discriminate|reflexivity].
Defined.

(** X3 on a host that opens a bracket. *)
Lemma normalize_raises_on_unbalanced_bracket_witness :
  normalize lenient lenient (lit "//" ++ lit "[v6") = None.
Proof.
  apply normalize_raises_on_unbalanced_bracket; reflexivity.
Defined.

(** X4 on a link whose last segment has parameters. *)
Lemma normalized_url_path_witness :
  normalize lenient lenient (lit "/a;b?q")
  = Some (lit "https://engsoftmoderna.info/a;b") /\
  exists p, url_path lenient lenient (lit "https://engsoftmoderna.info/a;b")
            = Some p.
Proof.
  assert (H : normalize lenient lenient (lit "/a;b?q")
              = Some (lit "https://engsoftmoderna.info/a;b"))
    by (vm_compute; reflexivity).
  split; [exact H|].
  destruct (@normalized_url_path lenient lenient _ _ H)
    as (host & p & tail & _ & Hp & _); [discriminate|].
  now exists p.
Defined.

(** ** The crawl over the pages *)

(** X5 on the anchors of the home page of the small site. *)
Lemma extract_links_normalized_witness :
  extract_links lenient lenient home_anchors = Some [cap1; artigo_a] /\
  length [cap1; artigo_a] <= length home_anchors /\
  Forall (fun l => l <> [] /\ is_internal l = true /\
                   ~ In "?"%char l /\ ~ In "#"%char l) [cap1; artigo_a].
Proof.
  assert (H : extract_links lenient lenient home_anchors
              = Some [cap1; artigo_a]) by (vm_compute; reflexivity).
  split; [exact H|].
  destruct (@extract_links_normalized lenient lenient _ _ H) as (_ & Hl & HF).
  now split.
Defined.


(** The crawl follows a link to the host spelt with a dotless i, which is
    not the configured host: it fetches the page and returns its URL. *)
Example crawl_reaches_dotless_host :
  crawl_pages lenient lenient dotless_site (fun h => h) 10 [home_slash]
  = Crawled [home_slash; dotless_link] /\
  is_internal dotless_link = true.
Proof. vm_compute. split; reflexivity. Qed.

Lemma small_site_pages (u : str) (h : list (option str)) :
  small_site u = Some h ->
  (u = home_slash /\ h = home_anchors) \/
  (u = cap1 /\ h = [Some (lit "/")]) \/
  (u = artigo_a /\ h = []).
Proof.
  unfold small_site.
  destruct (str_eqb u home_slash) eqn:E1;
    [apply str_eqb_true_iff in E1; intros [= <-]; now left|].
  destruct (str_eqb u cap1) eqn:E2;
    [apply str_eqb_true_iff in E2; intros [= <-]; right; now left|].
  destruct (str_eqb u artigo_a) eqn:E3;
    [apply str_eqb_true_iff in E3; intros [= <-]; right; now right|].
  discriminate.
Qed.

Lemma broken_site_pages (u : str) (h : list (option str)) :
  broken_site u = Some h -> In u [home_slash; cap1; artigo_a].
Proof.
  unfold broken_site.
  destruct (str_eqb u home_slash) eqn:E1;
    [apply str_eqb_true_iff in E1; intros _; now left|].
  intros H. apply small_site_pages in H.
  destruct H as [[-> _]|[[-> _]|[-> _]]]; simpl; auto.
Qed.

(** X7 on the small site. *)
Lemma crawl_pages_returns_reachable_witness :
  exists out,
    crawl_pages lenient lenient small_site (fun h => h) 10 [home_slash]
    = Crawled out /\
    NoDup out /\
    (forall u, In u out <->
               reachable small_site
                 (links_of_page lenient lenient (fun h => h))
                 [home_slash] u).
Proof.
  apply (@crawl_pages_returns_reachable lenient lenient _ small_site
           (fun h => h) [home_slash; cap1; artigo_a] [home_slash] 10).
  - intros u h H. apply small_site_pages in H.
    destruct H as [[-> _]|[[-> _]|[-> _]]]; simpl; auto.
  - intros u h _ H. apply small_site_pages in H.
    destruct H as [[_ ->]|[[_ ->]|[_ ->]]]; vm_compute; discriminate.
  - apply Nat.ltb_lt. vm_compute. reflexivity.
Defined.

(** X8 on the site whose home page holds a link with an open bracket. *)
Lemma crawl_pages_raises_on_bad_href_witness :
  crawl_pages lenient lenient broken_site (fun h => h) 10 [home_slash]
  = CrawlRaised.
Proof.
  apply (@crawl_pages_raises_on_bad_href lenient lenient _ broken_site
           (fun h => h) [home_slash; cap1; artigo_a] [home_slash] 10
           home_slash (home_anchors ++ [Some (lit "//[v6")])
           (Some (lit "//[v6"))).
  - apply broken_site_pages.
  - apply reach_seed with (home_anchors ++ [Some (lit "//[v6")]);
      [now left|reflexivity].
  - reflexivity.
  - apply in_or_app. right. now left.
  - vm_compute. reflexivity.
  - apply Nat.ltb_lt. vm_compute. reflexivity.
Defined.

(** ** The sequencer *)

(** X9 on three chapters and two articles. *)
Lemma order_urls_idempotent_witness :
  order_urls lenient lenient [cap3; artigo_b; cap1; capAp; artigo_a]
  = Some [cap1; cap3; capAp; artigo_a; artigo_b] /\
  order_urls lenient lenient [cap1; cap3; capAp; artigo_a; artigo_b]
  = Some [cap1; cap3; capAp; artigo_a; artigo_b].
Proof.
  assert (H : order_urls lenient lenient
                [cap3; artigo_b; cap1; capAp; artigo_a]
              = Some [cap1; cap3; capAp; artigo_a; artigo_b])
    by (vm_compute; reflexivity).
  split; [exact H|].
  assert (Hc : distinct_paths lenient lenient
                 [cap3; artigo_b; cap1; capAp; artigo_a] = true)
    by (vm_compute; reflexivity).
  destruct (distinct_paths_sound _ _ _ Hc) as [_ Hpd].
  apply (@order_urls_idempotent lenient lenient _ _ H).
  - apply distinct_NoDup. vm_compute. reflexivity.
  - exact Hpd.
  - apply single_markerb_sound. vm_compute. reflexivity.
Defined.

(** X11 on an article of the FAQ and a chapter. *)
Lemma order_urls_multiplicity_witness :
  order_urls lenient lenient [artigo_faq; cap1]
  = Some [cap1; artigo_faq; artigo_faq] /\
  count_occ str_eq_dec [cap1; artigo_faq; artigo_faq] artigo_faq = 2.
Proof.
  assert (H : order_urls lenient lenient [artigo_faq; cap1]
              = Some [cap1; artigo_faq; artigo_faq])
    by (vm_compute; reflexivity).
  split; [exact H|].
  etransitivity.
  - apply (@order_urls_multiplicity lenient lenient _ _ artigo_faq H).
    + apply distinct_NoDup. vm_compute. reflexivity.
    + now left.
  - vm_compute. reflexivity.
Defined.

(** ** The renderer and the merger *)

(** X13 on page 1001. *)
Lemma page_ten_thousand_sorts_early_witness :
  str_leb (page_fname (10 ^ 4) (lit "/a.html"))
          (page_fname 1001 (lit "/b.html")) = true.
Proof.
  destruct (@page_ten_thousand_sorts_early 1001 (lit "/a.html")
              (lit "/b.html")) as (_ & H & _).
  - apply Nat.ltb_lt. vm_compute. reflexivity.
  - apply H. lia.
Defined.

(** X14 on three chapters, the second of which fails to load, rendered
    into a directory that held a text file. *)
Lemma fresh_run_merges_in_order_witness :
  let r := print_to_pdf lenient lenient None true true
             second_goto_fails always_ok [cap0; cap1; cap2] in
  parts (listdir_after [lit "notes.txt"] (artifacts r))
  = [lit "esm_pdf_pages/0001 - cap0.html.pdf";
     lit "esm_pdf_pages/0003 - cap2.html.pdf"] /\
  final_pages (merge_pdfs (listdir_after [lit "notes.txt"] (artifacts r))
                          read_three)
  = flat_map (fun f => pages_read (read_three f)) (artifacts r).
Proof.
  cbv zeta.
  destruct (@fresh_run_merges_in_order lenient lenient None
              second_goto_fails always_ok [cap0; cap1; cap2]
              [lit "notes.txt"] nat read_three) as [Hparts Hfinal].
  - repeat constructor; vm_compute; discriminate.
  - apply Nat.ltb_lt. vm_compute. reflexivity.
  - intros f [<-|[]]. vm_compute. reflexivity.
  - split; [|exact Hfinal].
    etransitivity; [exact Hparts|]. vm_compute. reflexivity.
Defined.

(** X16 on two listings of the same two PDF files. *)
Lemma merge_pdfs_listing_order_witness :
  merge_pdfs with_leftover read_leftover
  = merge_pdfs [lit "0007 - OLD.PDF"; lit "0001 - cap0.pdf"] read_leftover.
Proof.
  apply (@merge_pdfs_listing_order nat read_leftover with_leftover
           [lit "0007 - OLD.PDF"; lit "0001 - cap0.pdf"]).
  apply perm_swap.
Defined.

(** ** The whole run *)

(** X18 on the small site, without a browser executable, into an empty
    directory, every call returning. *)
Lemma main_renders_what_it_crawls_witness :
  crawl_pages lenient lenient small_site (fun h => h) 40 seed_urls
  = Crawled [cap1; home_slash; artigo_a] /\
  exists ordered,
    let r := print_to_pdf_io lenient lenient every_call_returns None
               always_ok always_ok ordered in
    main lenient lenient small_site (fun h => h)
         (fun _ => false) (fun _ => None) every_call_returns
         always_ok always_ok [] read_three 40
    = MainDone ordered r
        (merge_pdfs (listdir_after [] (artifacts r)) read_three) /\
    gotos (trace r) = ordered /\
    Permutation [cap1; home_slash; artigo_a] ordered.
Proof.
  assert (H : crawl_pages lenient lenient small_site (fun h => h) 40 seed_urls
              = Crawled [cap1; home_slash; artigo_a])
    by (vm_compute; reflexivity).
  split; [exact H|].
  destruct (@main_renders_what_it_crawls lenient lenient _ small_site
              (fun h => h) (fun _ => false) (fun _ => None)
              always_ok always_ok nat [] read_three every_call_returns 40 _ H)
    as (ordered & _ & _ & Hm & Hg & Hrest).
  exists ordered. cbv zeta. split; [exact Hm|].
  split; [now apply Hg|].
  apply Hrest.
  - reflexivity.
  - apply single_markerb_sound. vm_compute. reflexivity.
  - apply Nat.ltb_lt. vm_compute. reflexivity.
  - intros f [].
Defined.
